(** * Jelly solver (solve.cc): shallow embedding and verification

    The development follows the layout of [solve.cc]:
    - [Point], [Cell] and [Level] are the data model;
    - [GrabMovable], [TryMove], [DropDown], [Regroup],
      [RemoveUnusedGroupNumber], [UpdateConnections] and [MoveGroup] are the
      move simulator;
    - [MarkColorVisited] and [Solved] are the win detector;
    - [Successors] and [Solve] are the search.

    [int] values are modelled by [Z], with the conversion from a size and
    the increment of the counter of [Solve] written out; [uint8_t] values
    by [Z] with the wrap-around modulo 256 written at every narrowing
    conversion.  A
    [std::vector] is a [list]; reading or writing outside its bounds and a
    failing [assert] are explicit faults of the [result] monad. *)

From Stdlib Require Import ZArith Lia String Ascii.
From stdpp Require Import base tactics option list numbers sorting gmap.

Open Scope Z_scope.

(** ** Faults and the result monad *)

Inductive fault : Set :=
  | AssertFail   (* an [assert] of the source failed *)
  | OutOfRange   (* a vector or string was indexed outside its bounds *)
  | Overflow     (* a signed [int] computation left the range of [int] *)
  | BadAlloc     (* a vector was asked for more elements than it can hold *)
  | OutOfFuel.   (* the recursion budget of the model ran out *)

Inductive result (A : Type) : Type :=
  | Ok (a : A)
  | Err (e : fault).
Arguments Ok {A} a.
Arguments Err {A} e.

#[global] Instance result_ret : MRet result := λ A a, Ok a.
#[global] Instance result_bind : MBind result := λ A B f m,
  match m with Ok a => f a | Err e => Err e end.

Definition assert (b : bool) : result unit :=
  if b then Ok tt else Err AssertFail.

(** Loops: [forM] runs a body over a list, threading the state; [for_each]
    is the same loop with an early [return]. *)

Fixpoint forM {S A : Type} (l : list A) (body : A → S → result S) (s : S)
  : result S :=
  match l with
  | [] => Ok s
  | x :: l => s' ← body x s; forM l body s'
  end.

Inductive flow (R S : Type) : Type :=
  | Continue (s : S)
  | Return (r : R).
Arguments Continue {R S} s.
Arguments Return {R S} r.

Fixpoint for_each {R S A : Type} (l : list A)
    (body : A → S → result (flow R S)) (s : S) : result (flow R S) :=
  match l with
  | [] => Ok (Continue s)
  | x :: l =>
      fl ← body x s;
      match fl with
      | Continue s' => for_each l body s'
      | Return r => Ok (Return r)
      end
  end.

(** ** Data model *)

(** Orthogonal directions: left, right, down, up. *)
Definition DR : list Z := [0; 0; 1; -1].
Definition DC : list Z := [-1; 1; 0; 0].
Definition dirs : list (Z * Z) := zip DR DC.

Definition uint8 (z : Z) : Z := z mod 256.

Record Point : Set := mkPoint { pt_r : Z; pt_c : Z }.

Definition Narrow (r c : Z) : Point :=
  {| pt_r := uint8 r; pt_c := uint8 c |}.

Inductive CellType : Set := OPEN | WALL | MOVABLE.

Record Cell : Set := mkCell { type : CellType; color : Z; group : Z }.

(** [Cell()] *)
Definition Cell0 : Cell := mkCell OPEN 0 0.
(** [Cell{.type = Cell::WALL}] *)
Definition CellWall : Cell := mkCell WALL 0 0.

#[global] Instance CellType_eq_dec : EqDecision CellType.
Proof. solve_decision. Defined.
#[global] Instance Cell_eq_dec : EqDecision Cell.
Proof. solve_decision. Defined.
#[global] Instance Point_eq_dec : EqDecision Point.
Proof. solve_decision. Defined.

Definition Grid : Type := list (list Cell).

Record Level : Type := mkLevel {
  width : Z;
  height : Z;
  groups : Z;
  grid : Grid
}.

#[global] Instance Level_eq_dec : EqDecision Level.
Proof. solve_decision. Defined.

(** [cell g r c] is [g[r][c]] when it exists; the same operations serve the
    [visited] table of [Solved]. *)
Definition cell {A : Type} (g : list (list A)) (r c : Z) : option A :=
  if bool_decide (0 ≤ r ∧ 0 ≤ c)
  then row ← g !! Z.to_nat r; row !! Z.to_nat c
  else None.

Definition set_cell {A : Type} (g : list (list A)) (r c : Z) (x : A)
  : list (list A) :=
  alter (λ row, <[Z.to_nat c := x]> row) (Z.to_nat r) g.

(** Reading [g[r][c]]. *)
Definition at_ {A : Type} (g : list (list A)) (r c : Z) : result A :=
  match cell g r c with Some x => Ok x | None => Err OutOfRange end.

(** Writing [g[r][c] = x]. *)
Definition put {A : Type} (g : list (list A)) (r c : Z) (x : A)
  : result (list (list A)) :=
  match cell g r c with
  | Some _ => Ok (set_cell g r c x)
  | None => Err OutOfRange
  end.

(** The cells visited by [for (r = 1; r + 1 < height; ++r)
    for (c = 1; c + 1 < width; ++c)], in order. *)
Definition interior (h w : Z) : list (Z * Z) :=
  r ← seqZ 1 (h - 2); c ← seqZ 1 (w - 2); [(r, c)].

(** ** Move simulator: grab and place *)

Abbreviation grab_state := (Grid * list (Point * Cell))%type.

Definition is_type (t : CellType) (x : Cell) : bool := bool_decide (type x = t).

(** One iteration of the direction loop of [GrabMovable]; [rec] is the
    recursive call. *)
Definition grab_dir (rec : Z → Z → grab_state → result (bool * grab_state))
    (r c dr dc g : Z) (d : Z * Z) (st : grab_state)
  : result (flow grab_state grab_state) :=
  let r2 := r + d.1 in
  let c2 := c + d.2 in
  n ← at_ st.1 r2 c2;
  if bool_decide (d.1 = dr ∧ d.2 = dc) then
    if is_type WALL n then Ok (Return st)
    else if is_type MOVABLE n then
      '(b, st') ← rec r2 c2 st;
      Ok (if b : bool then Continue st' else Return st')
    else Ok (Continue st)
  else
    if is_type MOVABLE n && bool_decide (group n = g) then
      '(b, st') ← rec r2 c2 st;
      Ok (if b : bool then Continue st' else Return st')
    else Ok (Continue st).

Fixpoint GrabMovable (fuel : nat) (dr dc r c : Z) (st : grab_state)
  : result (bool * grab_state) :=
  match fuel with
  | O => Err OutOfFuel
  | S fuel =>
      x ← at_ st.1 r c;
      _ ← assert (is_type MOVABLE x);
      let g := group x in
      let points := st.2 ++ [(Narrow r c, x)] in
      grid ← put st.1 r c Cell0;
      fl ← for_each dirs (grab_dir (GrabMovable fuel dr dc) r c dr dc g)
             (grid, points);
      match fl with
      | Continue st' => Ok (true, st')
      | Return st' => Ok (false, st')
      end
  end.

(** The number of movable cells bounds the recursion depth of
    [GrabMovable]: every call clears one. *)
Definition count_cells {A : Type} (P : A → bool) (g : list (list A)) : nat :=
  length (filter (λ x, P x = true) (concat g)).

Definition grab_fuel (g : Grid) : nat := S (count_cells (is_type MOVABLE) g).

(** The body of the placing loop of [TryMove]. *)
Definition place (dr dc : Z) (p : Point * Cell) (g : Grid) : result Grid :=
  let r2 := pt_r p.1 + dr in
  let c2 := pt_c p.1 + dc in
  x ← at_ g r2 c2;
  _ ← assert (is_type OPEN x);
  put g r2 c2 p.2.

Definition TryMove (g : Grid) (r c dr dc : Z) : result (bool * Grid) :=
  '(res, (g', points)) ← GrabMovable (grab_fuel g) dr dc r c (g, []);
  let dr := if res : bool then dr else 0 in
  let dc := if res : bool then dc else 0 in
  g'' ← forM points (place dr dc) g';
  Ok (res, g'').

Definition DropDown (h w : Z) (g : Grid) : result Grid :=
  forM (interior h w)
    (λ '(r, c) g,
       x ← at_ g r c;
       if is_type MOVABLE x then '(_, g') ← TryMove g r c 1 0; Ok g'
       else Ok g)
    g.

(** ** Move simulator: merging groups *)

Definition set_group (x : Cell) (g : Z) : Cell :=
  {| type := type x; color := color x; group := uint8 g |}.

Fixpoint Regroup (fuel : nat) (from to : Z) (r c : Z) (g : Grid)
  : result Grid :=
  match fuel with
  | O => Err OutOfFuel
  | S fuel =>
      x ← at_ g r c;
      if bool_decide (group x ≠ from) then Ok g
      else
        g ← put g r c (set_group x to);
        g ← Regroup fuel from to (r - 1) c g;
        g ← Regroup fuel from to (r + 1) c g;
        g ← Regroup fuel from to r (c - 1) g;
        Regroup fuel from to r (c + 1) g
  end.

(** Every nested call of [Regroup] has rewritten one more cell of the old
    group. *)
Definition regroup_fuel (from : Z) (g : Grid) : nat :=
  S (count_cells (λ x, bool_decide (group x = from)) g).

Definition with_grid (lv : Level) (g : Grid) : Level :=
  {| width := width lv; height := height lv; groups := groups lv; grid := g |}.

Definition RemoveUnusedGroupNumber (g : Z) (lv : Level) : result Level :=
  _ ← assert (bool_decide (0 < g) && bool_decide (g ≤ groups lv));
  gr ← forM (interior (height lv) (width lv))
          (λ '(r, c) gr,
             x ← at_ gr r c;
             _ ← assert (bool_decide (group x ≠ g));
             if bool_decide (g < group x)
             then put gr r c (set_group x (group x - 1))
             else Ok gr)
          (grid lv);
  Ok {| width := width lv; height := height lv;
        groups := groups lv - 1; grid := gr |}.

(** One of the two neighbour checks in the body of [UpdateConnections]:
    [cell] is re-read through the reference [grid[r][c]]. *)
Definition connect (r c r2 c2 : Z) (lv : Level) : result Level :=
  x ← at_ (grid lv) r c;
  n ← at_ (grid lv) r2 c2;
  if is_type MOVABLE n && bool_decide (group n ≠ group x)
     && bool_decide (color n = color x)
  then
    let g := group n in
    gr ← Regroup (regroup_fuel g (grid lv)) g (group x) r2 c2 (grid lv);
    RemoveUnusedGroupNumber g (with_grid lv gr)
  else Ok lv.

Definition UpdateConnections (lv : Level) : result Level :=
  forM (interior (height lv) (width lv))
    (λ '(r, c) lv,
       x ← at_ (grid lv) r c;
       if is_type MOVABLE x && bool_decide (0 < color x) then
         lv ← connect r c r (c + 1) lv;
         connect r c (r + 1) c lv
       else Ok lv)
    lv.

Definition valid_dir (dr dc : Z) : bool :=
  bool_decide (dr = 0) && (bool_decide (dc = -1) || bool_decide (dc = 1))
  || bool_decide (dc = 0) && (bool_decide (dr = -1) || bool_decide (dr = 1)).

(** [MoveGroup]: the parameter [group_] is a [uint8_t]; callers narrow. *)
Definition MoveGroup (lv : Level) (group_ dr dc : Z) : result (bool * Level) :=
  _ ← assert (valid_dir dr dc);
  _ ← assert (bool_decide (0 < group_) && bool_decide (group_ ≤ groups lv));
  fl ← for_each (interior (height lv) (width lv))
         (λ '(r, c) (lv : Level),
            x ← at_ (grid lv) r c;
            if bool_decide (group x = group_) then
              '(b, gr) ← TryMove (grid lv) r c dr dc;
              if b : bool then
                gr ← DropDown (height lv) (width lv) gr;
                lv' ← UpdateConnections (with_grid lv gr);
                Ok (Return (true, lv'))
              else Ok (Return (false, with_grid lv gr))
            else Ok (Continue lv))
         lv;
  match fl with
  | Return res => Ok res
  | Continue _ => Err AssertFail   (* assert(false): group not found *)
  end.

(** The conversion of a size to [int] wraps around; [++i] on an [int] is
    only defined below the largest [int]. *)
Definition int (z : Z) : Z :=
  (z + 2147483648) mod 4294967296 - 2147483648.

Definition int_incr (i : Z) : result Z :=
  if bool_decide (i < 2147483647) then Ok (i + 1) else Err Overflow.

(** ** Construction of a level *)

(** [input[r][c]]: [std::string::operator[]] gives the null character at
    the position just behind the last character. *)
Definition char_at (input : list string) (r c : Z) : result ascii :=
  if bool_decide (0 ≤ r ∧ 0 ≤ c) then
    match input !! Z.to_nat r with
    | Some line =>
        match String.get (Z.to_nat c) line with
        | Some ch => Ok ch
        | None =>
            if bool_decide (Z.to_nat c = String.length line)
            then Ok "000"%char
            else Err OutOfRange
        end
    | None => Err OutOfRange
    end
  else Err OutOfRange.

Definition code (ch : ascii) : Z := Z.of_nat (nat_of_ascii ch).

(** The body of the constructor's double loop: [n] is the running value of
    [groups]. *)
Definition new_cell (input : list string) (h w : Z) (rc : Z * Z)
    (st : Z * Grid) : result (Z * Grid) :=
  let '(r, c) := rc in
  let '(n, gr) := st in
  if bool_decide (r = 0) || bool_decide (r = h - 1)
     || bool_decide (c = 0) || bool_decide (c = w - 1)
  then gr ← put gr r c CellWall; Ok (n, gr)
  else
    ch ← char_at input (r - 1) (c - 1);
    if bool_decide (code ch = code "#") then
      gr ← put gr r c CellWall; Ok (n, gr)
    else if bool_decide (code "1" ≤ code ch) && bool_decide (code ch ≤ code "9")
    then
      n ← int_incr n;
      gr ← put gr r c {| type := MOVABLE;
                         color := uint8 (code ch - code "0");
                         group := uint8 n |};
      Ok (n, gr)
    else Ok (n, gr).

Definition new_level (input : list string) : result Level :=
  line0 ← match input !! 0%nat with Some l => Ok l | None => Err OutOfRange end;
  let w := int (Z.of_nat (String.length line0) + 2) in
  let h := int (Z.of_nat (length input) + 2) in
  _ ← (if bool_decide (0 ≤ h ∧ 0 ≤ w) then Ok tt else Err BadAlloc);
  '(n, gr) ←
    forM (r ← seqZ 0 h; c ← seqZ 0 w; [(r, c)]) (new_cell input h w)
      (0, replicate (Z.to_nat h) (replicate (Z.to_nat w) Cell0));
  UpdateConnections {| width := w; height := h; groups := n; grid := gr |}.

(** ** Win detector *)

(** One iteration of the direction loop of [MarkColorVisited]; the
    condition is evaluated left to right with short-circuiting. *)
Definition mark_dir (rec : Z → Z → list (list bool) → result (list (list bool)))
    (g : Grid) (r c : Z) (d : Z * Z) (visited : list (list bool))
  : result (list (list bool)) :=
  let r2 := r + d.1 in
  let c2 := c + d.2 in
  n ← at_ g r2 c2;
  if is_type MOVABLE n then
    x ← at_ g r c;
    if bool_decide (color n = color x) then
      v ← at_ visited r2 c2;
      if negb v then rec r2 c2 visited else Ok visited
    else Ok visited
  else Ok visited.

Fixpoint MarkColorVisited (fuel : nat) (g : Grid) (r c : Z)
    (visited : list (list bool)) : result (list (list bool)) :=
  match fuel with
  | O => Err OutOfFuel
  | S fuel =>
      visited ← put visited r c true;
      forM dirs (mark_dir (MarkColorVisited fuel g) g r c) visited
  end.

(** Every nested call of [MarkColorVisited] has marked one more cell. *)
Definition mark_fuel (visited : list (list bool)) : nat :=
  S (count_cells negb visited).

Definition Solved (lv : Level) : result bool :=
  let visited :=
    replicate (Z.to_nat (height lv)) (replicate (Z.to_nat (width lv)) false) in
  fl ← for_each (interior (height lv) (width lv))
         (λ '(r, c) '((visited, colors) : list (list bool) * gset Z),
            v ← at_ visited r c;
            x ← at_ (grid lv) r c;
            if negb v && is_type MOVABLE x && bool_decide (0 < color x) then
              if bool_decide (color x ∈ colors) then Ok (Return false)
              else
                visited ← MarkColorVisited (mark_fuel visited) (grid lv) r c
                            visited;
                Ok (Continue (visited, {[color x]} ∪ colors))
            else Ok (Continue (visited, colors)))
         (visited, ∅);
  match fl with
  | Return b => Ok b
  | Continue _ => Ok true
  end.

(** ** Ordering of states: the defaulted [operator<=>] *)

Definition lex (c1 c2 : comparison) : comparison :=
  match c1 with Eq => c2 | _ => c1 end.

Definition CellType_rank (t : CellType) : Z :=
  match t with OPEN => 0 | WALL => 1 | MOVABLE => 2 end.

Definition Cell_compare (a b : Cell) : comparison :=
  lex (CellType_rank (type a) ?= CellType_rank (type b))
    (lex (color a ?= color b) (group a ?= group b)).

(** The three-way lexicographic comparison of two vectors. *)
Fixpoint vector_compare {A : Type} (cmp : A → A → comparison) (l1 l2 : list A)
  : comparison :=
  match l1, l2 with
  | [], [] => Eq
  | [], _ :: _ => Lt
  | _ :: _, [] => Gt
  | x :: l1, y :: l2 => lex (cmp x y) (vector_compare cmp l1 l2)
  end.

Definition Level_compare (a b : Level) : comparison :=
  lex (width a ?= width b)
    (lex (height a ?= height b)
       (lex (groups a ?= groups b)
          (vector_compare (vector_compare Cell_compare) (grid a) (grid b)))).

(** [a <= b], that is [!(b < a)]. *)
Definition Level_le (a b : Level) : Prop := Level_compare a b ≠ Gt.

#[global] Instance Level_le_dec : RelDecision Level_le.
Proof. intros a b. unfold Level_le. solve_decision. Defined.

(** ** Successor generator *)

(** [std::unique]: of every run of equal neighbours the first is kept. *)
Fixpoint unique (l : list Level) : list Level :=
  match l with
  | [] => []
  | x :: l' =>
      match l' with
      | y :: _ =>
          if bool_decide (x = y) then unique l'
          else x :: unique l'
      | [] => [x]
      end
  end.

(** The loop of [Successors]; its state is [(copy, result)].  The loop
    variable [g] is an [int] and is narrowed at the call. *)
Definition try_moves (this : Level) : result (Level * list Level) :=
  forM (g ← seqZ 1 (groups this); dc ← [-1; 1]; [(g, dc)])
    (λ '(g, dc) '((copy, res) : Level * list Level),
       '(b, copy) ← MoveGroup copy (uint8 g) 0 dc;
       if b : bool then Ok (this, res ++ [copy]) else Ok (copy, res))
    (this, []).

(** [std::sort] returns the sorted permutation of its input, which for the
    total order [Level_compare] is unique; [merge_sort] computes it. *)
Definition Successors (this : Level) : result (list Level) :=
  '(_, res) ← try_moves this;
  Ok (unique (merge_sort Level_le res)).

(** ** Search engine *)

(** [std::map<Level, int>::insert]: the keys are compared with
    [operator<=>]; the result tells whether the key was new. *)
Definition map_insert (m : list (Level * Z)) (k : Level) (v : Z)
  : list (Level * Z) * bool :=
  if existsb (λ kv, bool_decide (Level_compare kv.1 k = Eq)) m
  then (m, false)
  else (m ++ [(k, v)], true).

(** [v[i]] for a vector [v] and an [int] index. *)
Definition vec_at {A : Type} (v : list A) (i : Z) : result A :=
  if bool_decide (0 ≤ i) then
    match v !! Z.to_nat i with Some x => Ok x | None => Err OutOfRange end
  else Err OutOfRange.

Record search : Type := mkSearch {
  level_index : list (Level * Z);
  levels : list Level;
  previous_level_index : list Z
}.

(** [for (int j = i; j >= 0; j = previous_level_index[j])
      result.push_back(levels[j]->first);] *)
Fixpoint walk_back (fuel : nat) (st : search) (j : Z) (res : list Level)
  : result (list Level) :=
  if bool_decide (0 ≤ j) then
    match fuel with
    | O => Err OutOfFuel
    | S fuel =>
        lv ← vec_at (levels st) j;
        j' ← vec_at (previous_level_index st) j;
        walk_back fuel st j' (res ++ [lv])
    end
  else Ok res.

(** The body of the loop over the successors of [levels[i]]. *)
Definition visit (i : Z) (next_level : Level) (st : search)
  : result (flow (list Level) search) :=
  b ← Solved next_level;
  if b : bool then
    res ← walk_back (S (Z.to_nat i)) st i [next_level];
    Ok (Return (reverse res))
  else
    let j := int (Z.of_nat (length (levels st))) in
    let '(m, inserted) := map_insert (level_index st) next_level j in
    if inserted : bool then
      Ok (Continue {| level_index := m;
                      levels := levels st ++ [next_level];
                      previous_level_index := previous_level_index st ++ [i] |})
    else
      Ok (Continue {| level_index := m;
                      levels := levels st;
                      previous_level_index := previous_level_index st |}).

(** The outer loop of [Solve]; [fuel] bounds the number of expanded
    states. *)
Fixpoint Solve_loop (fuel : nat) (i : Z) (st : search) : result (list Level) :=
  match fuel with
  | O => Err OutOfFuel
  | S fuel =>
      if bool_decide (i < Z.of_nat (length (level_index st))) then
        level ← vec_at (levels st) i;
        next ← Successors level;
        fl ← for_each next (visit i) st;
        match fl with
        | Return res => Ok res
        | Continue st => i ← int_incr i; Solve_loop fuel i st
        end
      else Ok []
  end.

Definition Solve (fuel : nat) (initial_level : Level) : result (list Level) :=
  b ← Solved initial_level;
  if b : bool then Ok [initial_level]
  else
    Solve_loop fuel 0
      {| level_index := [(initial_level, 0)];
         levels := [initial_level];
         previous_level_index := [-1] |}.

(** * Verification *)

(** ** The result monad and the loops *)

Lemma bind_Ok {A B : Type} (a : A) (f : A → result B) : Ok a ≫= f = f a.
Proof. reflexivity. Qed.

Lemma bind_Err {A B : Type} (e : fault) (f : A → result B) :
  Err e ≫= f = Err e.
Proof. reflexivity. Qed.

Lemma bind_Ok_inv {A B : Type} (m : result A) (f : A → result B) (b : B) :
  m ≫= f = Ok b → ∃ a, m = Ok a ∧ f a = Ok b.
Proof. destruct m as [a|e]; [eauto | discriminate]. Qed.

Lemma assert_Ok_inv (b : bool) (u : unit) : assert b = Ok u → b = true.
Proof. destruct b; [done | discriminate]. Qed.

Lemma assert_true (b : bool) : b = true → assert b = Ok tt.
Proof. by intros ->. Qed.

(** Decompose a hypothesis [m ≫= f = Ok b] into its steps. *)
Ltac inv_bind H :=
  let a := fresh "a" in
  let Ha := fresh "Hstep" in
  apply bind_Ok_inv in H as (a & Ha & H).

Tactic Notation "inv_step" hyp(H) "as" simple_intropattern(a) ident(Ha) :=
  apply bind_Ok_inv in H as (a & Ha & H).

Lemma forM_app {S A : Type} (l1 l2 : list A) (body : A → S → result S) (s : S) :
  forM (l1 ++ l2) body s = (s' ← forM l1 body s; forM l2 body s').
Proof.
  revert s. induction l1 as [|x l1 IH]; intros s; simpl; [done|].
  destruct (body x s) as [s'|e]; simpl; [apply IH | done].
Qed.

(** A loop invariant for [forM]: it may depend on the part of the list
    already traversed. *)
Lemma forM_invariant {S A : Type} (I : list A → S → Prop) (l : list A)
    (body : A → S → result S) (s : S) :
  I [] s →
  (∀ done x s, (∃ rest, l = done ++ x :: rest) → I done s →
     ∃ s', body x s = Ok s' ∧ I (done ++ [x]) s') →
  ∃ s', forM l body s = Ok s' ∧ I l s'.
Proof.
  intros H0 Hstep.
  assert (∀ rest done s, l = done ++ rest → I done s →
            ∃ s', forM rest body s = Ok s' ∧ I l s') as Hgen.
  { induction rest as [|x rest IH]; intros done0 s0 Hl HI.
    - rewrite app_nil_r in Hl. subst. eauto.
    - destruct (Hstep done0 x s0) as (s' & Hb & HI'); [eauto | done |].
      simpl. rewrite Hb. simpl. apply (IH (done0 ++ [x])); [|done].
      by rewrite <- app_assoc. }
  by apply (Hgen l []).
Qed.

(** The partial-correctness counterpart: whatever the loop returns
    satisfies the invariant. *)
Lemma forM_invariant_inv {S A : Type} (I : list A → S → Prop) (l : list A)
    (body : A → S → result S) (s s' : S) :
  I [] s →
  (∀ done x s s', (∃ rest, l = done ++ x :: rest) → I done s →
     body x s = Ok s' → I (done ++ [x]) s') →
  forM l body s = Ok s' → I l s'.
Proof.
  intros H0 Hstep.
  assert (∀ rest done s, l = done ++ rest → I done s →
            forM rest body s = Ok s' → I l s') as Hgen.
  { induction rest as [|x rest IH]; intros done0 s0 Hl HI Hrun.
    - rewrite app_nil_r in Hl. simpl in Hrun. by simplify_eq.
    - simpl in Hrun. inv_bind Hrun.
      apply (IH (done0 ++ [x]) a); [by rewrite <- app_assoc | | done].
      eapply Hstep; eauto. }
  by apply (Hgen l []).
Qed.

(** ** Grids *)

Section grids.
Context {A : Type}.
Implicit Types (g : list (list A)) (r c : Z) (x : A).

(** A [h] by [w] table. *)
Definition rect (h w : Z) g : Prop :=
Z.of_nat (length g) = h ∧ Forall (λ row, Z.of_nat (length row) = w) g.

Lemma cell_Some g r c x :
cell g r c = Some x ↔
0 ≤ r ∧ 0 ≤ c ∧ ∃ row, g !! Z.to_nat r = Some row ∧ row !! Z.to_nat c = Some x.
Proof.
unfold cell. case_bool_decide as Hrc.
- destruct (g !! Z.to_nat r) as [row|] eqn:Hrow; simpl.
+ split; [intros ?; split_and!; try lia; eauto|].
intros (_ & _ & row' & ? & ?). by simplify_eq.
+ split; [done|]. intros (_ & _ & row' & ? & ?). done.
- split; [done|]. intros (? & ? & _). lia.
Qed.

Lemma cell_in_range h w g r c :
rect h w g → is_Some (cell g r c) ↔ (0 ≤ r < h ∧ 0 ≤ c < w).
Proof.
intros [Hh Hw]. split.
- intros [x (Hr & Hc & row & Hrow & Hx)%cell_Some].
pose proof (lookup_lt_Some _ _ _ Hrow) as Hlt.
pose proof (lookup_lt_Some _ _ _ Hx) as Hlt'.
rewrite Forall_forall in Hw.
specialize (Hw row (list_elem_of_lookup_2 _ _ _ Hrow)). lia.
- intros [Hr Hc].
destruct (lookup_lt_is_Some_2 g (Z.to_nat r)) as [row Hrow]; [lia|].
rewrite Forall_forall in Hw.
specialize (Hw row (list_elem_of_lookup_2 _ _ _ Hrow)).
destruct (lookup_lt_is_Some_2 row (Z.to_nat c)) as [x Hx]; [lia|].
exists x. apply cell_Some. split_and!; try lia. eauto.
Qed.

Lemma cell_set_cell g r c x r' c' :
is_Some (cell g r c) →
cell (set_cell g r c x) r' c' =
if decide (r' = r ∧ c' = c) then Some x else cell g r' c'.
Proof.
intros [y (Hr & Hc & row & Hrow & Hy)%cell_Some].
unfold cell, set_cell. case_bool_decide as Hrc'.
- destruct (decide (Z.to_nat r' = Z.to_nat r)) as [Heq|Hne].
+ rewrite Heq, list_lookup_alter_eq, Hrow. simpl.
destruct (decide (Z.to_nat c' = Z.to_nat c)) as [Heqc|Hnec].
* rewrite Heqc, list_lookup_insert_eq by (by eapply lookup_lt_Some).
rewrite decide_True by lia. done.
* rewrite list_lookup_insert_ne by done.
rewrite decide_False by lia. done.
+ rewrite list_lookup_alter_ne by done.
rewrite decide_False by lia. done.
- rewrite decide_False by lia. done.
Qed.

Lemma rect_set_cell h w g r c x : rect h w g → rect h w (set_cell g r c x).
Proof.
intros [Hh Hw]. unfold set_cell. split.
- by rewrite length_alter.
- rewrite Forall_forall in Hw. apply Forall_forall. intros row Hin.
apply list_elem_of_lookup in Hin as [i Hi].
destruct (decide (i = Z.to_nat r)) as [->|Hne].
+ rewrite list_lookup_alter_eq in Hi.
destruct (g !! Z.to_nat r) as [row0|] eqn:Hrow; simplify_eq/=.
rewrite length_insert. apply Hw. by eapply list_elem_of_lookup_2.
+ rewrite list_lookup_alter_ne in Hi by done.
apply Hw. by eapply list_elem_of_lookup_2.
Qed.

(** Two tables of the same shape with the same cells are equal. *)
Lemma grid_ext h w g1 g2 :
rect h w g1 → rect h w g2 →
(∀ r c, 0 ≤ r < h → 0 ≤ c < w → cell g1 r c = cell g2 r c) → g1 = g2.
Proof.
intros [Hh1 Hw1] [Hh2 Hw2] Hcell.
rewrite Forall_forall in Hw1. rewrite Forall_forall in Hw2.
apply list_eq_same_length with (Z.to_nat h); [lia | lia |].
intros i row1 row2 Hi Hrow1 Hrow2.
pose proof (Hw1 _ (list_elem_of_lookup_2 _ _ _ Hrow1)) as Hl1.
pose proof (Hw2 _ (list_elem_of_lookup_2 _ _ _ Hrow2)) as Hl2.
apply list_eq_same_length with (Z.to_nat w); [lia | lia |].
intros j x y Hj Hx Hy.
specialize (Hcell (Z.of_nat i) (Z.of_nat j)).
unfold cell in Hcell. rewrite bool_decide_eq_true_2 in Hcell by lia.
rewrite !Nat2Z.id, Hrow1, Hrow2 in Hcell. simpl in Hcell.
rewrite Hx, Hy in Hcell. assert (Some x = Some y) by (apply Hcell; lia).
by simplify_eq.
Qed.

Lemma at_Ok g r c x : at_ g r c = Ok x ↔ cell g r c = Some x.
Proof. unfold at_. destruct (cell g r c); naive_solver. Qed.

Lemma put_Ok g r c x :
is_Some (cell g r c) → put g r c x = Ok (set_cell g r c x).
Proof. intros [y Hy]. unfold put. by rewrite Hy. Qed.

Lemma put_Ok_inv g r c x g' :
put g r c x = Ok g' → is_Some (cell g r c) ∧ g' = set_cell g r c x.
Proof. unfold put. destruct (cell g r c); naive_solver. Qed.
End grids.

(** A loop invariant for [for_each]: [Q] describes what an early [return]
    delivers. *)
Lemma for_each_invariant {R S A : Type} (I : list A → S → Prop) (Q : R → Prop)
    (l : list A) (body : A → S → result (flow R S)) (s : S) :
  I [] s →
  (∀ done x s, (∃ rest, l = done ++ x :: rest) → I done s →
     ∃ fl, body x s = Ok fl ∧
       match fl with Continue s' => I (done ++ [x]) s' | Return r => Q r end) →
  ∃ fl, for_each l body s = Ok fl ∧
    match fl with Continue s' => I l s' | Return r => Q r end.
Proof.
  intros H0 Hstep.
  assert (∀ rest done s, l = done ++ rest → I done s →
            ∃ fl, for_each rest body s = Ok fl ∧
              match fl with Continue s' => I l s' | Return r => Q r end)
    as Hgen.
  { induction rest as [|x rest IH]; intros done0 s0 Hl HI.
    - rewrite app_nil_r in Hl. subst. exists (Continue s0). done.
    - destruct (Hstep done0 x s0) as (fl & Hb & HI'); [eauto | done |].
      simpl. rewrite Hb. simpl. destruct fl as [s'|r].
      + apply (IH (done0 ++ [x])); [|done]. by rewrite <- app_assoc.
      + exists (Return r). done. }
  by apply (Hgen l []).
Qed.

(** ** Counting cells *)

Section counting.
Context {A : Type} (P : A → bool).

Definition count_row (row : list A) : nat :=
length (filter (λ x, P x = true) row).

Definition b2n (b : bool) : nat := if b then 1%nat else 0%nat.

Lemma count_row_cons x row :
count_row (x :: row) = (b2n (P x) + count_row row)%nat.
Proof.
unfold count_row. rewrite filter_cons.
destruct (decide (P x = true)) as [->|Hne]; simpl; [done|].
by destruct (P x).
Qed.

Lemma count_row_insert row (i : nat) x y :
row !! i = Some y →
(count_row (<[i:=x]> row) + b2n (P y) = count_row row + b2n (P x))%nat.
Proof.
revert i. induction row as [|z row IH]; intros [|i] Hi; simplify_eq/=.
- rewrite !count_row_cons. lia.
- rewrite !count_row_cons. specialize (IH i Hi). lia.
Qed.

Lemma count_cells_cons row (g : list (list A)) :
count_cells P (row :: g) = (count_row row + count_cells P g)%nat.
Proof. unfold count_cells, count_row. simpl. by rewrite filter_app, length_app. Qed.

Lemma count_cells_set_cell (g : list (list A)) r c x y :
cell g r c = Some y →
(count_cells P (set_cell g r c x) + b2n (P y)
 = count_cells P g + b2n (P x))%nat.
Proof.
intros (Hr & Hc & row & Hrow & Hy)%cell_Some. unfold set_cell.
generalize dependent (Z.to_nat r). clear Hr r.
induction g as [|row0 g IH]; intros [|i] Hi; simplify_eq/=.
- rewrite !count_cells_cons.
pose proof (count_row_insert row (Z.to_nat c) x y Hy). lia.
- rewrite !count_cells_cons. specialize (IH i Hi). lia.
Qed.
End counting.

(** ** Positions, neighbours and the grab relation *)

Abbreviation pos := (Z * Z)%type.

Definition look (G : Grid) (p : pos) : option Cell := cell G p.1 p.2.

Definition step (p δ : pos) : pos := (p.1 + δ.1, p.2 + δ.2).

Definition movable (G : Grid) (p : pos) : Prop :=
  ∃ x, look G p = Some x ∧ type x = MOVABLE.

(** [edge d G p q]: when [GrabMovable] pushing in direction [d] has grabbed
    [p], it grabs the neighbour [q] too: any block lying in the push
    direction, and a block of the same group in another direction. *)
Definition edge (d : pos) (G : Grid) (p q : pos) : Prop :=
  ∃ δ x y, δ ∈ dirs ∧ q = step p δ ∧
    look G p = Some x ∧ type x = MOVABLE ∧
    look G q = Some y ∧ type y = MOVABLE ∧
    (δ = d ∨ group y = group x).

(** [blocked d G p]: the block at [p] has a wall in the push direction. *)
Definition blocked (d : pos) (G : Grid) (p : pos) : Prop :=
  ∃ x y, look G p = Some x ∧ type x = MOVABLE ∧
    look G (step p d) = Some y ∧ type y = WALL.

(** The geometry [GrabMovable] relies on: a rectangular table whose blocks
    lie off the border, with coordinates that fit a [Point]. *)
Definition inside (h w : Z) (G : Grid) : Prop :=
  rect h w G ∧ h ≤ 257 ∧ w ≤ 257 ∧
  ∀ p, movable G p → 1 ≤ p.1 ≤ h - 2 ∧ 1 ≤ p.2 ≤ w - 2.

(** The grid with the cells at [ps] cleared, in that order, and the
    records [GrabMovable] makes of them. *)
Definition clears (G : Grid) (ps : list pos) : Grid :=
  foldl (λ g p, set_cell g p.1 p.2 Cell0) G ps.

Definition get (G : Grid) (p : pos) : Cell := default Cell0 (look G p).

Definition snap (G : Grid) (ps : list pos) : list (Point * Cell) :=
  (λ p, (Narrow p.1 p.2, get G p)) <$> ps.

Lemma look_set_cell G p x q :
  is_Some (look G p) →
  look (set_cell G p.1 p.2 x) q = if decide (q = p) then Some x else look G q.
Proof.
  intros Hp. unfold look. rewrite cell_set_cell by done.
  destruct p as [r c], q as [r' c']; simpl.
  destruct (decide (r' = r ∧ c' = c)) as [[-> ->]|Hne].
  - by rewrite decide_True.
  - rewrite decide_False; [done|]. intros ?; simplify_eq. naive_solver.
Qed.

Lemma look_clears G ps q :
  (∀ p, p ∈ ps → is_Some (look G p)) →
  look (clears G ps) q = if decide (q ∈ ps) then Some Cell0 else look G q.
Proof.
  revert G. induction ps as [|p ps IH]; intros G Hps.
  - rewrite decide_False by set_solver. done.
  - assert (is_Some (look G p)) as Hp by (apply Hps; set_solver).
    change (clears G (p :: ps)) with (clears (set_cell G p.1 p.2 Cell0) ps).
    rewrite IH.
    + rewrite look_set_cell by done.
      destruct (decide (q ∈ ps)) as [Hin|Hnin].
      * rewrite decide_True by (by right). done.
      * destruct (decide (q = p)) as [->|Hne].
        -- rewrite decide_True by (by left). done.
        -- rewrite decide_False; [done|].
           intros [?|?]%elem_of_cons; done.
    + intros p' Hp'. rewrite look_set_cell by done.
      destruct (decide (p' = p)); [eauto|]. apply Hps. by right.
Qed.

Lemma rect_clears h w G ps : rect h w G → rect h w (clears G ps).
Proof.
  revert G. induction ps as [|p ps IH]; intros G HG; simpl; [done|].
  apply IH. by apply rect_set_cell.
Qed.

Lemma clears_app G ps qs : clears G (ps ++ qs) = clears (clears G ps) qs.
Proof. unfold clears. by rewrite foldl_app. Qed.

Lemma movable_is_Some G p : movable G p → is_Some (look G p).
Proof. intros (x & -> & _). eauto. Qed.

Lemma look_clears_movable G ps q x :
  (∀ p, p ∈ ps → movable G p) →
  look (clears G ps) q = Some x → type x ≠ OPEN →
  (q ∉ ps) ∧ look G q = Some x.
Proof.
  intros Hps Hq Hx.
  rewrite look_clears in Hq by (intros; by apply movable_is_Some, Hps).
  destruct (decide (q ∈ ps)); [|done]. by simplify_eq.
Qed.

Lemma count_movable_clears G ps :
  NoDup ps → (∀ p, p ∈ ps → movable G p) →
  (count_cells (is_type MOVABLE) (clears G ps) + length ps
   = count_cells (is_type MOVABLE) G)%nat.
Proof.
  revert G. induction ps as [|p ps IH]; intros G Hnd Hps; simpl; [lia|].
  apply NoDup_cons in Hnd as [Hp Hnd].
  destruct (Hps p) as (x & Hx & Hxt); [set_solver|].
  pose proof (count_cells_set_cell (is_type MOVABLE) G p.1 p.2 Cell0 x Hx) as Hc.
  assert (is_type MOVABLE x = true) as Hx1 by (by apply bool_decide_eq_true).
  rewrite Hx1 in Hc. simpl in Hc.
  enough ((count_cells (is_type MOVABLE) (clears (set_cell G p.1 p.2 Cell0) ps)
           + length ps
           = count_cells (is_type MOVABLE) (set_cell G p.1 p.2 Cell0))%nat)
    by lia.
  apply IH; [done|].
  intros q Hq. destruct (Hps q) as (y & Hy & Hyt); [set_solver|].
  exists y. split; [|done]. rewrite look_set_cell by eauto.
  rewrite decide_False; [done|]. intros ->. done.
Qed.

(** ** [GrabMovable] is a depth-first traversal of the grab relation *)

Lemma dirs_unit δ : δ ∈ dirs → -1 ≤ δ.1 ≤ 1 ∧ -1 ≤ δ.2 ≤ 1.
Proof.
  unfold dirs, DR, DC. simpl. rewrite !elem_of_cons, elem_of_nil.
  intros [->|[->|[->|[->|[]]]]]; simpl; lia.
Qed.

Lemma step_eq_dir (δ d : pos) :
  bool_decide (δ.1 = d.1 ∧ δ.2 = d.2) = bool_decide (δ = d).
Proof.
  apply bool_decide_ext. destruct δ, d; simpl.
  split; [intros [-> ->]; done | intros ?; by simplify_eq].
Qed.

Section grab.
Context (h w : Z) (d : pos).

Definition grab_base (G : Grid) (s : pos) (ps : list pos) : Prop :=
NoDup ps ∧ (∀ p, p ∈ ps → movable G p) ∧ s ∈ ps ∧
(∀ p, p ∈ ps → rtc (edge d G) s p).

(** What a call of [GrabMovable] at [s] that returns [b] has grabbed. *)
Definition grabbed (G : Grid) (s : pos) (ps : list pos) (b : bool) : Prop :=
grab_base G s ps ∧
if b then ∀ p, p ∈ ps → ¬ blocked d G p ∧ ∀ q, edge d G p q → q ∈ ps
else ∃ p, p ∈ ps ∧ blocked d G p.

(** The invariant of the direction loop at [s], after the directions
[ds]. *)
Definition grab_inv (G : Grid) (s : pos) (ds : list pos) (N : list pos)
: Prop :=
grab_base G s N ∧
(∀ p, p ∈ N → p ≠ s → ¬ blocked d G p ∧ ∀ q, edge d G p q → q ∈ N) ∧
(∀ δ, δ ∈ ds →
 (δ = d → ¬ blocked d G s) ∧
 (∀ y, look G (step s δ) = Some y → type y = MOVABLE →
δ = d ∨ group y = group (get G s) → step s δ ∈ N)).

Definition grab_ok (fuel : nat) : Prop :=
∀ G P s, inside h w G → movable G s →
(count_cells (is_type MOVABLE) G < fuel)%nat →
∃ b ps, GrabMovable fuel d.1 d.2 s.1 s.2 (G, P)
= Ok (b, (clears G ps, P ++ snap G ps)) ∧ grabbed G s ps b.

(** The grid in the middle of a grab, against the grid it started
from. *)
Section cleared.
Context (G : Grid) (N : list pos) (HN : ∀ p, p ∈ N → movable G p).

Lemma look_cleared_out p : p ∉ N → look (clears G N) p = look G p.
Proof.
  intros Hp. rewrite look_clears by (intros; by apply movable_is_Some, HN).
  by rewrite decide_False.
Qed.

Lemma look_cleared_in p : p ∈ N → look (clears G N) p = Some Cell0.
Proof.
  intros Hp. rewrite look_clears by (intros; by apply movable_is_Some, HN).
  by rewrite decide_True.
Qed.

Lemma look_cleared_solid p x :
  look (clears G N) p = Some x → type x ≠ OPEN → (p ∉ N) ∧ look G p = Some x.
Proof.
  intros Hp Hx. destruct (decide (p ∈ N)) as [Hin|Hout].
  - rewrite look_cleared_in in Hp by done. by simplify_eq.
  - by rewrite look_cleared_out in Hp.
Qed.

Lemma movable_cleared p : movable (clears G N) p → movable G p ∧ (p ∉ N).
Proof.
  intros (x & Hx & Ht). apply look_cleared_solid in Hx as [? ?].
  - split; [by exists x | done].
  - by rewrite Ht.
Qed.

Lemma wall_not_grabbed p y : look G p = Some y → type y = WALL → p ∉ N.
Proof.
  intros Hy Ht Hin. destruct (HN p Hin) as (x & Hx & Hxt). congruence.
Qed.

Lemma edge_cleared p q : edge d (clears G N) p q → edge d G p q.
Proof.
  intros (δ & x & y & Hδ & -> & Hx & Hxt & Hy & Hyt & Hc).
  apply look_cleared_solid in Hx as [_ Hx]; [|by rewrite Hxt].
  apply look_cleared_solid in Hy as [_ Hy]; [|by rewrite Hyt].
  exists δ, x, y. done.
Qed.

Lemma rtc_edge_cleared p q :
  rtc (edge d (clears G N)) p q → rtc (edge d G) p q.
Proof. apply rtc_subrel. intros ??. apply edge_cleared. Qed.

Lemma edge_uncleared p q :
  edge d G p q → p ∉ N → q ∈ N ∨ edge d (clears G N) p q.
Proof.
  intros (δ & x & y & Hδ & -> & Hx & Hxt & Hy & Hyt & Hc) Hp.
  destruct (decide (step p δ ∈ N)) as [Hin|Hout]; [by left|right].
  exists δ, x, y. rewrite !look_cleared_out by done. done.
Qed.

Lemma blocked_cleared p : blocked d (clears G N) p → blocked d G p.
Proof.
  intros (x & y & Hx & Hxt & Hy & Hyt).
  apply look_cleared_solid in Hx as [_ Hx]; [|by rewrite Hxt].
  apply look_cleared_solid in Hy as [_ Hy]; [|by rewrite Hyt].
  by exists x, y.
Qed.

Lemma blocked_uncleared p :
  blocked d G p → p ∉ N → blocked d (clears G N) p.
Proof.
  intros (x & y & Hx & Hxt & Hy & Hyt) Hp. exists x, y.
  rewrite !look_cleared_out; eauto using wall_not_grabbed.
Qed.

Lemma inside_cleared : inside h w G → inside h w (clears G N).
Proof.
  intros (Hrect & Hh & Hw & Hin). split_and!; try done.
  - by apply rect_clears.
  - intros p [Hp _]%movable_cleared. by apply Hin.
Qed.

Lemma snap_cleared ps :
  (∀ p, p ∈ ps → p ∉ N) → snap (clears G N) ps = snap G ps.
Proof.
  intros Hps. unfold snap. apply Forall_fmap_ext_1.
  apply Forall_forall. intros p Hp. f_equal. unfold get.
  by rewrite look_cleared_out by auto.
Qed.
End cleared.

Lemma grab_base_merge G s N q ps :
grab_base G s N → grab_base (clears G N) q ps → edge d G s q →
grab_base G s (N ++ ps).
Proof.
intros (Hnd & Hmov & Hs & Hreach) (Hnd' & Hmov' & Hq & Hreach') Hsq.
split_and!.
- apply NoDup_app. split_and!; [done | | done].
intros p Hp Hp'. by destruct (movable_cleared G N Hmov p (Hmov' p Hp')).
- intros p [Hp|Hp]%elem_of_app; [by apply Hmov|].
by destruct (movable_cleared G N Hmov p (Hmov' p Hp)).
- apply elem_of_app. by left.
- intros p [Hp|Hp]%elem_of_app; [by apply Hreach|].
eapply rtc_l; [done|]. eapply rtc_edge_cleared; [done|]. by apply Hreach'.
Qed.

(** A recursive call from the direction loop. *)
Lemma grab_dir_rec fuel G P s ds N δ n :
grab_ok fuel → inside h w G → grab_inv G s ds N → δ ∈ dirs →
(count_cells (is_type MOVABLE) G < S fuel)%nat →
look (clears G N) (step s δ) = Some n → type n = MOVABLE →
δ = d ∨ group n = group (get G s) →
∃ b N', GrabMovable fuel d.1 d.2 (s.1 + δ.1) (s.2 + δ.2)
(clears G N, P ++ snap G N)
= Ok (b, (clears G N', P ++ snap G N')) ∧
if b then grab_inv G s (ds ++ [δ]) N' else grabbed G s N' false.
Proof.
intros IH Hin (Hbase & Hclosed & Hdone) Hδ Hfuel Hn Hnt Hcond.
pose proof Hbase as (Hnd & Hmov & Hs & Hreach).
destruct (look_cleared_solid G N Hmov _ _ Hn) as [HqN Hq]; [by rewrite Hnt|].
destruct (Hmov s Hs) as (x & Hx & Hxt).
assert (edge d G s (step s δ)) as Hedge.
{ exists δ, x, n. split_and!; try done. unfold get in Hcond.
by rewrite Hx in Hcond. }
destruct (IH (clears G N) (P ++ snap G N) (step s δ))
as (b & ps & Hrun & Hgrab & Hres).
{ by apply inside_cleared. }
{ by exists n. }
{ pose proof (count_movable_clears G N Hnd Hmov).
assert (0 < length N)%nat; [|lia].
destruct N; [by apply elem_of_nil in Hs | simpl; lia]. }
pose proof (grab_base_merge G s N _ ps Hbase Hgrab Hedge) as Hbase'.
pose proof Hgrab as (_ & Hmov' & Hq' & _).
exists b, (N ++ ps). split.
{ simpl in Hrun. rewrite Hrun. rewrite <- clears_app, <- app_assoc.
rewrite (snap_cleared G N Hmov ps).
- unfold snap. by rewrite fmap_app.
- intros p Hp. by destruct (movable_cleared G N Hmov p (Hmov' p Hp)). }
destruct b.
- split_and!; [done | |].
+ intros p [Hp|Hp]%elem_of_app Hps.
* destruct (Hclosed p Hp Hps) as [Hnb Hcl]. split; [done|].
intros q Hpq. apply elem_of_app. left. by apply Hcl.
* destruct (Hres p Hp) as [Hnb Hcl].
destruct (movable_cleared G N Hmov p (Hmov' p Hp)) as [_ HpN].
split.
-- intros Hb. apply Hnb. by apply blocked_uncleared.
-- intros q Hpq. apply elem_of_app.
 destruct (edge_uncleared G N Hmov p q Hpq HpN); [by left|].
 right. by apply Hcl.
+ intros δ' [Hδ'| ->%list_elem_of_singleton]%elem_of_app.
* destruct (Hdone δ' Hδ') as [Hw Hstep]. split; [done|].
intros y Hy Hyt Hc. apply elem_of_app. left. by eapply Hstep.
* split.
-- intros -> (x' & y & Hx' & _ & Hy & Hyt). congruence.
-- intros y Hy Hyt Hc. apply elem_of_app. by right.
- split; [done|]. destruct Hres as (p & Hp & Hb).
exists p. split; [apply elem_of_app; by right|].
by eapply blocked_cleared.
Qed.

Lemma grab_dir_spec fuel G P s ds N δ :
grab_ok fuel → inside h w G → grab_inv G s ds N → δ ∈ dirs →
(count_cells (is_type MOVABLE) G < S fuel)%nat →
∃ fl, grab_dir (GrabMovable fuel d.1 d.2) s.1 s.2 d.1 d.2
(group (get G s)) δ (clears G N, P ++ snap G N) = Ok fl ∧
match fl with
| Continue st =>
∃ N', st = (clears G N', P ++ snap G N') ∧
grab_inv G s (ds ++ [δ]) N'
| Return st =>
∃ N', st = (clears G N', P ++ snap G N') ∧ grabbed G s N' false
end.
Proof.
intros IH Hin Hinv Hδ Hfuel.
pose proof Hinv as (Hbase & Hclosed & Hdone).
pose proof Hbase as (Hnd & Hmov & Hs & Hreach).
pose proof Hin as (Hrect & Hh & Hw & Hint).
destruct (Hmov s Hs) as (x & Hx & Hxt).
pose proof (Hint s (Hmov s Hs)) as Hsin.
pose proof (dirs_unit δ Hδ) as Hu.
destruct (proj2 (cell_in_range h w (clears G N) (s.1 + δ.1) (s.2 + δ.2)
 (rect_clears h w G N Hrect))) as [n Hn]; [lia|].
change (look (clears G N) (step s δ) = Some n) in Hn.
assert (at_ (clears G N) (s.1 + δ.1) (s.2 + δ.2) = Ok n) as Hat
by (by apply at_Ok).
unfold grab_dir. cbn [fst snd]. rewrite Hat, bind_Ok, step_eq_dir.
(* no recursive call: the loop continues with the same cells *)
assert (¬ (type n = MOVABLE ∧ (δ = d ∨ group n = group (get G s))) →
(δ = d → type n ≠ WALL) →
grab_inv G s (ds ++ [δ]) N) as Hskip.
{ intros Hno Hnw. split_and!; [done | done |].
intros δ' [Hδ'| ->%list_elem_of_singleton]%elem_of_app; [by apply Hdone|].
split.
- intros -> (x' & y & Hx' & _ & Hy & Hyt).
pose proof (wall_not_grabbed G N Hmov _ _ Hy Hyt) as HyN.
rewrite look_cleared_out in Hn by done. apply Hnw; congruence.
- intros y Hy Hyt Hc.
destruct (decide (step s δ ∈ N)) as [|HyN]; [done|].
rewrite look_cleared_out in Hn by done.
assert (n = y) as -> by congruence. by destruct Hno. }
case_bool_decide as Hdir.
- subst δ. unfold is_type. case_bool_decide as Hwall.
+ (* a wall in the push direction *)
eexists. split; [done|]. exists N. split; [done|]. split; [done|].
exists s. split; [done|].
destruct (look_cleared_solid G N Hmov _ _ Hn) as [_ Hn'];
[by rewrite Hwall|].
by exists x, n.
+ case_bool_decide as Hmv.
* destruct (grab_dir_rec fuel G P s ds N d n IH Hin Hinv Hδ Hfuel Hn
Hmv (or_introl eq_refl)) as (b & N' & Hrun & Hres).
rewrite Hrun, bind_Ok.
destruct b; eexists; (split; [done|]); by exists N'.
* eexists. split; [done|]. exists N. split; [done|].
apply Hskip; [|done]. by intros [? _].
- destruct (is_type MOVABLE n && bool_decide (group n = group (get G s)))
eqn:Hc.
+ apply andb_true_iff in Hc as [Hmv%bool_decide_eq_true Hg%bool_decide_eq_true].
destruct (grab_dir_rec fuel G P s ds N δ n IH Hin Hinv Hδ Hfuel Hn
Hmv (or_intror Hg)) as (b & N' & Hrun & Hres).
rewrite Hrun, bind_Ok.
destruct b; eexists; (split; [done|]); by exists N'.
+ eexists. split; [done|]. exists N. split; [done|].
apply Hskip; [|done]. intros [Hmv [?|Hg]]; [done|].
apply andb_false_iff in Hc as [Hc|Hc].
* unfold is_type in Hc. by apply bool_decide_eq_false in Hc.
* by apply bool_decide_eq_false in Hc.
Qed.

Lemma GrabMovable_spec fuel : d ∈ dirs → grab_ok fuel.
Proof.
intros Hd. induction fuel as [|fuel IH]; intros G P s Hin Hs Hfuel; [lia|].
pose proof Hs as (x & Hx & Hxt).
assert (at_ G s.1 s.2 = Ok x) as Hat by (by apply at_Ok).
cbn [GrabMovable fst snd]. rewrite Hat, bind_Ok.
rewrite assert_true, bind_Ok by (by apply bool_decide_eq_true).
rewrite put_Ok, bind_Ok by (by exists x).
assert (get G s = x) as Hget by (unfold get; by rewrite Hx).
match goal with |- context [for_each ?l ?body ?st0] =>
destruct (for_each_invariant
(λ ds st, ∃ N, st = (clears G N, P ++ snap G N) ∧ grab_inv G s ds N)
(λ st, ∃ N, st = (clears G N, P ++ snap G N) ∧ grabbed G s N false)
l body st0) as (fl & Hrun & Hfl)
end.
- exists [s]. split.
+ simpl. by rewrite Hget.
+ split_and!.
* split_and!.
-- apply NoDup_singleton.
-- by intros p ->%list_elem_of_singleton.
-- by apply list_elem_of_singleton.
-- by intros p ->%list_elem_of_singleton.
* intros p ->%list_elem_of_singleton. done.
* intros δ []%elem_of_nil.
- intros ds δ st [rest Hrest] (N & -> & Hinv).
rewrite <- Hget. eapply grab_dir_spec; eauto.
rewrite Hrest. apply elem_of_app. right. by left.
- destruct fl as [st|st].
+ destruct Hfl as (N & -> & Hbase & Hclosed & Hdone).
exists true, N. split; [by rewrite Hrun|]. split; [done|].
intros p Hp. destruct (decide (p = s)) as [->|Hne]; [|by apply Hclosed].
split.
* by apply (Hdone d Hd).
* intros q (δ & x' & y & Hδ & -> & Hx' & _ & Hy & Hyt & Hc).
destruct (Hdone δ Hδ) as [_ Hstep]. eapply Hstep; eauto.
rewrite Hget. destruct Hc; [by left | right; congruence].
+ destruct Hfl as (N & -> & Hres). exists false, N.
split; [by rewrite Hrun | done].
Qed.
End grab.

(** ** The place step of [TryMove] *)

Definition unstep (q δ : pos) : pos := (q.1 - δ.1, q.2 - δ.2).

Lemma unstep_step p δ : unstep (step p δ) δ = p.
Proof. destruct p, δ. unfold unstep, step. simpl. f_equal; lia. Qed.

Lemma step_unstep q δ : step (unstep q δ) δ = q.
Proof. destruct q, δ. unfold unstep, step. simpl. f_equal; lia. Qed.

Lemma step_inj p q δ : step p δ = step q δ → p = q.
Proof. intros H. by rewrite <- (unstep_step p δ), H, unstep_step. Qed.

Lemma step_zero p : step p (0, 0) = p.
Proof. destruct p. unfold step. simpl. f_equal; lia. Qed.

Lemma unstep_zero p : unstep p (0, 0) = p.
Proof. destruct p. unfold unstep. simpl. f_equal; lia. Qed.

(** The grid [g] after the cells recorded from [G] at [ps] have been
    written back, displaced by [δ]. *)
Definition places (δ : pos) (G g : Grid) (ps : list pos) : Grid :=
  foldl (λ g p, set_cell g (p.1 + δ.1) (p.2 + δ.2) (get G p)) g ps.

Definition shift (δ : pos) (G : Grid) (ps : list pos) : Grid :=
  places δ G (clears G ps) ps.

Lemma look_places δ G g ps q :
  (∀ p, p ∈ ps → is_Some (look g (step p δ))) →
  look (places δ G g ps) q =
    if decide (unstep q δ ∈ ps) then Some (get G (unstep q δ)) else look g q.
Proof.
  revert g q. induction ps as [|p ps IH] using rev_ind; intros g q Hps.
  - rewrite decide_False by apply not_elem_of_nil. done.
  - unfold places. rewrite foldl_app. simpl. fold (places δ G g ps).
    assert (∀ p', p' ∈ ps → is_Some (look g (step p' δ))) as Hps'.
    { intros p' Hp'. apply Hps, elem_of_app. by left. }
    assert (is_Some (look (places δ G g ps) (step p δ))) as Hp.
    { rewrite IH by done. case_decide; [eauto|].
      apply Hps, elem_of_app. right. by left. }
    change (look (set_cell (places δ G g ps) (step p δ).1 (step p δ).2
                    (get G p)) q = 
            if decide (unstep q δ ∈ ps ++ [p])
            then Some (get G (unstep q δ)) else look g q).
    rewrite look_set_cell by done.
    destruct (decide (q = step p δ)) as [->|Hne].
    + rewrite unstep_step. rewrite decide_True; [done|].
      apply elem_of_app. right. by left.
    + rewrite IH by done.
      destruct (decide (unstep q δ ∈ ps)) as [Hin|Hout].
      * rewrite decide_True; [done|]. apply elem_of_app. by left.
      * rewrite decide_False; [done|].
        intros [?|Heq%list_elem_of_singleton]%elem_of_app; [done|].
        by rewrite <- Heq, step_unstep in Hne.
Qed.

Lemma rect_places h w δ G g ps : rect h w g → rect h w (places δ G g ps).
Proof.
  revert g. induction ps as [|p ps IH]; intros g Hg; simpl; [done|].
  apply IH. by apply rect_set_cell.
Qed.

Lemma Narrow_exact (p : pos) :
  0 ≤ p.1 < 256 → 0 ≤ p.2 < 256 → Narrow p.1 p.2 = mkPoint p.1 p.2.
Proof.
  intros ??. unfold Narrow, uint8. by rewrite !Z.mod_small by done.
Qed.

Lemma place_Ok δ g (p : pos) x y :
  0 ≤ p.1 < 256 → 0 ≤ p.2 < 256 →
  look g (step p δ) = Some y → type y = OPEN →
  place δ.1 δ.2 (Narrow p.1 p.2, x) g
  = Ok (set_cell g (p.1 + δ.1) (p.2 + δ.2) x).
Proof.
  intros Hr Hc Hy Hyt. unfold place. cbn [fst snd].
  rewrite Narrow_exact by done. cbn [pt_r pt_c].
  assert (at_ g (p.1 + δ.1) (p.2 + δ.2) = Ok y) as -> by (by apply at_Ok).
  rewrite bind_Ok, assert_true, bind_Ok by (by apply bool_decide_eq_true).
  by rewrite put_Ok by (by exists y).
Qed.

(** The placing loop succeeds, so none of its assertions fails, as long
    as every destination is [OPEN] beforehand. *)
Lemma place_loop δ G g ps :
  NoDup ps →
  (∀ p, p ∈ ps → 0 ≤ p.1 < 256 ∧ 0 ≤ p.2 < 256) →
  (∀ p, p ∈ ps → ∃ y, look g (step p δ) = Some y ∧ type y = OPEN) →
  forM (snap G ps) (place δ.1 δ.2) g = Ok (places δ G g ps).
Proof.
  revert g. induction ps as [|p ps IH]; intros g Hnd Hrange Hopen; [done|].
  apply NoDup_cons in Hnd as [Hp Hnd].
  destruct (Hopen p) as (y & Hy & Hyt); [by left|].
  destruct (Hrange p) as [Hr Hc]; [by left|].
  cbn [snap fmap list_fmap forM].
  rewrite (place_Ok δ g p (get G p) y), bind_Ok by done.
  apply IH; [done | |].
  - intros p' Hp'. apply Hrange. by right.
  - intros p' Hp'. destruct (Hopen p') as (y' & Hy' & Hyt'); [by right|].
    exists y'. split; [|done].
    change (look (set_cell g (step p δ).1 (step p δ).2 (get G p))
              (step p' δ) = Some y').
    rewrite look_set_cell by (by exists y).
    rewrite decide_False; [done|]. intros ->%step_inj. done.
Qed.

Section try_move.
Context (h w : Z) (d : pos) (Hd : d ∈ dirs).

Lemma look_shift G ps q :
inside h w G → (∀ p, p ∈ ps → movable G p) →
look (shift d G ps) q =
if decide (unstep q d ∈ ps) then look G (unstep q d)
else if decide (q ∈ ps) then Some Cell0 else look G q.
Proof.
intros (Hrect & _ & _ & Hint) Hps. unfold shift.
pose proof (dirs_unit d Hd) as Hu.
rewrite look_places.
- destruct (decide (unstep q d ∈ ps)) as [Hin|Hout].
+ destruct (Hps _ Hin) as (x & Hx & _). unfold get. by rewrite Hx.
+ rewrite look_clears; [done|]. intros; by apply movable_is_Some, Hps.
- intros p Hp. apply (cell_in_range h w); [by apply rect_clears|].
specialize (Hint p (Hps p Hp)). unfold step. simpl. lia.
Qed.

(** Writing the records back where they came from restores the grid. *)
Lemma rollback_exact G ps :
inside h w G → (∀ p, p ∈ ps → movable G p) →
places (0, 0) G (clears G ps) ps = G.
Proof.
intros (Hrect & _ & _ & Hint) Hps.
apply (grid_ext h w); [by apply rect_places, rect_clears | done |].
intros r c Hr Hc. change (look (places (0, 0) G (clears G ps) ps) (r, c)
  = look G (r, c)).
rewrite look_places.
- rewrite unstep_zero. destruct (decide ((r, c) ∈ ps)) as [Hin|Hout].
+ destruct (Hps _ Hin) as (x & Hx & _). unfold get. by rewrite Hx.
+ rewrite look_clears by (intros; by apply movable_is_Some, Hps).
by rewrite decide_False.
- intros p Hp. rewrite step_zero.
rewrite look_clears by (intros; by apply movable_is_Some, Hps).
rewrite decide_True by done. eauto.
Qed.

(** [TryMove] either moves the grabbed cells by [d] or leaves the grid as
it was; it never faults on a block of a well-shaped grid. *)
Lemma TryMove_spec G s :
inside h w G → movable G s →
∃ b ps, grabbed d G s ps b ∧
TryMove G s.1 s.2 d.1 d.2 = Ok (b, if b then shift d G ps else G).
Proof.
intros Hin Hs. pose proof Hin as (Hrect & Hh & Hw & Hint).
destruct (GrabMovable_spec h w d (grab_fuel G) Hd G [] s Hin Hs)
as (b & ps & Hrun & Hgrab); [unfold grab_fuel; lia|].
exists b, ps. split; [done|].
pose proof Hgrab as ((Hnd & Hmov & Hsin & Hreach) & Hres).
assert (∀ p, p ∈ ps → 0 ≤ p.1 < 256 ∧ 0 ≤ p.2 < 256) as Hrange.
{ intros p Hp. specialize (Hint p (Hmov p Hp)). lia. }
unfold TryMove. rewrite Hrun, bind_Ok. cbn [app].
destruct b.
- rewrite (place_loop d G (clears G ps) ps Hnd Hrange); [done|].
intros p Hp. destruct (Hres p Hp) as [Hnb Hcl].
destruct (Hmov p Hp) as (x & Hx & Hxt).
rewrite look_clears by (intros; by apply movable_is_Some, Hmov).
destruct (decide (step p d ∈ ps)) as [|Hout]; [by exists Cell0|].
pose proof (dirs_unit d Hd) as Hu. specialize (Hint p (Hmov p Hp)).
destruct (proj2 (cell_in_range h w G (p.1 + d.1) (p.2 + d.2) Hrect))
as [y Hy]; [lia|].
change (look G (step p d) = Some y) in Hy.
exists y. split; [done|]. destruct (type y) eqn:Hyt; [done | |].
+ destruct Hnb. by exists x, y.
+ destruct Hout. apply Hcl. exists d, x, y. split_and!; auto.
- pose proof (place_loop (0, 0) G (clears G ps) ps Hnd Hrange) as Hpl.
cbn [fst snd] in Hpl. rewrite Hpl.
+ by rewrite rollback_exact.
+ intros p Hp. rewrite step_zero.
rewrite look_clears by (intros; by apply movable_is_Some, Hmov).
rewrite decide_True by done. by exists Cell0.
Qed.
End try_move.

(** ** The traversal order of the interior *)

(** Row-major order of positions. *)
Definition before (p q : pos) : Prop := p.1 < q.1 ∨ (p.1 = q.1 ∧ p.2 < q.2).

Lemma seqZ_sorted m n : StronglySorted Z.lt (seqZ m n).
Proof.
  destruct (decide (n ≤ 0)) as [|Hn]; [rewrite seqZ_nil by done; constructor|].
  rewrite <- (Z2Nat.id n) by lia. generalize (Z.to_nat n). clear n Hn.
  intros n. revert m. induction n as [|n IH]; intros m.
  - rewrite seqZ_nil by done. constructor.
  - rewrite seqZ_cons by lia. apply StronglySorted_cons. split.
    + apply Forall_forall. intros k Hk%elem_of_seqZ. lia.
    + replace (Z.pred (Z.of_nat (S n))) with (Z.of_nat n) by lia. apply IH.
Qed.

Lemma elem_of_cells (rs cs : list Z) (p : pos) :
  p ∈ (r ← rs; c ← cs; [(r, c)]) ↔ p.1 ∈ rs ∧ p.2 ∈ cs.
Proof.
  rewrite list_elem_of_bind. split.
  - intros (r & (c & ->%list_elem_of_singleton & Hc)%list_elem_of_bind & Hr).
    done.
  - intros [Hr Hc]. exists p.1. split; [|done].
    apply list_elem_of_bind. exists p.2. split; [|done].
    destruct p. by apply list_elem_of_singleton.
Qed.

Lemma elem_of_interior h w (p : pos) :
  p ∈ interior h w ↔ 1 ≤ p.1 ≤ h - 2 ∧ 1 ≤ p.2 ≤ w - 2.
Proof. unfold interior. rewrite elem_of_cells, !elem_of_seqZ. lia. Qed.

Lemma cells_sorted (rs cs : list Z) :
  StronglySorted Z.lt rs → StronglySorted Z.lt cs →
  StronglySorted before (r ← rs; c ← cs; [(r, c)]).
Proof.
  intros Hrs Hcs. induction Hrs as [|r rs Hrs IH Hr].
  - constructor.
  - rewrite bind_cons. apply StronglySorted_app_2; [| |done].
    + intros p q (c & ->%list_elem_of_singleton & Hc)%list_elem_of_bind
        [Hq _]%elem_of_cells.
      left. simpl. rewrite Forall_forall in Hr. by apply Hr.
    + clear -Hcs. induction Hcs as [|c cs Hcs IH Hc].
      * constructor.
      * rewrite bind_cons. simpl. constructor; [done|].
        apply Forall_forall.
        intros q (c' & ->%list_elem_of_singleton & Hc')%list_elem_of_bind.
        right. simpl. rewrite Forall_forall in Hc. split; [done|by apply Hc].
Qed.

Lemma interior_sorted h w : StronglySorted before (interior h w).
Proof. apply cells_sorted; apply seqZ_sorted. Qed.

Lemma before_irrefl p : ¬ before p p.
Proof. unfold before. lia. Qed.

Lemma before_asym p q : before p q → ¬ before q p.
Proof. unfold before. lia. Qed.

(** Whatever comes before the current cell has been traversed. *)
Lemma interior_before h w done x rest u :
  interior h w = done ++ x :: rest → u ∈ interior h w → before u x →
  u ∈ done.
Proof.
  intros Heq Hu Hux. pose proof (interior_sorted h w) as Hs.
  rewrite Heq in Hu, Hs.
  apply elem_of_app in Hu as [|[->|Hu]%elem_of_cons]; [done | |].
  - by apply before_irrefl in Hux.
  - apply StronglySorted_app_1_r, StronglySorted_cons in Hs as [Hs _].
    rewrite Forall_forall in Hs. apply Hs in Hu. by apply before_asym in Hux.
Qed.

Lemma NoDup_interior h w : NoDup (interior h w).
Proof.
  pose proof (interior_sorted h w) as Hs.
  induction Hs as [|p l Hs IH Hp]; constructor; [|done].
  intros Hin. rewrite Forall_forall in Hp.
  by apply Hp, before_irrefl in Hin.
Qed.

(** ** Well-shaped levels *)

(** The border ring of a level is wall. *)
Definition border_wall (h w : Z) (G : Grid) : Prop :=
  ∀ r c x, cell G r c = Some x →
    r = 0 ∨ r = h - 1 ∨ c = 0 ∨ c = w - 1 → type x = WALL.

(** A grid state: a rectangular table of the level's dimensions, walled
    in, whose coordinates fit the [uint8_t] fields of [Point]. *)
Definition walled (h w : Z) (G : Grid) : Prop :=
  rect h w G ∧ h ≤ 257 ∧ w ≤ 257 ∧ border_wall h w G.

Definition shaped (lv : Level) : Prop :=
  walled (height lv) (width lv) (grid lv).

Lemma border_inside h w G :
  rect h w G → h ≤ 257 → w ≤ 257 → border_wall h w G → inside h w G.
Proof.
  intros Hrect Hh Hw Hb. split_and!; try done.
  intros [r c] (x & Hx & Hxt). simpl.
  assert (is_Some (cell G r c)) as Hr by (by exists x).
  apply (cell_in_range h w) in Hr; [|done].
  destruct (decide (r = 0 ∨ r = h - 1 ∨ c = 0 ∨ c = w - 1)) as [Hbd|Hn]; [|lia].
  specialize (Hb r c x Hx Hbd). congruence.
Qed.

Lemma walled_inside h w G : walled h w G → inside h w G.
Proof. intros (? & ? & ? & ?). by apply border_inside. Qed.

Lemma shaped_inside lv : shaped lv → inside (height lv) (width lv) (grid lv).
Proof. apply walled_inside. Qed.

Lemma with_grid_same lv : with_grid lv (grid lv) = lv.
Proof. by destruct lv. Qed.

(** [TryMove] returns only when started on a block. *)
Lemma GrabMovable_Ok_movable fuel dr dc r c st res :
  GrabMovable fuel dr dc r c st = Ok res → movable st.1 (r, c).
Proof.
  destruct fuel as [|fuel]; [done|]. cbn [GrabMovable].
  intros H. inv_bind H. apply at_Ok in Hstep. inv_bind H.
  apply assert_Ok_inv, bool_decide_eq_true in Hstep0. by exists a.
Qed.

Lemma TryMove_Ok_movable G r c dr dc res :
  TryMove G r c dr dc = Ok res → movable G (r, c).
Proof.
  unfold TryMove. intros H. inv_bind H.
  by apply GrabMovable_Ok_movable in Hstep.
Qed.

(** ** Loops that stop at the first match *)

Lemma for_each_skip {R S A : Type} (done : list A) (x : A) (rest : list A)
    (body : A → S → result (flow R S)) (s : S) :
  (∀ y, y ∈ done → body y s = Ok (Continue s)) →
  for_each (done ++ x :: rest) body s = for_each (x :: rest) body s.
Proof.
  induction done as [|y done IH]; intros Hskip; [done|].
  simpl. rewrite Hskip by (by left). simpl. apply IH.
  intros y' Hy'. apply Hskip. by right.
Qed.

Lemma for_each_skip_all {R S A : Type} (l : list A)
    (body : A → S → result (flow R S)) (s : S) :
  (∀ y, y ∈ l → body y s = Ok (Continue s)) →
  for_each l body s = Ok (Continue s).
Proof.
  induction l as [|y l IH]; intros Hskip; [done|].
  simpl. rewrite Hskip by (by left). simpl. apply IH.
  intros y' Hy'. apply Hskip. by right.
Qed.

Lemma for_each_Return_inv {R S A : Type} (l : list A)
    (body : A → S → result (flow R S)) (s : S) (r : R) :
  (∀ y s', body y s = Ok (Continue s') → s' = s) →
  for_each l body s = Ok (Return r) →
  ∃ done x rest, l = done ++ x :: rest ∧
    (∀ y, y ∈ done → body y s = Ok (Continue s)) ∧
    body x s = Ok (Return r).
Proof.
  intros Hsame. induction l as [|y l IH]; intros Hrun; [done|].
  simpl in Hrun. inv_bind Hrun. destruct a as [s'|r'].
  - apply Hsame in Hstep as Hs. subst s'.
    destruct (IH Hrun) as (done & x & rest & -> & Hskip & Hx).
    exists (y :: done), x, rest. split_and!; [done | | done].
    intros y' [->|?]%elem_of_cons; auto.
  - simplify_eq. exists [], y, l. split_and!; [done | | done].
    intros y' []%elem_of_nil.
Qed.

(** ** [MoveGroup] moves the first cell of the group it finds *)

Definition group_at (G : Grid) (g : Z) (p : pos) : Prop :=
  ∃ x, look G p = Some x ∧ group x = g.

(** [s] is the cell at which the loop of [MoveGroup] stops. *)
Definition first_of (h w : Z) (G : Grid) (g : Z) (s : pos) : Prop :=
  ∃ done rest, interior h w = done ++ s :: rest ∧ group_at G g s ∧
    ∀ p, p ∈ done → ¬ group_at G g p.

(** The body of the loop of [MoveGroup]. *)
Definition move_at (dr dc : Z) (s : pos) (lv : Level) : result (bool * Level) :=
  '(b, gr) ← TryMove (grid lv) s.1 s.2 dr dc;
  if b : bool then
    gr ← DropDown (height lv) (width lv) gr;
    lv' ← UpdateConnections (with_grid lv gr);
    Ok (true, lv')
  else Ok (false, with_grid lv gr).

Lemma valid_dir_dirs dr dc : valid_dir dr dc = true ↔ (dr, dc) ∈ dirs.
Proof.
  unfold valid_dir, dirs, DR, DC. simpl.
  rewrite !elem_of_cons, elem_of_nil.
  rewrite orb_true_iff, !andb_true_iff, !orb_true_iff, !bool_decide_eq_true.
  split.
  - intros [[-> [->| ->]]|[-> [->| ->]]]; auto.
  - intros [?|[?|[?|[?|[]]]]]; simplify_eq; auto.
Qed.

Section move_group.
Context (lv : Level) (g dr dc : Z).
Context (Hrect : rect (height lv) (width lv) (grid lv)).

Let body : pos → Level → result (flow (bool * Level) Level) :=
λ '(r, c) (lv : Level),
x ← at_ (grid lv) r c;
if bool_decide (group x = g) then
'(b, gr) ← TryMove (grid lv) r c dr dc;
if b : bool then
gr ← DropDown (height lv) (width lv) gr;
lv' ← UpdateConnections (with_grid lv gr);
Ok (Return (true, lv'))
else Ok (Return (false, with_grid lv gr))
else Ok (Continue lv).

Lemma move_body_skip p :
p ∈ interior (height lv) (width lv) → ¬ group_at (grid lv) g p →
body p lv = Ok (Continue lv).
Proof.
intros Hp%elem_of_interior Hg. destruct p as [r c]. simpl in *.
destruct (proj2 (cell_in_range _ _ (grid lv) r c Hrect)) as [x Hx]; [lia|].
assert (at_ (grid lv) r c = Ok x) as -> by (by apply at_Ok).
rewrite bind_Ok. rewrite bool_decide_eq_false_2; [done|].
intros Hgx. apply Hg. by exists x.
Qed.

Lemma move_body_stop p :
group_at (grid lv) g p →
body p lv =
(res ← move_at dr dc p lv; Ok (Return res)).
Proof.
intros (x & Hx & Hg). destruct p as [r c]. simpl in *.
assert (at_ (grid lv) r c = Ok x) as -> by (by apply at_Ok).
rewrite bind_Ok. rewrite bool_decide_eq_true_2 by done.
unfold move_at. simpl.
destruct (TryMove (grid lv) r c dr dc) as [[[] gr]|]; simpl; [|done..].
destruct (DropDown _ _ gr); simpl; [|done].
by destruct (UpdateConnections _).
Qed.

Lemma MoveGroup_first s :
valid_dir dr dc = true → 0 < g ≤ groups lv →
first_of (height lv) (width lv) (grid lv) g s →
MoveGroup lv g dr dc = move_at dr dc s lv.
Proof.
intros Hd Hg (done & rest & Hint & Hs & Hdone).
unfold MoveGroup. rewrite Hd. simpl.
rewrite assert_true, bind_Ok
by (apply andb_true_iff; split; apply bool_decide_eq_true; lia).
fold body. rewrite Hint, for_each_skip.
- simpl. rewrite move_body_stop by done.
destruct (move_at dr dc s lv); done.
- intros p Hp. apply move_body_skip; [|by apply Hdone].
rewrite Hint. apply elem_of_app. by left.
Qed.

Lemma MoveGroup_Ok_inv res :
MoveGroup lv g dr dc = Ok res →
valid_dir dr dc = true ∧ 0 < g ≤ groups lv ∧
∃ s, first_of (height lv) (width lv) (grid lv) g s ∧
 move_at dr dc s lv = Ok res.
Proof.
unfold MoveGroup. intros H. inv_step H as [] Hd.
apply assert_Ok_inv in Hd. inv_step H as [] Hg.
apply assert_Ok_inv, andb_true_iff in Hg as
[?%bool_decide_eq_true ?%bool_decide_eq_true].
inv_step H as fl Hloop. fold body in Hloop. destruct fl as [?|res']; [done|].
simplify_eq. split_and!; try done.
apply for_each_Return_inv in Hloop
as (done & s & rest & Hint & Hdone & Hs).
- assert (group_at (grid lv) g s) as Hgs.
{ destruct s as [r c]. simpl in Hs. inv_step Hs as x Hx.
apply at_Ok in Hx. case_bool_decide; [|done]. by exists x. }
exists s. split.
+ exists done, rest. split_and!; [done..|].
intros p Hp (x & Hx & Hgx). specialize (Hdone p Hp).
destruct p as [r c]. simpl in Hdone.
assert (at_ (grid lv) r c = Ok x) as Hat by (by apply at_Ok).
rewrite Hat, bind_Ok, bool_decide_eq_true_2 in Hdone by done.
destruct (TryMove (grid lv) r c dr dc) as [[[] gr]|]; simpl in Hdone;
[|done..].
destruct (DropDown _ _ gr); simpl in Hdone; [|done].
by destruct (UpdateConnections _).
+ rewrite move_body_stop in Hs by done.
destruct (move_at dr dc s lv); by simplify_eq/=.
- intros [r c] s'. simpl. intros Hb. inv_step Hb as x Hx.
case_bool_decide; [|by simplify_eq].
destruct (TryMove (grid lv) r c dr dc) as [[[] gr]|]; simpl in Hb;
[|done..].
destruct (DropDown _ _ gr); simpl in Hb; [|done].
by destruct (UpdateConnections _).
Qed.
End move_group.

(** ** Blocks that cannot move *)

(** [stuck d G p]: grabbing [p] reaches a block with a wall in the push
    direction. *)
Definition stuck (d : pos) (G : Grid) (p : pos) : Prop :=
  ∃ q, rtc (edge d G) p q ∧ blocked d G q.

Section stuck.
Context (h w : Z) (d : pos) (Hd : d ∈ dirs).
Context (G : Grid) (s : pos) (ps : list pos).
Context (HG : walled h w G) (Hgrab : grabbed d G s ps true).

Lemma grabbed_closed p q : p ∈ ps → rtc (edge d G) p q → q ∈ ps.
Proof.
intros Hp Hpq. induction Hpq as [|p p' q Hedge _ IH]; [done|].
apply IH. destruct Hgrab as [_ Hcl]. by apply (Hcl p).
Qed.

Lemma grabbed_not_stuck p : p ∈ ps → ¬ stuck d G p.
Proof.
intros Hp (q & Hpq & Hq). destruct Hgrab as [_ Hcl].
by apply (Hcl q (grabbed_closed p q Hp Hpq)).
Qed.

Lemma stuck_movable p : stuck d G p → movable G p.
Proof.
intros (q & Hpq & Hq). destruct Hpq as [|? ? ? Hedge _].
- destruct Hq as (cx & cy & Hx & Hxt & _). by exists cx.
- destruct Hedge as (δ & cx & cy & _ & _ & Hx & Hxt & _). by exists cx.
Qed.

Lemma grabbed_movable p : p ∈ ps → movable G p.
Proof. destruct Hgrab as [(_ & Hmov & _) _]. apply Hmov. Qed.

Lemma stuck_stays p :
stuck d G p → look (shift d G ps) p = look G p.
Proof.
intros Hp. rewrite (look_shift h w) by
(eauto using walled_inside, grabbed_movable).
destruct (decide (unstep p d ∈ ps)) as [Hin|_].
- destruct (grabbed_not_stuck p); [|done].
destruct Hgrab as [_ Hcl]. apply (Hcl (unstep p d) Hin).
destruct (grabbed_movable _ Hin) as (x & Hx & Hxt).
destruct (stuck_movable p Hp) as (y & Hy & Hyt).
exists d, x, y. rewrite step_unstep. split_and!; auto.
- rewrite decide_False; [done|]. intros Hin. by apply (grabbed_not_stuck p).
Qed.

Lemma wall_stays p y :
look G p = Some y → type y = WALL → look (shift d G ps) p = Some y.
Proof.
intros Hy Hyt. rewrite (look_shift h w) by
(eauto using walled_inside, grabbed_movable).
destruct (decide (unstep p d ∈ ps)) as [Hin|_].
- destruct Hgrab as [_ Hcl]. destruct (Hcl _ Hin) as [Hnb _].
destruct Hnb. destruct (grabbed_movable _ Hin) as (x & Hx & Hxt).
exists x, y. by rewrite step_unstep.
- rewrite decide_False; [done|]. intros (x & Hx & Hxt)%grabbed_movable.
congruence.
Qed.

Lemma stuck_shift p : stuck d G p → stuck d (shift d G ps) p.
Proof.
intros (q & Hpq & Hq).
induction Hpq as [q|p p' q Hedge Hrest IH].
- exists q. split; [done|]. destruct Hq as (x & y & Hx & Hxt & Hy & Hyt).
exists x, y. split_and!; [|done| |done].
+ rewrite stuck_stays; [done|]. exists q. split; [done|]. by exists x, y.
+ by apply wall_stays.
- destruct (IH Hq) as (q' & Hpq' & Hq'). exists q'. split; [|done].
eapply rtc_l; [|done].
destruct Hedge as (δ & x & y & Hδ & -> & Hx & Hxt & Hy & Hyt & Hc).
exists δ, x, y. split_and!; try done.
+ rewrite stuck_stays; [done|]. exists q. split; [|done].
eapply rtc_l; [|done]. by exists δ, x, y.
+ rewrite stuck_stays; [done|]. by exists q.
Qed.

Lemma walled_shift : walled h w (shift d G ps).
Proof.
pose proof HG as (Hrect & Hh & Hw & Hb). split_and!; try done.
- by apply rect_places, rect_clears.
- intros r c x Hx Hbd.
assert (is_Some (cell G r c)) as [y Hy].
{ apply (cell_in_range h w); [done|].
apply (cell_in_range h w (shift d G ps));
[by apply rect_places, rect_clears | by exists x]. }
pose proof (Hb r c y Hy Hbd) as Hyt.
change (look (shift d G ps) (r, c) = Some x) in Hx.
rewrite (wall_stays (r, c) y) in Hx by done. by simplify_eq.
Qed.
End stuck.

Lemma stuck_grab_fails h w d G s :
  d ∈ dirs → walled h w G → movable G s → stuck d G s →
  TryMove G s.1 s.2 d.1 d.2 = Ok (false, G).
Proof.
  intros Hd HG Hs Hst.
  destruct (TryMove_spec h w d Hd G s (walled_inside _ _ _ HG) Hs)
    as (b & ps & Hgrab & Hrun).
  destruct b; [|done].
  destruct (grabbed_not_stuck d G s ps Hgrab s); [|done].
  by destruct Hgrab as [(_ & _ & ? & _) _].
Qed.

(** ** Gravity *)

Definition down : pos := (1, 0).

Lemma down_dirs : down ∈ dirs.
Proof. unfold down, dirs, DR, DC. simpl. set_solver. Qed.

(** After the sweep of [DropDown] every block is stuck. *)
Definition settled (G : Grid) : Prop := ∀ p, movable G p → stuck down G p.

Lemma DropDown_settles h w G :
  walled h w G → ∃ G', DropDown h w G = Ok G' ∧ walled h w G' ∧ settled G'.
Proof.
  intros HG. unfold DropDown.
  destruct (forM_invariant
    (λ done g, walled h w g ∧ ∀ p, p ∈ done → movable g p → stuck down g p)
    (interior h w)
    (λ '(r, c) g,
       x ← at_ g r c;
       if is_type MOVABLE x then '(_, g') ← TryMove g r c 1 0; Ok g'
       else Ok g) G) as (G' & Hrun & HG' & Hst).
  - split; [done|]. intros p []%elem_of_nil.
  - intros done s g [rest Hint] [Hg Hdone].
    assert (s ∈ interior h w) as Hs
      by (rewrite Hint; apply elem_of_app; right; by left).
    apply elem_of_interior in Hs. destruct s as [r c]. simpl in Hs.
    pose proof Hg as (Hrect & _).
    destruct (proj2 (cell_in_range h w g r c Hrect)) as [x Hx]; [lia|].
    assert (at_ g r c = Ok x) as -> by (by apply at_Ok). rewrite bind_Ok.
    unfold is_type. case_bool_decide as Hxt.
    + assert (movable g (r, c)) as Hmov by (by exists x).
      destruct (TryMove_spec h w down down_dirs g (r, c)
                  (walled_inside _ _ _ Hg) Hmov) as (b & ps & Hgrab & Hrun).
      simpl in Hrun. rewrite Hrun, bind_Ok.
      destruct b; (eexists; split; [done|]).
      * split; [by apply (walled_shift h w down down_dirs g (r, c))|].
        pose proof Hgrab as [(_ & Hmv & Hsin & _) _].
        intros u Hu (y & Hy & Hyt).
        rewrite (look_shift h w down down_dirs)
          in Hy by eauto using walled_inside.
        destruct (decide (unstep u down ∈ ps)) as [Hin|Hout].
        { (* a block fell onto [u]: it came from an earlier cell *)
          destruct (grabbed_not_stuck down g (r, c) ps Hgrab _ Hin).
          pose proof (Hmv _ Hin) as Hu'. apply Hdone; [|done].
          pose proof (walled_inside _ _ _ Hg) as (_ & _ & _ & Hins).
          assert (unstep u down ∈ interior h w) as Hi
            by (by apply elem_of_interior, Hins).
          assert (before (unstep u down) u) as Hbef
            by (destruct u; unfold before, unstep, down; simpl; lia).
          apply elem_of_app in Hu as [Hu| ->%list_elem_of_singleton].
          - apply list_elem_of_split in Hu as (A & B & ->).
            rewrite <- app_assoc in Hint. simpl in Hint.
            apply elem_of_app. left. by eapply interior_before.
          - by eapply interior_before. }
        destruct (decide (u ∈ ps)) as [Hin'|Hout']; [by simplify_eq|].
        apply elem_of_app in Hu as [Hu| ->%list_elem_of_singleton]; [|done].
        eapply stuck_shift; eauto using down_dirs. apply Hdone; [done|].
        by exists y.
      * split; [done|]. intros u Hu Hmu.
        apply elem_of_app in Hu as [Hu| ->%list_elem_of_singleton];
          [by apply Hdone|].
        destruct Hgrab as [(_ & _ & _ & Hreach) (q & Hq & Hbl)].
        exists q. split; [by apply Hreach | done].
    + eexists. split; [done|]. split; [done|]. intros u Hu Hmu.
      apply elem_of_app in Hu as [Hu| ->%list_elem_of_singleton];
        [by apply Hdone|].
      destruct Hmu as (y & Hy & Hyt). unfold look in Hy. simpl in Hy.
      congruence.
  - exists G'. split_and!; [done..|]. intros p Hp. apply Hst; [|done].
    apply elem_of_interior.
    by destruct (walled_inside _ _ _ HG') as (_ & _ & _ & Hins); apply Hins.
Qed.

Lemma DropDown_settled h w G :
  walled h w G → settled G → DropDown h w G = Ok G.
Proof.
  intros HG Hst. unfold DropDown.
  destruct (forM_invariant (λ _ g, g = G) (interior h w)
    (λ '(r, c) g,
       x ← at_ g r c;
       if is_type MOVABLE x then '(_, g') ← TryMove g r c 1 0; Ok g'
       else Ok g) G) as (G' & Hrun & ->); [done | | done].
  intros done s g [rest Hint] ->.
  assert (s ∈ interior h w) as Hs
    by (rewrite Hint; apply elem_of_app; right; by left).
  apply elem_of_interior in Hs. destruct s as [r c]. simpl in Hs.
  pose proof HG as (Hrect & _).
  destruct (proj2 (cell_in_range h w G r c Hrect)) as [x Hx]; [lia|].
  assert (at_ G r c = Ok x) as -> by (by apply at_Ok). rewrite bind_Ok.
  unfold is_type. case_bool_decide as Hxt; [|by eexists].
  assert (movable G (r, c)) as Hmov by (by exists x).
  pose proof (stuck_grab_fails h w down G (r, c) down_dirs HG Hmov
                (Hst _ Hmov)) as Hrun.
  simpl in Hrun. rewrite Hrun. by eexists.
Qed.

(** ** A checker for well-shaped levels *)

Definition all_cells (h w : Z) : list pos :=
  r ← seqZ 0 h; c ← seqZ 0 w; [(r, c)].

Definition on_border (h w : Z) (p : pos) : bool :=
  bool_decide (p.1 = 0) || bool_decide (p.1 = h - 1)
  || bool_decide (p.2 = 0) || bool_decide (p.2 = w - 1).

Definition rectb {A : Type} (h w : Z) (g : list (list A)) : bool :=
  bool_decide (Z.of_nat (length g) = h)
  && forallb (λ row, bool_decide (Z.of_nat (length row) = w)) g.

Definition shapedb (lv : Level) : bool :=
  rectb (height lv) (width lv) (grid lv)
  && bool_decide (height lv ≤ 257) && bool_decide (width lv ≤ 257)
  && forallb (λ p, negb (on_border (height lv) (width lv) p)
                   || match look (grid lv) p with
                      | Some x => is_type WALL x
                      | None => true
                      end)
       (all_cells (height lv) (width lv)).

Lemma rectb_sound {A : Type} h w (g : list (list A)) :
  rectb h w g = true → rect h w g.
Proof.
  unfold rectb. intros [Hh Hw]%andb_true_iff. split.
  - by apply bool_decide_eq_true in Hh.
  - apply Forall_forall. intros row Hrow%list_elem_of_In.
    rewrite forallb_forall in Hw. by apply Hw, bool_decide_eq_true in Hrow.
Qed.

Lemma shapedb_sound lv : shapedb lv = true → shaped lv.
Proof.
  unfold shapedb. rewrite !andb_true_iff, !bool_decide_eq_true.
  intros [[[Hrect%rectb_sound Hh] Hw] Hb]. split_and!; try done.
  intros r c x Hx Hbd. rewrite forallb_forall in Hb.
  assert (is_Some (cell (grid lv) r c)) as Hin by (by exists x).
  apply (cell_in_range _ _ _ _ _ Hrect) in Hin.
  specialize (Hb (r, c)). unfold look in Hb. simpl in Hb. rewrite Hx in Hb.
  assert (on_border (height lv) (width lv) (r, c) = true) as Hon.
  { unfold on_border. simpl. rewrite !orb_true_iff, !bool_decide_eq_true.
    tauto. }
  rewrite Hon in Hb. simpl in Hb. unfold is_type in Hb.
  rewrite bool_decide_eq_true in Hb. apply Hb.
  apply list_elem_of_In, elem_of_cells. simpl. rewrite !elem_of_seqZ. lia.
Qed.

(** A small level used to exercise the theorems: a block of colour 1 in
    the top-left corner, a block of colour 2 on a ledge. *)
Definition demo_level : Level :=
  Eval vm_compute in
    match new_level ["1 2 "; "  # "; "    "]%string with
    | Ok lv => lv
    | Err _ => mkLevel 0 0 0 []
    end.

Lemma demo_shaped : shaped demo_level.
Proof. apply shapedb_sound. vm_compute. reflexivity. Qed.

(** ** Rollback *)

(** X24. On a well-shaped grid state, that is a walled rectangle of at
    most 257 rows and 257 columns, so that every coordinate fits the
    [uint8_t] fields of [Point]: if [MoveGroup] returns failure, the state
    after the call equals the state before it, the grab is rolled back
    exactly. *)
Theorem MoveGroup_rollback_exact (lv lv' : Level) (g dr dc : Z) :
  shaped lv →
  MoveGroup lv g dr dc = Ok (false, lv') →
  lv' = lv.
Proof.
  intros Hlv Hrun.
  apply MoveGroup_Ok_inv in Hrun as (Hd & Hg & s & Hfirst & Hmove);
    [|by destruct Hlv].
  unfold move_at in Hmove. inv_step Hmove as [b gr] Htry.
  pose proof (TryMove_Ok_movable _ _ _ _ _ _ Htry) as Hs.
  destruct s as [r c].
  destruct (TryMove_spec (height lv) (width lv) (dr, dc)
              (proj1 (valid_dir_dirs dr dc) Hd) (grid lv) (r, c)
              (shaped_inside lv Hlv) Hs) as (b' & ps & Hgrab & Hrun).
  simpl in Htry, Hrun. rewrite Hrun in Htry.
  destruct b'; simplify_eq.
  - inv_step Hmove as gr Hdrop. inv_step Hmove as lv2 Hupd. done.
  - apply with_grid_same.
Qed.

Lemma MoveGroup_rollback_exact_witness :
  shaped demo_level ∧
  MoveGroup demo_level 1 0 (-1) = Ok (false, demo_level) ∧
  demo_level = demo_level.
Proof.
  split; [exact demo_shaped|]. split; [vm_compute; reflexivity|].
  apply (MoveGroup_rollback_exact demo_level demo_level 1 0 (-1)).
  - exact demo_shaped.
  - vm_compute. reflexivity.
Defined.

(** ** The assertion of the place step *)

(** [all_open dr dc points g]: when the records [points] are written one
    after the other, displaced by [(dr, dc)], every destination is [OPEN]
    at the time it is written. *)
Fixpoint all_open (dr dc : Z) (points : list (Point * Cell)) (g : Grid)
  : Prop :=
  match points with
  | [] => True
  | p :: points =>
      (∃ y, cell g (pt_r p.1 + dr) (pt_c p.1 + dc) = Some y ∧ type y = OPEN) ∧
      all_open dr dc points (set_cell g (pt_r p.1 + dr) (pt_c p.1 + dc) p.2)
  end.

Lemma place_loop_all_open dr dc points g g' :
  forM points (place dr dc) g = Ok g' → all_open dr dc points g.
Proof.
  revert g. induction points as [|p points IH]; intros g Hrun; [done|].
  simpl in Hrun. inv_step Hrun as g1 Hplace. unfold place in Hplace.
  inv_step Hplace as y Hy. apply at_Ok in Hy.
  inv_step Hplace as [] Hopen.
  apply assert_Ok_inv, bool_decide_eq_true in Hopen.
  apply put_Ok_inv in Hplace as [_ ->]. split; [by exists y|]. by apply IH.
Qed.

(** X29. On a well-shaped grid, that is a walled rectangle of at most 257
    rows and 257 columns, in the place step of a [TryMove] that starts at a
    block, whether it commits a successful grab or rolls back a failed one,
    every destination cell is [OPEN] when it is written: the loop runs to
    its end without a failing assertion. *)
Theorem TryMove_place_destination_open (h w : Z) (G : Grid) (r c dr dc : Z) :
  walled h w G → movable G (r, c) → valid_dir dr dc = true →
  ∃ res G' points G'',
    GrabMovable (grab_fuel G) dr dc r c (G, []) = Ok (res, (G', points)) ∧
    forM points (place (if res : bool then dr else 0)
                       (if res : bool then dc else 0)) G' = Ok G'' ∧
    all_open (if res : bool then dr else 0) (if res : bool then dc else 0)
      points G'.
Proof.
  intros HG Hs Hd. apply valid_dir_dirs in Hd.
  destruct (TryMove_spec h w (dr, dc) Hd G (r, c) (walled_inside _ _ _ HG) Hs)
    as (b & ps & Hgrab & Hrun).
  unfold TryMove in Hrun. simpl in Hrun.
  inv_step Hrun as [res [G' points]] Hgr. inv_step Hrun as G'' Hpl.
  exists res, G', points, G''. split_and!; [done | done |].
  by eapply place_loop_all_open.
Qed.

Lemma TryMove_place_destination_open_witness :
  ∃ res G' points G'',
    GrabMovable (grab_fuel (grid demo_level)) 0 (-1) 1 1 (grid demo_level, [])
      = Ok (res, (G', points)) ∧
    forM points (place (if res : bool then 0 else 0)
                       (if res : bool then -1 else 0)) G' = Ok G'' ∧
    all_open (if res : bool then 0 else 0) (if res : bool then -1 else 0)
      points G'.
Proof.
  apply (TryMove_place_destination_open 5 6 (grid demo_level) 1 1 0 (-1)).
  - exact demo_shaped.
  - eexists. split; vm_compute; reflexivity.
  - vm_compute. reflexivity.
Defined.

(** ** Gravity settles in one sweep *)

(** X25. On a well-shaped grid state, that is a walled rectangle of at
    most 257 rows and 257 columns, one sweep of [DropDown] settles every
    block: the sweep runs without a fault, in its result every block is
    stuck (what it grabs when pushed down holds a block with a wall below
    it), a second sweep changes nothing, and the first sweep changes nothing
    exactly when every block is stuck already. *)
Theorem DropDown_idempotent (lv : Level) :
  shaped lv →
  ∃ G', DropDown (height lv) (width lv) (grid lv) = Ok G' ∧
        settled G' ∧
        DropDown (height lv) (width lv) G' = Ok G' ∧
        (G' = grid lv ↔ settled (grid lv)).
Proof.
  intros Hlv.
  destruct (DropDown_settles _ _ _ Hlv) as (G' & Hrun & HG' & Hst).
  exists G'. split_and!; [done | done | by apply DropDown_settled |].
  split; [by intros <-|]. intros Hst0.
  pose proof (DropDown_settled _ _ _ Hlv Hst0) as Hrun0.
  rewrite Hrun in Hrun0. by simplify_eq.
Qed.

Lemma DropDown_idempotent_witness :
  ∃ G', DropDown (height demo_level) (width demo_level) (grid demo_level)
        = Ok G' ∧
        settled G' ∧
        DropDown (height demo_level) (width demo_level) G' = Ok G' ∧
        (G' = grid demo_level ↔ settled (grid demo_level)).
Proof. apply (DropDown_idempotent demo_level). exact demo_shaped. Defined.

(** ** [Regroup] is a flood fill *)

Definition neighbours (p : pos) : list pos :=
  [(p.1 - 1, p.2); (p.1 + 1, p.2); (p.1, p.2 - 1); (p.1, p.2 + 1)].

(** 4-adjacency. *)
Definition adj (p q : pos) : Prop := q ∈ neighbours p.

Lemma adj_dirs p q : adj p q ↔ ∃ δ, δ ∈ dirs ∧ q = step p δ.
Proof.
  unfold adj, neighbours, dirs, DR, DC, step. simpl.
  rewrite !elem_of_cons, elem_of_nil. split.
  - intros [->|[->|[->|[->|[]]]]];
      [exists (-1, 0) | exists (1, 0) | exists (0, -1) | exists (0, 1)];
      (split; [set_solver | simpl; f_equal; lia]).
  - intros (δ & Hδ & ->). rewrite !elem_of_cons, elem_of_nil in Hδ.
    destruct Hδ as [->|[->|[->|[->|[]]]]]; simpl;
      rewrite ?Z.add_0_r; auto.
Qed.

Lemma adj_sym p q : adj p q → adj q p.
Proof.
  unfold adj, neighbours. rewrite !elem_of_cons, !elem_of_nil.
  destruct p as [r c], q as [r' c']. simpl.
  intros [?|[?|[?|[?|[]]]]]; simplify_eq;
    [right; left | left | do 3 right; left | do 2 right; left];
    f_equal; lia.
Qed.

(** The grid with the cells at [ps] moved to group [to]. *)
Definition paint (to : Z) (G : Grid) (ps : list pos) : Grid :=
  foldl (λ g p, set_cell g p.1 p.2 (set_group (get G p) to)) G ps.

Lemma look_paint to G ps q :
  (∀ p, p ∈ ps → is_Some (look G p)) →
  look (paint to G ps) q =
    if decide (q ∈ ps) then Some (set_group (get G q) to) else look G q.
Proof.
  induction ps as [|p ps IH] using rev_ind; intros Hps.
  - rewrite decide_False by apply not_elem_of_nil. done.
  - unfold paint. rewrite foldl_app. simpl. fold (paint to G ps).
    assert (∀ p', p' ∈ ps → is_Some (look G p')) as Hps'
      by (intros; apply Hps, elem_of_app; by left).
    assert (∀ q', is_Some (look G q') → is_Some (look (paint to G ps) q'))
      as Hkeep.
    { clear -Hps'. intros q' Hq'. revert Hps' q' Hq'.
      induction ps as [|p ps IH] using rev_ind; intros Hps' q' Hq'; [done|].
      unfold paint. rewrite foldl_app. simpl. fold (paint to G ps).
      assert (is_Some (look (paint to G ps) p)) as Hp.
      { apply IH; [intros; apply Hps', elem_of_app; by left|].
        apply Hps', elem_of_app. right. by left. }
      rewrite look_set_cell by done. case_decide; [eauto|].
      apply IH; [|done]. intros; apply Hps', elem_of_app; by left. }
    rewrite look_set_cell
      by (apply Hkeep, Hps, elem_of_app; right; by left).
    destruct (decide (q = p)) as [->|Hne].
    + rewrite decide_True; [done|]. apply elem_of_app. right. by left.
    + rewrite IH by done. destruct (decide (q ∈ ps)) as [Hin|Hout].
      * rewrite decide_True; [done|]. apply elem_of_app. by left.
      * rewrite decide_False; [done|].
        intros [?|?%list_elem_of_singleton]%elem_of_app; done.
Qed.

Lemma rect_paint h w to G ps : rect h w G → rect h w (paint to G ps).
Proof.
  unfold paint. generalize (λ p : pos, set_group (get G p) to). intros f.
  generalize G at 1 3. induction ps as [|p ps IH]; intros G0 HG; simpl; [done|].
  apply IH. by apply rect_set_cell.
Qed.

Lemma paint_ext to G1 G2 g qs :
  (∀ q, q ∈ qs → get G1 q = get G2 q) →
  foldl (λ g p, set_cell g p.1 p.2 (set_group (get G1 p) to)) g qs
  = foldl (λ g p, set_cell g p.1 p.2 (set_group (get G2 p) to)) g qs.
Proof.
  revert g. induction qs as [|q qs IH]; intros g Hqs; simpl; [done|].
  rewrite Hqs by (by left). apply IH. intros q' Hq'. apply Hqs. by right.
Qed.

Lemma paint_app to G ps qs :
  (∀ p, p ∈ ps → is_Some (look G p)) → (∀ q, q ∈ qs → q ∉ ps) →
  paint to (paint to G ps) qs = paint to G (ps ++ qs).
Proof.
  intros Hps Hqs. unfold paint at 3. rewrite foldl_app. fold (paint to G ps).
  unfold paint at 1. apply paint_ext. intros q Hq. unfold get.
  rewrite look_paint by done. by rewrite decide_False by (by apply Hqs).
Qed.

Section regroup.
Context (h w from to : Z) (Hto : uint8 to ≠ from).

Definition is_from (G : Grid) (p : pos) : Prop :=
∃ x, look G p = Some x ∧ group x = from.

Definition from_inside (G : Grid) : Prop :=
rect h w G ∧ ∀ p, is_from G p → 1 ≤ p.1 ≤ h - 2 ∧ 1 ≤ p.2 ≤ w - 2.

(** What a call of [Regroup] at [s] has repainted. *)
Definition painted (G : Grid) (s : pos) (ps : list pos) : Prop :=
NoDup ps ∧ (∀ p, p ∈ ps → is_from G p) ∧ (is_from G s → s ∈ ps) ∧
(∀ p q, p ∈ ps → adj p q → is_from G q → q ∈ ps).

(** The invariant of the four recursive calls at [s], after the neighbours
[qs]. *)
Definition paint_inv (G : Grid) (s : pos) (qs N : list pos) : Prop :=
NoDup N ∧ (∀ p, p ∈ N → is_from G p) ∧ s ∈ N ∧
(∀ p q, p ∈ N → p ≠ s → adj p q → is_from G q → q ∈ N) ∧
(∀ q, q ∈ qs → is_from G q → q ∈ N).

Definition regroup_ok (fuel : nat) : Prop :=
∀ G s, from_inside G → is_Some (look G s) →
(count_cells (λ x, bool_decide (group x = from)) G < fuel)%nat →
∃ ps, Regroup fuel from to s.1 s.2 G = Ok (paint to G ps) ∧
painted G s ps.

Lemma is_from_is_Some G p : is_from G p → is_Some (look G p).
Proof. intros (x & -> & _). eauto. Qed.

Lemma is_from_paint G N p :
(∀ p, p ∈ N → is_from G p) →
is_from (paint to G N) p ↔ is_from G p ∧ p ∉ N.
Proof.
intros HN. unfold is_from at 1.
rewrite look_paint by (intros; by apply is_from_is_Some, HN).
destruct (decide (p ∈ N)) as [Hin|Hout].
- split; [|by intros [_ ?]]. intros (x & ? & Hx). by simplify_eq.
- split; [intros ?; by split | by intros [? _]].
Qed.

Lemma from_inside_paint G N :
(∀ p, p ∈ N → is_from G p) → from_inside G → from_inside (paint to G N).
Proof.
intros HN [Hrect Hin]. split; [by apply rect_paint|].
intros p [Hp _]%is_from_paint; [|done]. by apply Hin.
Qed.

Lemma count_from_paint G N :
NoDup N → (∀ p, p ∈ N → is_from G p) →
(count_cells (λ x, bool_decide (group x = from)) (paint to G N) + length N
 = count_cells (λ x, bool_decide (group x = from)) G)%nat.
Proof.
induction N as [|p N IH] using rev_ind; intros Hnd HN;
[unfold paint; simpl; lia|].
apply NoDup_app in Hnd as (Hnd & Hp & _).
assert (∀ p', p' ∈ N → is_from G p') as HN'
by (intros; apply HN, elem_of_app; by left).
specialize (IH Hnd HN'). rewrite length_app. simpl.
unfold paint. rewrite foldl_app. simpl. fold (paint to G N).
destruct (HN p) as (x & Hx & Hgx); [apply elem_of_app; right; by left|].
assert (look (paint to G N) p = Some x) as Hx'.
{ rewrite look_paint by (intros; by apply is_from_is_Some, HN').
rewrite decide_False; [done|]. intros Hin. apply (Hp p Hin). by left. }
pose proof (count_cells_set_cell (λ x, bool_decide (group x = from))
(paint to G N) p.1 p.2 (set_group (get G p) to) x Hx') as Hc.
cbv beta in Hc. rewrite (bool_decide_eq_true_2 _ Hgx) in Hc.
rewrite (bool_decide_eq_false_2 (group (set_group (get G p) to) = from))
in Hc by done.
simpl in Hc. lia.
Qed.

(** One of the four recursive calls. *)
Lemma regroup_next fuel G s qs N q :
regroup_ok fuel → from_inside G → paint_inv G s qs N → adj s q →
(count_cells (λ x, bool_decide (group x = from)) G < S fuel)%nat →
∃ N', Regroup fuel from to q.1 q.2 (paint to G N) = Ok (paint to G N') ∧
paint_inv G s (qs ++ [q]) N'.
Proof.
intros IH HG (Hnd & HN & Hs & Hcl & Hqs) Hsq Hfuel.
pose proof HG as [Hrect Hin].
assert (∀ p, p ∈ N → is_Some (look G p)) as HN'
by (intros; by apply is_from_is_Some, HN).
destruct (IH (paint to G N) q) as (ps & Hrun & Hnd' & Hps & Hq & Hcl').
{ by apply from_inside_paint. }
{ apply (cell_in_range h w); [by apply rect_paint|].
specialize (Hin s (HN s Hs)). unfold adj, neighbours in Hsq.
rewrite !elem_of_cons, elem_of_nil in Hsq.
destruct Hsq as [->|[->|[->|[->|[]]]]]; simpl; lia. }
{ pose proof (count_from_paint G N Hnd HN).
assert (0 < length N)%nat; [|lia].
destruct N; [by apply elem_of_nil in Hs | simpl; lia]. }
assert (∀ p, p ∈ ps → is_from G p ∧ p ∉ N) as Hps'.
{ intros p Hp. by apply is_from_paint, Hps. }
exists (N ++ ps). split.
{ rewrite Hrun. f_equal. apply paint_app; [done|].
intros p Hp. by apply Hps'. }
split_and!.
- apply NoDup_app. split_and!; [done | | done].
intros p Hp Hp'. by destruct (Hps' p Hp').
- intros p [Hp|Hp]%elem_of_app; [by apply HN | by apply Hps'].
- apply elem_of_app. by left.
- intros p p' [Hp|Hp]%elem_of_app Hne Hadj Hp'; apply elem_of_app.
+ left. by eapply Hcl.
+ destruct (decide (p' ∈ N)); [by left|right].
eapply Hcl'; [done.. |]. by apply is_from_paint.
- intros q' [Hq'| ->%list_elem_of_singleton]%elem_of_app Hfq;
apply elem_of_app; [left; by apply Hqs|].
destruct (decide (q ∈ N)); [by left|right].
by apply Hq, is_from_paint.
Qed.

Lemma Regroup_spec fuel : regroup_ok fuel.
Proof.
induction fuel as [|fuel IH]; intros G s HG [x Hx] Hfuel; [lia|].
assert (at_ G s.1 s.2 = Ok x) as Hat by (by apply at_Ok).
cbn [Regroup]. rewrite Hat, bind_Ok. case_bool_decide as Hgx.
{ exists []. split; [done|]. split_and!; [constructor | | | ].
- intros p []%elem_of_nil.
- intros (y & Hy & Hgy). congruence.
- intros p q []%elem_of_nil. }
assert (group x = from) as Hfrom by (by destruct (decide (group x = from))).
assert (is_from G s) as Hs by (by exists x).
rewrite put_Ok, bind_Ok by (by exists x).
assert (get G s = x) as Hget by (unfold get; by rewrite Hx).
assert (paint_inv G s [] [s]) as Hinv0.
{ split_and!.
- apply NoDup_singleton.
- by intros p ->%list_elem_of_singleton.
- by apply list_elem_of_singleton.
- by intros p q ->%list_elem_of_singleton.
- intros q []%elem_of_nil. }
assert (set_cell G s.1 s.2 (set_group x to) = paint to G [s]) as ->
by (unfold paint; simpl; by rewrite Hget).
destruct (regroup_next fuel G s _ _ (s.1 - 1, s.2) IH HG Hinv0)
as (N1 & Hrun1 & Hinv1); [unfold adj, neighbours; set_solver | done |].
destruct (regroup_next fuel G s _ _ (s.1 + 1, s.2) IH HG Hinv1)
as (N2 & Hrun2 & Hinv2); [unfold adj, neighbours; set_solver | done |].
destruct (regroup_next fuel G s _ _ (s.1, s.2 - 1) IH HG Hinv2)
as (N3 & Hrun3 & Hinv3); [unfold adj, neighbours; set_solver | done |].
destruct (regroup_next fuel G s _ _ (s.1, s.2 + 1) IH HG Hinv3)
as (N4 & Hrun4 & Hinv4); [unfold adj, neighbours; set_solver | done |].
simpl in Hrun1, Hrun2, Hrun3, Hrun4.
exists N4. split.
{ by rewrite Hrun1, bind_Ok, Hrun2, bind_Ok, Hrun3, bind_Ok, Hrun4. }
destruct Hinv4 as (Hnd & HN & HsN & Hcl & Hqs). split_and!; try done.
intros p q Hp Hadj Hq. destruct (decide (p = s)) as [->|Hne].
- apply Hqs; [|done]. unfold adj in Hadj. simpl. done.
- by eapply Hcl.
Qed.
End regroup.

(** ** [RemoveUnusedGroupNumber] renumbers every cell *)

Definition renumber (g : Z) (x : Cell) : Cell :=
  if bool_decide (g < group x) then set_group x (group x - 1) else x.

Lemma set_cell_same G p x : look G p = Some x → set_cell G p.1 p.2 x = G.
Proof.
  intros (Hr & Hc & row & Hrow & Hx)%cell_Some. unfold set_cell.
  apply list_eq. intros i. destruct (decide (i = Z.to_nat p.1)) as [->|Hne].
  - rewrite list_lookup_alter_eq, Hrow. simpl. by rewrite list_insert_id.
  - by rewrite list_lookup_alter_ne.
Qed.

Lemma look_set_cell_rc G r c x q :
  is_Some (cell G r c) →
  look (set_cell G r c x) q = if decide (q = (r, c)) then Some x else look G q.
Proof. apply (look_set_cell G (r, c)). Qed.

Lemma renumber_loop h w g G :
  rect h w G →
  (∀ p x, p ∈ interior h w → look G p = Some x → group x ≠ g) →
  ∃ G',
    forM (interior h w)
      (λ '(r, c) gr,
         x ← at_ gr r c;
         _ ← assert (bool_decide (group x ≠ g));
         if bool_decide (g < group x)
         then put gr r c (set_group x (group x - 1))
         else Ok gr) G = Ok G' ∧
    rect h w G' ∧
    ∀ p, look G' p = if decide (p ∈ interior h w)
                     then renumber g <$> look G p else look G p.
Proof.
  intros Hrect Hg.
  match goal with |- ∃ G', forM ?l ?body ?G0 = _ ∧ _ =>
    destruct (forM_invariant
      (λ done G', rect h w G' ∧
         ∀ p, look G' p = if decide (p ∈ done)
                          then renumber g <$> look G p else look G p)
      l body G0) as (G' & Hrun & HG')
  end; [| |by exists G'].
  - split; [done|]. intros p. by rewrite decide_False by apply not_elem_of_nil.
  - intros done s G' [rest Hint] [Hrect' Hlook].
    assert (s ∈ interior h w) as Hs
      by (rewrite Hint; apply elem_of_app; right; by left).
    assert (s ∉ done) as Hsd.
    { pose proof (NoDup_interior h w) as Hnd. rewrite Hint in Hnd.
      apply NoDup_app in Hnd as (_ & Hnd & _). intros Hin.
      apply (Hnd s Hin). by left. }
    pose proof Hs as Hs'. apply elem_of_interior in Hs'.
    destruct (proj2 (cell_in_range h w G s.1 s.2 Hrect)) as [x Hx]; [lia|].
    assert (look G' s = Some x) as Hx'.
    { rewrite Hlook. by rewrite decide_False. }
    destruct s as [r c].
    assert (at_ G' r c = Ok x) as -> by (by apply at_Ok). rewrite bind_Ok.
    rewrite assert_true, bind_Ok
      by (apply bool_decide_eq_true; by eapply (Hg (r, c))).
    assert (∀ G'', G'' = set_cell G' r c (renumber g x) →
              rect h w G'' ∧
              ∀ p, look G'' p = if decide (p ∈ done ++ [(r, c)])
                                then renumber g <$> look G p else look G p)
      as Hset.
    { intros G'' ->. split; [by apply rect_set_cell|]. intros p.
      rewrite look_set_cell_rc by (by exists x).
      destruct (decide (p = (r, c))) as [->|Hne].
      - rewrite decide_True by (apply elem_of_app; right; by left).
        assert (look G (r, c) = Some x) as -> by exact Hx. done.
      - rewrite Hlook. destruct (decide (p ∈ done)) as [Hin|Hout].
        + rewrite decide_True; [done|]. apply elem_of_app. by left.
        + rewrite decide_False; [done|].
          intros [?|?%list_elem_of_singleton]%elem_of_app; done. }
    unfold renumber in Hset. case_bool_decide.
    + rewrite put_Ok by (by exists x). eexists. split; [done|]. by apply Hset.
    + eexists. split; [done|]. apply Hset.
      symmetry. by apply (set_cell_same G' (r, c)).
Qed.

(** ** The group invariant *)

(** Adjacent blocks of one group. *)
Definition linked (G : Grid) (p q : pos) : Prop :=
  adj p q ∧ ∃ x y, look G p = Some x ∧ look G q = Some y ∧
    type x = MOVABLE ∧ type y = MOVABLE ∧ group x = group y.

(** [grouped n G]: the group identifiers of the blocks of [G] are exactly
    [1..n], every other cell has group [0], and the cells of one group form
    one 4-connected region. *)
Record grouped (n : Z) (G : Grid) : Prop := mkGrouped {
  grouped_bound : n ≤ 255;
  grouped_tidy : ∀ p x, look G p = Some x → type x ≠ MOVABLE → group x = 0;
  grouped_range :
    ∀ p x, look G p = Some x → type x = MOVABLE → 1 ≤ group x ≤ n;
  grouped_used :
    ∀ k, 1 ≤ k ≤ n →
      ∃ p x, look G p = Some x ∧ type x = MOVABLE ∧ group x = k;
  grouped_connected :
    ∀ p q x y, look G p = Some x → look G q = Some y →
      type x = MOVABLE → type y = MOVABLE → group x = group y →
      rtc (linked G) p q
}.

(** The invariant of the reachable states. *)
Definition inv (lv : Level) : Prop :=
  shaped lv ∧ grouped (groups lv) (grid lv).

(** What a merge pass may change: nothing but group identifiers, and
    cells of one group stay in one group. *)
Definition same_shape (G G' : Grid) : Prop :=
  ∀ p, (λ x, (type x, color x)) <$> look G p
       = (λ x, (type x, color x)) <$> look G' p.

Definition coarser (G G' : Grid) : Prop :=
  ∀ p q x y x' y',
    look G p = Some x → look G q = Some y →
    look G' p = Some x' → look G' q = Some y' →
    group x = group y → group x' = group y'.

(** Every group has one colour. *)
Definition mono (G : Grid) : Prop :=
  ∀ p q x y, look G p = Some x → look G q = Some y →
    type x = MOVABLE → type y = MOVABLE →
    group x = group y → color x = color y.

(** Relabelling the groups of a grid by [m], which may identify the two
    groups [a] and [b] of the adjacent blocks [s1] and [s2]. *)
Section relabel.
Context (n n' : Z) (G G' : Grid) (F : Cell → Cell) (m : Z → Z).
Context (a b : Z) (s1 s2 : pos).
Context (HG : grouped n G).
Context (HF : ∀ p, look G' p = F <$> look G p).
Context (HFt : ∀ x, type (F x) = type x).
Context (HFc : ∀ x, color (F x) = color x).
Context (HFg : ∀ x, group x = 0 ∨ 1 ≤ group x ≤ n →
group (F x) = m (group x)).
Context (Hn' : n' ≤ 255).
Context (Hm0 : m 0 = 0).
Context (Hmr : ∀ k, 1 ≤ k ≤ n → 1 ≤ m k ≤ n').
Context (Hms : ∀ k', 1 ≤ k' ≤ n' → ∃ k, 1 ≤ k ≤ n ∧ m k = k').
Context (Hmi : ∀ k1 k2, 1 ≤ k1 ≤ n → 1 ≤ k2 ≤ n → m k1 = m k2 →
 k1 = k2 ∨ (k1 = a ∧ k2 = b) ∨ (k1 = b ∧ k2 = a)).
Context (Hadj : adj s1 s2).
Context (Hs1 : ∃ x, look G s1 = Some x ∧ type x = MOVABLE ∧ group x = a).
Context (Hs2 : ∃ x, look G s2 = Some x ∧ type x = MOVABLE ∧ group x = b).
Context (Hab : m a = m b).

Lemma relabel_look p x' :
look G' p = Some x' → ∃ x, look G p = Some x ∧ x' = F x.
Proof.
rewrite HF. destruct (look G p) as [x|]; [|done]. intros ?; simplify_eq/=.
by exists x.
Qed.

Lemma relabel_group p x :
look G p = Some x → group (F x) = m (group x).
Proof.
intros Hx. apply HFg. destruct (decide (type x = MOVABLE)) as [Hm|Hm].
- right. by apply (grouped_range n G HG p x Hx Hm).
- left. by apply (grouped_tidy n G HG p x Hx Hm).
Qed.

Lemma relabel_linked p q : linked G p q → linked G' p q.
Proof.
intros (Hpq & x & y & Hx & Hy & Hxt & Hyt & Hg).
split; [done|]. exists (F x), (F y). rewrite !HF, Hx, Hy.
split_and!; try done; rewrite ?HFt; try done.
rewrite (relabel_group p x Hx), (relabel_group q y Hy). by rewrite Hg.
Qed.

Lemma relabel_rtc p q : rtc (linked G) p q → rtc (linked G') p q.
Proof. apply rtc_subrel. intros ??. apply relabel_linked. Qed.

Lemma relabel_bridge : linked G' s1 s2 ∧ linked G' s2 s1.
Proof.
destruct Hs1 as (x1 & Hx1 & Ht1 & Hg1), Hs2 as (x2 & Hx2 & Ht2 & Hg2).
assert (group (F x1) = group (F x2)) as Hg.
{ rewrite (relabel_group s1 x1 Hx1), (relabel_group s2 x2 Hx2).
by rewrite Hg1, Hg2. }
split.
- split; [done|]. exists (F x1), (F x2). rewrite !HF, Hx1, Hx2.
split_and!; try done; by rewrite HFt.
- split; [by apply adj_sym|]. exists (F x2), (F x1). rewrite !HF, Hx1, Hx2.
split_and!; try done; by rewrite HFt.
Qed.

Lemma relabel_grouped : grouped n' G'.
Proof.
split.
- done.
- intros p x' (x & Hx & ->)%relabel_look Ht. rewrite HFt in Ht.
rewrite (relabel_group p x Hx).
by rewrite (grouped_tidy n G HG p x Hx Ht).
- intros p x' (x & Hx & ->)%relabel_look Ht. rewrite HFt in Ht.
rewrite (relabel_group p x Hx).
apply Hmr. by apply (grouped_range n G HG p x Hx Ht).
- intros k' Hk'. destruct (Hms k' Hk') as (k & Hk & <-).
destruct (grouped_used n G HG k Hk) as (p & x & Hx & Ht & <-).
exists p, (F x). rewrite HF, Hx. split_and!; [done | by rewrite HFt |].
by apply relabel_group with p.
- intros p q x' y' (x & Hx & ->)%relabel_look (y & Hy & ->)%relabel_look
Hxt Hyt Hg.
rewrite HFt in Hxt, Hyt.
rewrite (relabel_group p x Hx), (relabel_group q y Hy) in Hg.
pose proof (grouped_range n G HG p x Hx Hxt) as Hrx.
pose proof (grouped_range n G HG q y Hy Hyt) as Hry.
destruct Hs1 as (x1 & Hx1 & Ht1 & Hg1), Hs2 as (x2 & Hx2 & Ht2 & Hg2).
destruct relabel_bridge as [H12 H21].
destruct (Hmi _ _ Hrx Hry Hg) as [Heq|[[Ha Hb]|[Hb Ha]]].
+ apply relabel_rtc. by eapply (grouped_connected n G HG).
+ etrans; [apply relabel_rtc, (grouped_connected n G HG p s1 x x1);
 auto; congruence|].
eapply rtc_l; [exact H12|].
apply relabel_rtc, (grouped_connected n G HG s2 q x2 y); auto.
congruence.
+ etrans; [apply relabel_rtc, (grouped_connected n G HG p s2 x x2);
 auto; congruence|].
eapply rtc_l; [exact H21|].
apply relabel_rtc, (grouped_connected n G HG s1 q x1 y); auto.
congruence.
Qed.

Lemma relabel_same_shape : same_shape G G'.
Proof.
intros p. rewrite HF. destruct (look G p) as [x|]; [|done]. simpl.
by rewrite HFt, HFc.
Qed.

Lemma relabel_coarser : coarser G G'.
Proof.
intros p q x y x' y' Hx Hy Hx' Hy' Hg.
rewrite HF, Hx in Hx'. rewrite HF, Hy in Hy'. simplify_eq/=.
rewrite (relabel_group p x Hx), (relabel_group q y Hy). by rewrite Hg.
Qed.

Lemma relabel_mono :
(∀ x1 x2, look G s1 = Some x1 → look G s2 = Some x2 → color x1 = color x2) →
mono G → mono G'.
Proof.
intros Hc Hmono p q x' y' (x & Hx & ->)%relabel_look
(y & Hy & ->)%relabel_look Hxt Hyt Hg.
rewrite HFt in Hxt, Hyt. rewrite !HFc.
rewrite (relabel_group p x Hx), (relabel_group q y Hy) in Hg.
pose proof (grouped_range n G HG p x Hx Hxt) as Hrx.
pose proof (grouped_range n G HG q y Hy Hyt) as Hry.
destruct Hs1 as (x1 & Hx1 & Ht1 & Hg1), Hs2 as (x2 & Hx2 & Ht2 & Hg2).
specialize (Hc x1 x2 Hx1 Hx2).
destruct (Hmi _ _ Hrx Hry Hg) as [Heq|[[Ha Hb]|[Hb Ha]]].
- by eapply Hmono.
- rewrite (Hmono p s1 x x1), (Hmono q s2 y x2); auto; congruence.
- rewrite (Hmono p s2 x x2), (Hmono q s1 y x1); auto; congruence.
Qed.
End relabel.

(** ** Merging two groups *)

(** The effect of [Regroup] followed by [RemoveUnusedGroupNumber] on a
    cell and on a group identifier. *)
Definition merge_cell (from to : Z) (x : Cell) : Cell :=
  renumber from (if bool_decide (group x = from) then set_group x to else x).

Definition merge_id (from to k : Z) : Z :=
  let k' := if decide (k = from) then to else k in
  if decide (from < k') then k' - 1 else k'.

(** The two calls made by [UpdateConnections] for one merge. *)
Definition merge (from to : Z) (s : pos) (lv : Level) : result Level :=
  gr ← Regroup (regroup_fuel from (grid lv)) from to s.1 s.2 (grid lv);
  RemoveUnusedGroupNumber from (with_grid lv gr).

Lemma merge_cell_group n from to x :
  1 ≤ from ≤ n → 1 ≤ to ≤ n → n ≤ 255 →
  group x = 0 ∨ 1 ≤ group x ≤ n →
  group (merge_cell from to x) = merge_id from to (group x).
Proof.
  intros Hf Ht Hn Hx. unfold merge_cell, merge_id, renumber, set_group, uint8.
  repeat (case_bool_decide || case_decide || simpl in * );
    rewrite ?(Z.mod_small to) in * by lia;
    rewrite ?Z.mod_small in * by lia; try lia.
Qed.

Lemma merge_cell_type from to x : type (merge_cell from to x) = type x.
Proof.
  unfold merge_cell, renumber. by repeat (case_bool_decide; simpl).
Qed.

Lemma merge_cell_color from to x : color (merge_cell from to x) = color x.
Proof.
  unfold merge_cell, renumber. by repeat (case_bool_decide; simpl).
Qed.

Section merge.
Context (lv : Level) (s1 s2 : pos) (x1 x2 : Cell).
Context (Hinv : inv lv) (Hadj : adj s1 s2).
Context (Hx1 : look (grid lv) s1 = Some x1) (Ht1 : type x1 = MOVABLE).
Context (Hx2 : look (grid lv) s2 = Some x2) (Ht2 : type x2 = MOVABLE).
Context (Hne : group x2 ≠ group x1).

Let n := groups lv.
Let G := grid lv.
Let from := group x2.
Let to := group x1.

Lemma merge_ids : 1 ≤ from ≤ n ∧ 1 ≤ to ≤ n ∧ n ≤ 255.
Proof.
destruct Hinv as [_ Hgr]. split_and!.
- by apply (grouped_range n G Hgr s2).
- by apply (grouped_range n G Hgr s2).
- by apply (grouped_range n G Hgr s1).
- by apply (grouped_range n G Hgr s1).
- by apply (grouped_bound n G Hgr).
Qed.

Lemma merge_from_movable p : is_from from G p → movable G p.
Proof.
intros (x & Hx & Hg). exists x. split; [done|].
destruct Hinv as [_ Hgr].
destruct (decide (type x = MOVABLE)) as [|Hxt]; [done|].
pose proof (grouped_tidy n G Hgr p x Hx Hxt) as H0.
destruct merge_ids as (Hf & _). lia.
Qed.

(** [Regroup] repaints the whole group [from]. *)
Lemma merge_regroup :
∃ gr, Regroup (regroup_fuel from G) from to s2.1 s2.2 G = Ok gr ∧
rect (height lv) (width lv) gr ∧
∀ p, look gr p = (λ x, if bool_decide (group x = from)
           then set_group x to else x) <$> look G p.
Proof.
pose proof merge_ids as (Hf & Ht & Hn).
destruct Hinv as [Hsh Hgr]. pose proof Hsh as (Hrect & Hh & Hw & Hbd).
pose proof (shaped_inside lv Hsh) as (_ & _ & _ & Hins).
assert (uint8 to ≠ from) as Hto.
{ unfold uint8. rewrite Z.mod_small by lia. done. }
destruct (Regroup_spec (height lv) (width lv) from to Hto
(regroup_fuel from G) G s2) as (ps & Hrun & Hnd & Hps & Hs & Hcl).
{ split; [done|]. intros p Hp. by apply Hins, merge_from_movable. }
{ by exists x2. }
{ unfold regroup_fuel. lia. }
(* the flood fill reaches the whole group *)
assert (∀ u v, rtc (linked G) u v → u ∈ ps → v ∈ ps) as Hclosed.
{ intros u v Hpath. induction Hpath as [|u v q Hl _ IH]; [done|].
intros Hu. apply IH.
destruct Hl as (Huv & xu & xv & Hxu & Hxv & _ & _ & Hg).
apply (Hcl u v Hu Huv). exists xv. split; [done|].
destruct (Hps u Hu) as (xu' & ? & ?). simplify_eq. congruence. }
assert (∀ q, is_from from G q → q ∈ ps) as Hall.
{ intros q Hq. pose proof (merge_from_movable q Hq) as (y & Hy & Hyt).
destruct Hq as (y' & Hy' & Hgy). simplify_eq.
apply (Hclosed s2); [|apply Hs; by exists x2].
by apply (grouped_connected n G Hgr s2 q x2 y'). }
exists (paint to G ps). split_and!; [done | by apply rect_paint |].
intros p. rewrite look_paint by (intros; by eapply is_from_is_Some, Hps).
destruct (decide (p ∈ ps)) as [Hin|Hout].
- destruct (Hps p Hin) as (x & Hx & Hg). unfold get. rewrite Hx. simpl.
by rewrite bool_decide_eq_true_2.
- destruct (look G p) as [x|] eqn:Hx; [|done]. simpl.
rewrite bool_decide_eq_false_2; [done|]. intros Hg. apply Hout, Hall.
by exists x.
Qed.

Lemma merge_run :
∃ lv', merge from to s2 lv = Ok lv' ∧
width lv' = width lv ∧ height lv' = height lv ∧
groups lv' = n - 1 ∧
rect (height lv) (width lv) (grid lv') ∧
∀ p, look (grid lv') p = merge_cell from to <$> look G p.
Proof.
pose proof merge_ids as (Hf & Ht & Hn).
destruct merge_regroup as (G1 & Hrun & Hrect1 & Hlook1).
destruct Hinv as [Hsh Hgr]. pose proof Hsh as (Hrect & Hh & Hw & Hbd).
pose proof (shaped_inside lv Hsh) as (_ & _ & _ & Hins).
destruct (renumber_loop (height lv) (width lv) from G1)
as (G2 & Hrun2 & Hrect2 & Hlook2).
{ done. }
{ intros p x _ Hx Hg. rewrite Hlook1 in Hx.
destruct (look G p) as [x0|]; [|done]. simplify_eq/=.
case_bool_decide; simpl in *; [|done].
unfold uint8 in Hg. rewrite Z.mod_small in Hg by lia. done. }
eexists. split.
{ unfold merge. fold G. rewrite Hrun, bind_Ok. unfold RemoveUnusedGroupNumber.
rewrite assert_true, bind_Ok
by (unfold from, n in *; apply andb_true_iff; split;
apply bool_decide_eq_true; simpl; lia).
cbn [width height grid with_grid]. rewrite Hrun2. done. }
cbn [width height groups grid]. split_and!; try done.
intros p. rewrite Hlook2, Hlook1.
destruct (decide (p ∈ interior (height lv) (width lv))) as [Hin|Hout].
{ rewrite <- option_fmap_compose. done. }
destruct (look G p) as [x|] eqn:Hx; [|done]. simpl. f_equal.
assert (type x ≠ MOVABLE) as Hxt.
{ intros Hxt. apply Hout, elem_of_interior, Hins. by exists x. }
pose proof (grouped_tidy n G Hgr p x Hx Hxt) as Hg0.
unfold merge_cell, renumber.
rewrite (bool_decide_eq_false_2 (group x = from)) by lia.
by rewrite bool_decide_eq_false_2 by lia.
Qed.

Lemma merge_id_range k : 1 ≤ k ≤ n → 1 ≤ merge_id from to k ≤ n - 1.
Proof.
pose proof merge_ids. unfold merge_id. intros.
repeat case_decide; lia.
Qed.

Lemma merge_id_onto k' :
1 ≤ k' ≤ n - 1 → ∃ k, 1 ≤ k ≤ n ∧ merge_id from to k = k'.
Proof.
pose proof merge_ids. intros.
exists (if decide (k' < from) then k' else k' + 1). unfold merge_id.
repeat case_decide; lia.
Qed.

Lemma merge_id_inj k1 k2 :
1 ≤ k1 ≤ n → 1 ≤ k2 ≤ n → merge_id from to k1 = merge_id from to k2 →
k1 = k2 ∨ (k1 = to ∧ k2 = from) ∨ (k1 = from ∧ k2 = to).
Proof.
pose proof merge_ids. unfold merge_id. intros.
repeat case_decide; lia.
Qed.

(** A merge keeps the invariant, changes nothing but group identifiers,
and joins the two groups. *)
Lemma merge_spec :
∃ lv', merge from to s2 lv = Ok lv' ∧
width lv' = width lv ∧ height lv' = height lv ∧
groups lv' = groups lv - 1 ∧ inv lv' ∧
same_shape (grid lv) (grid lv') ∧ coarser (grid lv) (grid lv') ∧
(color x1 = color x2 → mono (grid lv) → mono (grid lv')) ∧
(∀ y1 y2, look (grid lv') s1 = Some y1 → look (grid lv') s2 = Some y2 →
 group y1 = group y2).
Proof.
destruct merge_run as (lv' & Hrun & Hw & Hh & Hn & Hrect & Hlook).
pose proof merge_ids as (Hf & Ht & Hn255).
pose proof Hinv as [Hsh Hgr]. pose proof Hsh as (_ & Hh257 & Hw257 & Hbd).
assert (merge_id from to to = merge_id from to from) as Hab.
{ unfold merge_id. repeat case_decide; lia. }
assert (∀ x, group x = 0 ∨ 1 ≤ group x ≤ n →
group (merge_cell from to x) = merge_id from to (group x)) as HFg
by (intros; by apply (merge_cell_group n)).
assert (merge_id from to 0 = 0) as Hm0.
{ unfold merge_id. repeat case_decide; lia. }
exists lv'. split_and!; try done.
- split.
+ unfold shaped, walled. rewrite Hw, Hh. split_and!; try done.
intros r c x' Hx' Hb. change (look (grid lv') (r, c) = Some x') in Hx'.
rewrite Hlook in Hx'. destruct (look G (r, c)) as [x|] eqn:Hx; [|done].
simplify_eq/=. rewrite merge_cell_type. by apply (Hbd r c x).
+ rewrite Hn.
apply (relabel_grouped n (n - 1) G (grid lv') (merge_cell from to)
 (merge_id from to) to from s1 s2 Hgr Hlook
 (merge_cell_type from to) HFg); try done.
* lia.
* apply merge_id_range.
* apply merge_id_onto.
* apply merge_id_inj.
* by exists x1.
* by exists x2.
- apply (relabel_same_shape G (grid lv') (merge_cell from to) Hlook
 (merge_cell_type from to) (merge_cell_color from to)).
- by apply (relabel_coarser n G (grid lv') (merge_cell from to)
(merge_id from to) Hgr Hlook HFg).
- intros Hc Hmono.
apply (relabel_mono n G (grid lv') (merge_cell from to)
 (merge_id from to) to from s1 s2 Hgr Hlook
 (merge_cell_type from to) (merge_cell_color from to) HFg);
try done.
+ apply merge_id_inj.
+ by exists x1.
+ by exists x2.
+ intros y1 y2 Hy1 Hy2. unfold G in *. rewrite Hx1 in Hy1.
rewrite Hx2 in Hy2. by simplify_eq.
- intros y1 y2. rewrite !Hlook. fold G in Hx1, Hx2. rewrite Hx1, Hx2.
intros ? ?; simplify_eq/=. rewrite !HFg; [done | right; lia | right; lia].
Qed.
End merge.

(** ** [UpdateConnections] *)

Lemma same_shape_refl G : same_shape G G.
Proof. by intros p. Qed.

Lemma same_shape_trans G1 G2 G3 :
  same_shape G1 G2 → same_shape G2 G3 → same_shape G1 G3.
Proof. intros H12 H23 p. by rewrite H12. Qed.

Lemma same_shape_look G G' p x :
  same_shape G G' → look G p = Some x →
  ∃ x', look G' p = Some x' ∧ type x' = type x ∧ color x' = color x.
Proof.
  intros Hs Hx. specialize (Hs p). rewrite Hx in Hs.
  destruct (look G' p) as [x'|]; [|done]. simplify_eq/=. by exists x'.
Qed.

Lemma same_shape_sym G G' : same_shape G G' → same_shape G' G.
Proof. intros Hs p. by rewrite Hs. Qed.

Lemma coarser_refl G : coarser G G.
Proof. intros p q x y x' y' ????. by simplify_eq. Qed.

Lemma coarser_trans G1 G2 G3 :
  same_shape G1 G2 → coarser G1 G2 → coarser G2 G3 → coarser G1 G3.
Proof.
  intros Hs H12 H23 p q x y x'' y'' Hx Hy Hx'' Hy'' Hg.
  destruct (same_shape_look G1 G2 p x Hs Hx) as (x' & Hx' & _).
  destruct (same_shape_look G1 G2 q y Hs Hy) as (y' & Hy' & _).
  apply (H23 p q x' y' x'' y'' Hx' Hy' Hx'' Hy'').
  by apply (H12 p q x y x' y').
Qed.

Lemma adj_right (p : pos) : adj p (p.1, p.2 + 1).
Proof. unfold adj, neighbours. rewrite !elem_of_cons. auto. Qed.

Lemma adj_down (p : pos) : adj p (p.1 + 1, p.2).
Proof. unfold adj, neighbours. rewrite !elem_of_cons. auto. Qed.

(** Touching blocks of one colour are in one group. *)
Definition joined_at (G : Grid) (p q : pos) : Prop :=
  ∀ x y, look G p = Some x → look G q = Some y →
    type x = MOVABLE → type y = MOVABLE → 0 < color x → color y = color x →
    group y = group x.

Definition maximal (G : Grid) : Prop := ∀ p q, adj p q → joined_at G p q.

Lemma joined_at_coarser G G' p q :
  same_shape G G' → coarser G G' → joined_at G p q → joined_at G' p q.
Proof.
  intros Hs Hc Hj x' y' Hx' Hy' Hxt Hyt Hcx Hcy.
  destruct (same_shape_look G' G p x' (same_shape_sym _ _ Hs) Hx')
    as (x & Hx & Htx & Hcx').
  destruct (same_shape_look G' G q y' (same_shape_sym _ _ Hs) Hy')
    as (y & Hy & Hty & Hcy').
  symmetry. eapply (Hc p q x y); eauto. symmetry.
  apply Hj; auto; congruence.
Qed.

(** What the merge pass and its steps guarantee. *)
Definition merges (lv lv' : Level) : Prop :=
  width lv' = width lv ∧ height lv' = height lv ∧ inv lv' ∧
  same_shape (grid lv) (grid lv') ∧ coarser (grid lv) (grid lv') ∧
  (mono (grid lv) → mono (grid lv')).

Lemma merges_refl lv : inv lv → merges lv lv.
Proof.
  intros Hinv. split_and!; auto using same_shape_refl, coarser_refl.
Qed.

Lemma merges_trans lv1 lv2 lv3 :
  merges lv1 lv2 → merges lv2 lv3 → merges lv1 lv3.
Proof.
  intros (Hw1 & Hh1 & _ & Hs1 & Hc1 & Hm1) (Hw2 & Hh2 & Hi & Hs2 & Hc2 & Hm2).
  split_and!; try congruence; eauto using same_shape_trans, coarser_trans.
Qed.

Lemma connect_spec lv (s1 s2 : pos) :
  inv lv → movable (grid lv) s1 → adj s1 s2 →
  ∃ lv', connect s1.1 s1.2 s2.1 s2.2 lv = Ok lv' ∧ merges lv lv' ∧
         joined_at (grid lv') s1 s2.
Proof.
  intros Hinv (x1 & Hx1 & Ht1) Hadj. pose proof Hinv as [Hsh Hgr].
  pose proof (shaped_inside lv Hsh) as (Hrect & _ & _ & Hins).
  assert (is_Some (look (grid lv) s2)) as [x2 Hx2].
  { apply (cell_in_range _ _ _ _ _ Hrect).
    specialize (Hins s1 (ex_intro _ x1 (conj Hx1 Ht1))).
    unfold adj, neighbours in Hadj. rewrite !elem_of_cons, elem_of_nil in Hadj.
    destruct Hadj as [->|[->|[->|[->|[]]]]]; simpl; lia. }
  unfold connect.
  assert (at_ (grid lv) s1.1 s1.2 = Ok x1) as -> by (by apply at_Ok).
  assert (at_ (grid lv) s2.1 s2.2 = Ok x2) as -> by (by apply at_Ok).
  rewrite !bind_Ok.
  destruct (is_type MOVABLE x2 && bool_decide (group x2 ≠ group x1)
            && bool_decide (color x2 = color x1)) eqn:Hcond.
  - apply andb_true_iff in Hcond as [[Ht2 Hne]%andb_true_iff Hc].
    apply bool_decide_eq_true in Ht2, Hne, Hc.
    destruct (merge_spec lv s1 s2 x1 x2 Hinv Hadj Hx1 Ht1 Hx2 Ht2 Hne)
      as (lv' & Hrun & Hw & Hh & Hn & Hinv' & Hs & Hco & Hmono & Hj).
    exists lv'. split; [exact Hrun|]. split.
    + split_and!; auto.
    + intros y1 y2 Hy1 Hy2 _ _ _ _. symmetry. by eapply Hj.
  - exists lv. split; [done|]. split; [by apply merges_refl|].
    intros y1 y2 Hy1 Hy2 _ Ht2 _ Hc.
    assert (y1 = x1) as -> by congruence.
    assert (y2 = x2) as -> by congruence.
    apply andb_false_iff in Hcond as [[Hf|Hf]%andb_false_iff|Hf];
      apply bool_decide_eq_false in Hf; try done.
    by destruct (decide (group x2 = group x1)).
Qed.

Lemma UpdateConnections_spec lv :
  inv lv →
  ∃ lv', UpdateConnections lv = Ok lv' ∧ merges lv lv' ∧ maximal (grid lv').
Proof.
  intros Hinv. unfold UpdateConnections.
  set (h := height lv). set (w := width lv).
  match goal with |- ∃ lv', forM ?l ?body ?s0 = _ ∧ _ =>
    destruct (forM_invariant
      (λ done lv', merges lv lv' ∧
         ∀ p, p ∈ done →
           joined_at (grid lv') p (p.1, p.2 + 1) ∧
           joined_at (grid lv') p (p.1 + 1, p.2))
      l body s0) as (lv' & Hrun & Hm & Hj)
  end.
  - split; [by apply merges_refl|]. intros p []%elem_of_nil.
  - intros done s lv1 [rest Hint] [Hm Hdone].
    pose proof Hm as (Hw1 & Hh1 & Hinv1 & Hs1 & Hc1 & Hmono1).
    assert (s ∈ interior h w) as Hs
      by (rewrite Hint; apply elem_of_app; right; by left).
    apply elem_of_interior in Hs.
    pose proof Hinv1 as [Hsh1 _]. pose proof Hsh1 as (Hrect1 & _).
    rewrite Hw1, Hh1 in Hrect1. fold h w in Hrect1.
    destruct (proj2 (cell_in_range h w (grid lv1) s.1 s.2 Hrect1))
      as [x Hx]; [lia|].
    destruct s as [r c]. simpl in Hs, Hx.
    assert (at_ (grid lv1) r c = Ok x) as -> by (by apply at_Ok).
    rewrite bind_Ok.
    assert (∀ lv2, merges lv1 lv2 →
              ∀ p, p ∈ done → joined_at (grid lv2) p (p.1, p.2 + 1) ∧
                              joined_at (grid lv2) p (p.1 + 1, p.2)) as Hkeep.
    { intros lv2 (_ & _ & _ & Hs2 & Hc2 & _) p Hp.
      destruct (Hdone p Hp). split; by eapply joined_at_coarser. }
    destruct (is_type MOVABLE x && bool_decide (0 < color x)) eqn:Hcond.
    + apply andb_true_iff in Hcond as [Hxt%bool_decide_eq_true _].
      assert (movable (grid lv1) (r, c)) as Hmov by (by exists x).
      destruct (connect_spec lv1 (r, c) (r, c + 1) Hinv1 Hmov)
        as (lv2 & Hrun2 & Hm2 & Hj2); [apply (adj_right (r, c))|].
      simpl in Hrun2. rewrite Hrun2, bind_Ok.
      pose proof Hm2 as (_ & _ & Hinv2 & Hs2 & _).
      assert (movable (grid lv2) (r, c)) as Hmov2.
      { destruct (same_shape_look _ _ (r, c) x Hs2 Hx) as (x' & Hx' & Ht' & _).
        exists x'. split; [done|congruence]. }
      destruct (connect_spec lv2 (r, c) (r + 1, c) Hinv2 Hmov2)
        as (lv3 & Hrun3 & Hm3 & Hj3); [apply (adj_down (r, c))|].
      simpl in Hrun3. exists lv3. split; [exact Hrun3|]. split.
      * eauto using merges_trans.
      * intros p [Hp| ->%list_elem_of_singleton]%elem_of_app.
        -- apply (Hkeep lv3); [eauto using merges_trans | done].
        -- split; [|done]. destruct Hm3 as (_ & _ & _ & Hs3 & Hc3 & _).
           by eapply joined_at_coarser.
    + exists lv1. split; [done|]. split; [done|].
      intros p [Hp| ->%list_elem_of_singleton]%elem_of_app;
        [by apply Hdone|].
      apply andb_false_iff in Hcond.
      split; intros x' y Hx' _ Hxt _ Hcx _;
        change (look (grid lv1) (r, c)) with (cell (grid lv1) r c) in Hx';
        simplify_eq; destruct Hcond as [Hf|Hf];
        apply bool_decide_eq_false in Hf; done.
  - exists lv'. split; [done|]. split; [done|].
    pose proof Hm as (Hw' & Hh' & Hinv' & _).
    pose proof (shaped_inside lv' (proj1 Hinv')) as (_ & _ & _ & Hins).
    rewrite Hw', Hh' in Hins. fold h w in Hins.
    intros p q Hadj x y Hx Hy Hxt Hyt Hcx Hcy.
    assert (p ∈ interior h w) as Hp
      by (apply elem_of_interior, Hins; by exists x).
    assert (q ∈ interior h w) as Hq
      by (apply elem_of_interior, Hins; by exists y).
    destruct (Hj p Hp) as [Hpr Hpd]. destruct (Hj q Hq) as [Hqr Hqd].
    unfold adj, neighbours in Hadj. rewrite !elem_of_cons, elem_of_nil in Hadj.
    destruct p as [r c]. simpl in *.
    destruct Hadj as [->|[->|[->|[->|[]]]]]; simpl in *.
    + (* [q] is above [p] *)
      replace (r - 1 + 1) with r in Hqd by lia.
      symmetry. apply (Hqd y x); auto; congruence.
    + by apply (Hpd x y).
    + replace (c - 1 + 1) with c in Hqr by lia.
      symmetry. apply (Hqr y x); auto; congruence.
    + by apply (Hpr x y).
Qed.

(** ** A push moves whole groups *)

(** Every block has a colour. *)
Definition chromatic (G : Grid) : Prop :=
  ∀ p x, look G p = Some x → type x = MOVABLE → 0 < color x.

Lemma adj_step p q δ : adj p q → adj (step p δ) (step q δ).
Proof.
  unfold adj, neighbours, step. rewrite !elem_of_cons, !elem_of_nil. simpl.
  intros [->|[->|[->|[->|[]]]]]; simpl;
    [left | right; left | do 2 right; left | do 3 right; left]; f_equal; lia.
Qed.

Lemma linked_sym G p q : linked G p q → linked G q p.
Proof.
  intros (Hadj & x & y & Hx & Hy & Hxt & Hyt & Hg). split; [by apply adj_sym|].
  by exists y, x.
Qed.

Section shift_groups.
Context (h w : Z) (d : pos) (Hd : d ∈ dirs) (n : Z).
Context (G : Grid) (s : pos) (ps : list pos).
Context (HG : walled h w G) (Hgr : grouped n G).
Context (Hgrab : grabbed d G s ps true).

Lemma look_shifted u :
look (shift d G ps) u =
if decide (unstep u d ∈ ps) then look G (unstep u d)
else if decide (u ∈ ps) then Some Cell0 else look G u.
Proof.
apply (look_shift h w d Hd); [by apply walled_inside|].
apply (grabbed_movable d G s ps Hgrab).
Qed.

(** Where a block of [G] is after the push. *)
Definition pushed (p : pos) : pos := if decide (p ∈ ps) then step p d else p.

Lemma linked_edge p q : linked G p q → edge d G p q.
Proof.
intros ((δ & Hδ & ->)%adj_dirs & x & y & Hx & Hy & Hxt & Hyt & Hg).
exists δ, x, y. split_and!; auto.
Qed.

Lemma whole_group p q x y :
p ∈ ps → look G p = Some x → look G q = Some y →
type x = MOVABLE → type y = MOVABLE → group x = group y → q ∈ ps.
Proof.
intros Hp Hx Hy Hxt Hyt Hg. apply (grabbed_closed d G s ps Hgrab p q Hp).
eapply rtc_subrel; [intros ??; apply linked_edge|].
by apply (grouped_connected n G Hgr p q x y).
Qed.

Lemma not_pushed_into u : movable G u → u ∉ ps → unstep u d ∉ ps.
Proof.
intros (y & Hy & Hyt) Hu Hin. apply Hu.
destruct Hgrab as [_ Hcl]. apply (Hcl _ Hin).
destruct (grabbed_movable d G s ps Hgrab _ Hin) as (x & Hx & Hxt).
exists d, x, y. rewrite step_unstep. split_and!; auto.
Qed.

Lemma look_pushed p : movable G p → look (shift d G ps) (pushed p) = look G p.
Proof.
intros Hp. unfold pushed.
rewrite look_shifted.
destruct (decide (p ∈ ps)) as [Hin|Hout].
- rewrite unstep_step. by rewrite decide_True.
- rewrite decide_False by (by apply not_pushed_into).
by rewrite decide_False.
Qed.

Lemma look_shift_movable u x :
look (shift d G ps) u = Some x → type x = MOVABLE →
∃ p, pushed p = u ∧ look G p = Some x.
Proof.
rewrite look_shifted.
intros Hx Hxt. destruct (decide (unstep u d ∈ ps)) as [Hin|Hout].
- exists (unstep u d). split; [|done]. unfold pushed.
by rewrite decide_True, step_unstep.
- destruct (decide (u ∈ ps)) as [Hin'|Hout']; [by simplify_eq|].
exists u. split; [|done]. unfold pushed. by rewrite decide_False.
Qed.

Lemma look_shift_other u x :
look (shift d G ps) u = Some x → type x ≠ MOVABLE → group x = 0.
Proof.
rewrite look_shifted.
intros Hx Hxt. destruct (decide (unstep u d ∈ ps)) as [Hin|Hout].
- by apply (grouped_tidy n G Hgr (unstep u d)).
- destruct (decide (u ∈ ps)) as [Hin'|Hout']; [by simplify_eq|].
by apply (grouped_tidy n G Hgr u).
Qed.

Lemma linked_pushed p q :
linked G p q → linked (shift d G ps) (pushed p) (pushed q).
Proof.
intros (Hadj & x & y & Hx & Hy & Hxt & Hyt & Hg).
assert (movable G p) as Hp by (by exists x).
assert (movable G q) as Hq by (by exists y).
split.
- unfold pushed. destruct (decide (p ∈ ps)) as [Hin|Hout].
+ rewrite decide_True by (by eapply (whole_group p q x y)).
by apply adj_step.
+ rewrite decide_False; [done|]. intros Hin. apply Hout.
by eapply (whole_group q p y x).
- exists x, y. rewrite !look_pushed by done. done.
Qed.

Lemma shift_grouped : grouped n (shift d G ps).
Proof.
split.
- by apply (grouped_bound n G Hgr).
- apply look_shift_other.
- intros u x Hx Hxt. destruct (look_shift_movable u x Hx Hxt) as (p & _ & Hp).
by apply (grouped_range n G Hgr p).
- intros k Hk. destruct (grouped_used n G Hgr k Hk) as (p & x & Hx & Hxt & Hg).
exists (pushed p), x. rewrite look_pushed by (by exists x). done.
- intros u v x y Hx Hy Hxt Hyt Hg.
destruct (look_shift_movable u x Hx Hxt) as (p & <- & Hp).
destruct (look_shift_movable v y Hy Hyt) as (q & <- & Hq).
apply (rtc_congruence (R:=linked G) pushed (linked (shift d G ps))).
+ intros ??. apply linked_pushed.
+ by apply (grouped_connected n G Hgr p q x y).
Qed.

Lemma shift_mono : mono G → mono (shift d G ps).
Proof.
intros Hm u v x y Hx Hy Hxt Hyt Hg.
destruct (look_shift_movable u x Hx Hxt) as (p & _ & Hp).
destruct (look_shift_movable v y Hy Hyt) as (q & _ & Hq).
by apply (Hm p q).
Qed.

Lemma shift_chromatic : chromatic G → chromatic (shift d G ps).
Proof.
intros Hc u x Hx Hxt.
destruct (look_shift_movable u x Hx Hxt) as (p & _ & Hp).
by apply (Hc p).
Qed.
End shift_groups.

(** What every step of a move keeps. *)
Definition kept (h w n : Z) (G : Grid) : Prop :=
  walled h w G ∧ grouped n G.

Definition pure (G : Grid) : Prop := mono G ∧ chromatic G.

Lemma TryMove_kept h w n d G s b G' :
  d ∈ dirs → kept h w n G →
  TryMove G s.1 s.2 d.1 d.2 = Ok (b, G') →
  kept h w n G' ∧ (pure G → pure G').
Proof.
  intros Hd [HG Hgr] Hrun.
  assert (movable G s) as Hs.
  { destruct s. by apply TryMove_Ok_movable in Hrun. }
  destruct (TryMove_spec h w d Hd G s (walled_inside _ _ _ HG) Hs)
    as (b' & ps & Hgrab & Hrun').
  rewrite Hrun' in Hrun. destruct b'; simplify_eq; [|done].
  split; [split|].
  - by eapply walled_shift.
  - by eapply shift_grouped.
  - intros [Hm Hc]. split.
    + by eapply shift_mono.
    + by eapply shift_chromatic.
Qed.

Lemma DropDown_kept h w n G G' :
  kept h w n G → DropDown h w G = Ok G' →
  kept h w n G' ∧ (pure G → pure G').
Proof.
  intros HG Hrun. unfold DropDown in Hrun.
  apply (forM_invariant_inv
           (λ _ g, kept h w n g ∧ (pure G → pure g))) in Hrun; [done | done |].
  intros done [r c] g g' _ [Hg Hp] Hbody.
  inv_step Hbody as x Hx. destruct (is_type MOVABLE x); [|by simplify_eq].
  inv_step Hbody as [b g''] Htry. simplify_eq.
  destruct (TryMove_kept h w n down g (r, c) b g' down_dirs Hg Htry).
  split; auto.
Qed.

Lemma first_of_exists h w G g p :
  p ∈ interior h w → group_at G g p → ∃ s, first_of h w G g s.
Proof.
  unfold first_of. generalize (interior h w). intros l.
  induction l as [|q l IH]; intros Hp Hg; [by apply elem_of_nil in Hp|].
  assert (Decision (group_at G g q)) as [Hq|Hq].
  { unfold group_at. destruct (look G q) as [x|].
    - destruct (decide (group x = g)); [left; eauto|right].
      intros (y & ? & ?). by simplify_eq.
    - right. by intros (y & ? & ?). }
  - exists q, [], l. split_and!; [done | done |]. intros ? []%elem_of_nil.
  - apply elem_of_cons in Hp as [->|Hp]; [done|].
    destruct (IH Hp Hg) as (s & done & rest & -> & Hs & Hdone).
    exists s, (q :: done), rest. split_and!; [done | done |].
    intros p' [->|?]%elem_of_cons; auto.
Qed.

(** ** [MoveGroup] on a state that satisfies the invariant *)

Lemma MoveGroup_spec lv g dr dc :
  inv lv → valid_dir dr dc = true → 1 ≤ g ≤ groups lv →
  ∃ s b ps lv',
    first_of (height lv) (width lv) (grid lv) g s ∧
    grabbed (dr, dc) (grid lv) s ps b ∧
    MoveGroup lv g dr dc = Ok (b, lv') ∧
    if b then
      width lv' = width lv ∧ height lv' = height lv ∧ inv lv' ∧
      maximal (grid lv') ∧ (pure (grid lv) → pure (grid lv'))
    else lv' = lv.
Proof.
  intros [Hsh Hgr] Hd Hg.
  destruct (grouped_used _ _ Hgr g Hg) as (p & x & Hx & Hxt & Hgx).
  pose proof (shaped_inside lv Hsh) as Hins.
  destruct (first_of_exists (height lv) (width lv) (grid lv) g p)
    as (s & Hfirst).
  { apply elem_of_interior. destruct Hins as (_ & _ & _ & Hins).
    apply Hins. by exists x. }
  { by exists x. }
  pose proof Hfirst as (_ & _ & _ & (xs & Hxs & Hgs) & _).
  assert (movable (grid lv) s) as Hs.
  { exists xs. split; [done|].
    destruct (decide (type xs = MOVABLE)) as [|Hn]; [done|].
    pose proof (grouped_tidy _ _ Hgr s xs Hxs Hn). lia. }
  pose proof (proj1 (valid_dir_dirs dr dc) Hd) as Hdirs.
  destruct (TryMove_spec (height lv) (width lv) (dr, dc) Hdirs (grid lv) s
              Hins Hs) as (b & ps & Hgrab & Hrun).
  simpl in Hrun.
  assert (MoveGroup lv g dr dc = move_at dr dc s lv) as HMG
    by (apply MoveGroup_first; [apply Hsh | done | lia | done]).
  destruct b.
  - assert (kept (height lv) (width lv) (groups lv)
              (shift (dr, dc) (grid lv) ps) ∧
            (pure (grid lv) → pure (shift (dr, dc) (grid lv) ps)))
      as [Hk1 Hp1].
    { apply (TryMove_kept _ _ _ (dr, dc) (grid lv) s true); try done. }
    destruct (DropDown_settles (height lv) (width lv) _ (proj1 Hk1))
      as (G2 & Hdrop & _ & _).
    destruct (DropDown_kept _ _ _ _ _ Hk1 Hdrop) as [[HG2 Hgr2] Hp2].
    destruct (UpdateConnections_spec (with_grid lv G2))
      as (lv' & Hupd & (Hw & Hh & Hinv' & Hs' & Hc' & Hm') & Hmax).
    { by split. }
    exists s, true, ps, lv'. split_and!; try done.
    + rewrite HMG. unfold move_at.
      rewrite Hrun, bind_Ok, Hdrop, bind_Ok, Hupd. done.
    + intros Hpure. destruct (Hp2 (Hp1 Hpure)) as [Hm2 Hc2]. split; [auto|].
      intros q y Hy Hyt.
      destruct (same_shape_look _ _ q y (same_shape_sym _ _ Hs') Hy)
        as (y0 & Hy0 & Ht0 & Hc0).
      rewrite <- Hc0. apply (Hc2 q y0 Hy0). congruence.
  - exists s, false, ps, lv. split_and!; try done.
    rewrite HMG. unfold move_at. rewrite Hrun, bind_Ok.
    by rewrite with_grid_same.
Qed.

(** ** Construction of a level *)

Definition is_digit (ch : ascii) : bool :=
  bool_decide (code "1" ≤ code ch) && bool_decide (code ch ≤ code "9").

(** The cells of the input that become blocks. *)
Definition is_block (input : list string) (h w : Z) (p : pos) : bool :=
  negb (on_border h w p)
  && match char_at input (p.1 - 1) (p.2 - 1) with
     | Ok ch => negb (bool_decide (code ch = code "#")) && is_digit ch
     | Err _ => false
     end.

Definition input_width (input : list string) : Z :=
  match input with [] => 0 | l :: _ => Z.of_nat (String.length l) end + 2.

Definition input_height (input : list string) : Z :=
  Z.of_nat (length input) + 2.

Definition block_count (input : list string) : Z :=
  Z.of_nat (length (filter (λ p, is_block input (input_height input)
                                   (input_width input) p = true)
                      (all_cells (input_height input) (input_width input)))).

(** The inputs the constructor is meant for: a non-empty rectangle of
    characters whose coordinates and whose blocks can be numbered in a
    [uint8_t]. *)
Definition valid_input (input : list string) : Prop :=
  input ≠ [] ∧
  Forall (λ l, Z.of_nat (String.length l) + 2 = input_width input) input ∧
  input_height input ≤ 257 ∧ input_width input ≤ 257 ∧
  block_count input ≤ 255.

Lemma string_get_lt (s : string) (i : nat) :
  (i < String.length s)%nat → is_Some (String.get i s).
Proof.
  revert i. induction s as [|ch s IH]; intros i Hi; simpl in *; [lia|].
  destruct i as [|i]; [eauto|]. apply IH. lia.
Qed.

Lemma NoDup_all_cells h w : NoDup (all_cells h w).
Proof.
  assert (StronglySorted before (all_cells h w)) as Hs
    by (apply cells_sorted; apply seqZ_sorted).
  induction Hs as [|p l Hs IH Hp]; constructor; [|done].
  intros Hin. rewrite Forall_forall in Hp.
  by apply Hp, before_irrefl in Hin.
Qed.

Lemma elem_of_all_cells h w (p : pos) :
  p ∈ all_cells h w ↔ 0 ≤ p.1 < h ∧ 0 ≤ p.2 < w.
Proof. unfold all_cells. rewrite elem_of_cells, !elem_of_seqZ. lia. Qed.

Lemma rect_replicate {A : Type} (h w : Z) (x : A) :
  0 ≤ h → 0 ≤ w →
  rect h w (replicate (Z.to_nat h) (replicate (Z.to_nat w) x)).
Proof.
  intros Hh Hw. split.
  - rewrite length_replicate. lia.
  - apply Forall_forall. intros row ->%elem_of_replicate_inv.
    rewrite length_replicate. lia.
Qed.

Lemma look_replicate {A : Type} (h w : Z) (x y : A) r c :
  cell (replicate (Z.to_nat h) (replicate (Z.to_nat w) x)) r c = Some y →
  y = x.
Proof.
  intros (_ & _ & row & Hrow & Hy)%cell_Some.
  apply lookup_replicate in Hrow as [-> _].
  by apply lookup_replicate in Hy as [-> _].
Qed.

Lemma filter_snoc_length {A : Type} (P : A → Prop) `{∀ x, Decision (P x)}
    (l : list A) (x : A) :
  length (filter P (l ++ [x]))
  = (length (filter P l) + if decide (P x) then 1 else 0)%nat.
Proof.
  rewrite filter_app, length_app. f_equal. rewrite filter_cons, filter_nil.
  by destruct (decide (P x)).
Qed.

Lemma filter_prefix_length {A : Type} (P : A → Prop) `{∀ x, Decision (P x)}
    (l1 l2 : list A) :
  (length (filter P l1) ≤ length (filter P (l1 ++ l2)))%nat.
Proof. rewrite filter_app, length_app. lia. Qed.

Lemma input_width_ge input : 2 ≤ input_width input.
Proof. unfold input_width. destruct input; lia. Qed.

Lemma input_height_ge input : 2 ≤ input_height input.
Proof. unfold input_height. lia. Qed.

Lemma int_small z : -2147483648 ≤ z < 2147483648 → int z = z.
Proof. intros Hz. unfold int. rewrite Z.mod_small by lia. lia. Qed.

(** The constructor with the conversions to [int] and the allocation of
    the grid spelled out. *)
Lemma new_level_unfold_int input :
  input ≠ [] →
  new_level input =
    (_ ← (if bool_decide (0 ≤ int (input_height input)
                          ∧ 0 ≤ int (input_width input))
          then Ok tt else Err BadAlloc);
     st ← forM (all_cells (int (input_height input)) (int (input_width input)))
            (new_cell input (int (input_height input))
               (int (input_width input)))
            (0, replicate (Z.to_nat (int (input_height input)))
                  (replicate (Z.to_nat (int (input_width input))) Cell0));
     UpdateConnections {| width := int (input_width input);
                          height := int (input_height input);
                          groups := st.1; grid := st.2 |}).
Proof.
  intros Hne. destruct input as [|line0 lines]; [done|].
  unfold new_level, all_cells, input_height, input_width.
  change ((line0 :: lines) !! 0%nat) with (Some line0). cbv iota beta.
  rewrite bind_Ok. cbv zeta.
  destruct (bool_decide _); [|done]. rewrite !bind_Ok.
  destruct (forM _ _ _) as [[n gr]|]; done.
Qed.

Lemma new_level_unfold input :
  input ≠ [] →
  input_height input < 2147483648 → input_width input < 2147483648 →
  new_level input =
    (st ← forM (all_cells (input_height input) (input_width input))
            (new_cell input (input_height input) (input_width input))
            (0, replicate (Z.to_nat (input_height input))
                  (replicate (Z.to_nat (input_width input)) Cell0));
     UpdateConnections {| width := input_width input;
                          height := input_height input;
                          groups := st.1; grid := st.2 |}).
Proof.
  intros Hne Hh Hw. rewrite new_level_unfold_int by done.
  pose proof (input_width_ge input). pose proof (input_height_ge input).
  rewrite !int_small by lia. by rewrite bool_decide_eq_true_2 by lia.
Qed.

Section construction.
Context (input : list string) (Hvalid : valid_input input).

Let h := input_height input.
Let w := input_width input.

(** The invariant of the constructor's loop: the cells [done] are built,
the running group count is [n], every block is a group of its own. *)
Record building (done : list pos) (n : Z) (gr : Grid) : Prop := mkBuilding {
bld_rect : rect h w gr;
bld_count :
n = Z.of_nat (length (filter (λ p, is_block input h w p = true) done));
bld_rest : ∀ p x, look gr p = Some x → p ∉ done → x = Cell0;
bld_border :
∀ p x, look gr p = Some x → on_border h w p = true → p ∈ done →
type x = WALL;
bld_tidy : ∀ p x, look gr p = Some x → type x ≠ MOVABLE → group x = 0;
bld_range :
∀ p x, look gr p = Some x → type x = MOVABLE →
1 ≤ group x ≤ n ∧ 0 < color x;
bld_used :
∀ k, 1 ≤ k ≤ n →
∃ p x, look gr p = Some x ∧ type x = MOVABLE ∧ group x = k;
bld_single :
∀ p q x y, look gr p = Some x → look gr q = Some y →
type x = MOVABLE → type y = MOVABLE → group x = group y → p = q
}.

Lemma building_start :
building [] 0 (replicate (Z.to_nat h) (replicate (Z.to_nat w) Cell0)).
Proof.
assert (∀ p x,
look (replicate (Z.to_nat h) (replicate (Z.to_nat w) Cell0)) p = Some x →
x = Cell0) as Hinit by (intros p x; apply look_replicate).
split.
- pose proof (input_width_ge input). pose proof (input_height_ge input).
apply rect_replicate; unfold h, w; lia.
- done.
- intros p x Hx _. by eapply Hinit.
- intros p x Hx _ []%elem_of_nil.
- intros p x Hx _. by rewrite (Hinit p x Hx).
- intros p x Hx Hxt. by rewrite (Hinit p x Hx) in Hxt.
- intros k Hk. lia.
- intros p q x y Hx _ Hxt. by rewrite (Hinit p x Hx) in Hxt.
Qed.

(** Writing a cell that is not a block. *)
Lemma building_plain done n gr s x :
building done n gr → s ∉ done → is_Some (look gr s) →
is_block input h w s = false → type x ≠ MOVABLE → group x = 0 →
(on_border h w s = true → type x = WALL) →
building (done ++ [s]) n (set_cell gr s.1 s.2 x).
Proof.
intros [Hrect Hn Hrest Hbd Htidy Hrange Hused Hsingle] Hs Hin Hb Hxt Hxg Hxw.
assert (∀ p y, look (set_cell gr s.1 s.2 x) p = Some y → type y = MOVABLE →
p ≠ s ∧ look gr p = Some y) as Hold.
{ intros p y. rewrite look_set_cell by done.
destruct (decide (p = s)); [intros; by simplify_eq | done]. }
assert (∀ p y, look gr p = Some y → type y = MOVABLE →
look (set_cell gr s.1 s.2 x) p = Some y) as Hnew.
{ intros p y Hy Hyt. rewrite look_set_cell by done.
rewrite decide_False; [done|]. intros ->.
specialize (Hrest s y Hy Hs). by subst y. }
split.
- by apply rect_set_cell.
- rewrite filter_snoc_length, decide_False by (by rewrite Hb). lia.
- intros p y. rewrite look_set_cell by done.
intros Hy Hp. rewrite decide_False in Hy.
+ apply (Hrest p y Hy). intros ?. apply Hp, elem_of_app. by left.
+ intros ->. apply Hp, elem_of_app. right. by left.
- intros p y. rewrite look_set_cell by done.
destruct (decide (p = s)) as [->|Hne].
+ intros ? Hon _. simplify_eq. by apply Hxw.
+ intros Hy Hon [Hp|Hp%list_elem_of_singleton]%elem_of_app; [|done].
by apply (Hbd p y).
- intros p y. rewrite look_set_cell by done.
destruct (decide (p = s)) as [->|Hne]; [intros; by simplify_eq|].
apply Htidy.
- intros p y Hy Hyt. destruct (Hold p y Hy Hyt) as [_ Hy'].
by apply (Hrange p y).
- intros k Hk. destruct (Hused k Hk) as (p & y & Hy & Hyt & Hg).
exists p, y. split_and!; try done. by apply Hnew.
- intros p q y z Hy Hz Hyt Hzt Hg.
destruct (Hold p y Hy Hyt) as [_ Hy'].
destruct (Hold q z Hz Hzt) as [_ Hz']. by apply (Hsingle p q y z).
Qed.

Lemma building_skip done n gr s :
building done n gr → s ∉ done → is_block input h w s = false →
on_border h w s = false →
building (done ++ [s]) n gr.
Proof.
intros [Hrect Hn Hrest Hbd Htidy Hrange Hused Hsingle] Hs Hb Hon.
split; try done.
- rewrite filter_snoc_length, decide_False by (by rewrite Hb). lia.
- intros p y Hy Hp. apply (Hrest p y Hy). intros ?. apply Hp, elem_of_app.
by left.
- intros p y Hy Hp [Hin| ->%list_elem_of_singleton]%elem_of_app.
+ by apply (Hbd p y).
+ congruence.
Qed.

Lemma building_block done n gr s x :
building done n gr → s ∉ done → is_Some (look gr s) →
is_block input h w s = true →
type x = MOVABLE → group x = n + 1 → 0 < color x →
building (done ++ [s]) (n + 1) (set_cell gr s.1 s.2 x).
Proof.
intros [Hrect Hn Hrest Hbd Htidy Hrange Hused Hsingle] Hs Hin Hb Hxt Hxg Hxc.
assert (∀ p y, look gr p = Some y → type y = MOVABLE → p ≠ s) as Hne.
{ intros p y Hy Hyt ->. specialize (Hrest s y Hy Hs). by subst y. }
split.
- by apply rect_set_cell.
- rewrite filter_snoc_length, decide_True by done. lia.
- intros p y. rewrite look_set_cell by done.
intros Hy Hp. rewrite decide_False in Hy.
+ apply (Hrest p y Hy). intros ?. apply Hp, elem_of_app. by left.
+ intros ->. apply Hp, elem_of_app. right. by left.
- intros p y. rewrite look_set_cell by done.
destruct (decide (p = s)) as [->|Hnes].
+ intros ? Hon _. unfold is_block in Hb. rewrite Hon in Hb. done.
+ intros Hy Hon [Hp|Hp%list_elem_of_singleton]%elem_of_app; [|done].
by apply (Hbd p y).
- intros p y. rewrite look_set_cell by done.
destruct (decide (p = s)) as [->|Hnes]; [intros; by simplify_eq|].
apply Htidy.
- intros p y. rewrite look_set_cell by done.
destruct (decide (p = s)) as [->|Hnes].
+ intros ? _. simplify_eq. lia.
+ intros Hy Hyt. destruct (Hrange p y Hy Hyt). lia.
- intros k Hk. destruct (decide (k = n + 1)) as [->|Hkn].
+ exists s, x. rewrite look_set_cell by done. by rewrite decide_True.
+ destruct (Hused k) as (p & y & Hy & Hyt & Hg); [lia|].
exists p, y. rewrite look_set_cell by done.
rewrite decide_False by (by eapply Hne). done.
- intros p q y z. rewrite !look_set_cell by done.
destruct (decide (p = s)) as [->|Hp], (decide (q = s)) as [->|Hq];
intros Hy Hz Hyt Hzt Hg; simplify_eq; [done | | |].
+ destruct (Hrange q z Hz Hzt). lia.
+ destruct (Hrange p y Hy Hyt). lia.
+ by apply (Hsingle p q y z).
Qed.

Lemma new_cell_step done s rest n gr :
all_cells h w = done ++ s :: rest → building done n gr →
∃ n' gr', new_cell input h w s (n, gr) = Ok (n', gr') ∧
building (done ++ [s]) n' gr'.
Proof.
intros Hall Hb. destruct Hvalid as (Hne & Hlines & Hh & Hw & Hblocks).
fold h w in Hlines, Hh, Hw.
assert (s ∈ all_cells h w) as Hs
by (rewrite Hall; apply elem_of_app; right; by left).
apply elem_of_all_cells in Hs.
assert (s ∉ done) as Hsd.
{ pose proof (NoDup_all_cells h w) as Hnd. rewrite Hall in Hnd.
apply NoDup_app in Hnd as (_ & Hnd & _). intros Hin.
apply (Hnd s Hin). by left. }
assert (is_Some (look gr s)) as Hin
by (by apply (cell_in_range h w), Hs; apply (bld_rect _ _ _ Hb)).
assert (n + (if decide (is_block input h w s = true) then 1 else 0) ≤ 255)
as Hbound.
{ pose proof (filter_prefix_length (λ p, is_block input h w p = true)
  (done ++ [s]) rest) as Hle.
rewrite <- app_assoc in Hle. simpl in Hle. rewrite <- Hall in Hle.
rewrite filter_snoc_length in Hle. rewrite (bld_count _ _ _ Hb).
unfold block_count in Hblocks. fold h w in Hblocks.
destruct (decide (is_block input h w s = true)); lia. }
pose proof (bld_count _ _ _ Hb) as Hn0.
destruct s as [r c]. unfold new_cell. simpl in Hs.
change (bool_decide (r = 0) || bool_decide (r = h - 1)
|| bool_decide (c = 0) || bool_decide (c = w - 1))
with (on_border h w (r, c)).
destruct (on_border h w (r, c)) eqn:Hon.
{ exists n, (set_cell gr r c CellWall).
split; [by rewrite put_Ok by done|].
apply (building_plain done n gr (r, c) CellWall); try done.
all: unfold is_block; by rewrite ?Hon. }
assert (1 ≤ r ≤ h - 2 ∧ 1 ≤ c ≤ w - 2) as Hrc.
{ unfold on_border in Hon. simpl in Hon.
rewrite !orb_false_iff, !bool_decide_eq_false in Hon. lia. }
assert (∃ ch, char_at input (r - 1) (c - 1) = Ok ch) as [ch Hch].
{ unfold char_at. rewrite bool_decide_eq_true_2 by lia.
destruct (lookup_lt_is_Some_2 input (Z.to_nat (r - 1))) as [line Hline].
{ unfold h, input_height in Hrc. lia. }
rewrite Hline. rewrite Forall_forall in Hlines.
specialize (Hlines line (list_elem_of_lookup_2 _ _ _ Hline)).
destruct (string_get_lt line (Z.to_nat (c - 1))) as [ch Hch]; [lia|].
rewrite Hch. by exists ch. }
rewrite Hch, bind_Ok.
assert (is_block input h w (r, c)
= negb (bool_decide (code ch = code "#")) && is_digit ch) as Hblk.
{ unfold is_block. simpl. by rewrite Hon, Hch. }
case_bool_decide as Hwall.
{ exists n, (set_cell gr r c CellWall).
split; [by rewrite put_Ok by done|].
apply (building_plain done n gr (r, c) CellWall); try done.
all: rewrite ?Hblk, ?Hon; try done.
all: by rewrite bool_decide_eq_true_2. }
simpl in Hblk. fold (is_digit ch). destruct (is_digit ch) eqn:Hdig.
- rewrite decide_True in Hbound by done.
assert (uint8 (n + 1) = n + 1) as Hg
by (unfold uint8; apply Z.mod_small; lia).
assert (0 < uint8 (code ch - code "0")) as Hc.
{ unfold is_digit in Hdig.
apply andb_true_iff in Hdig as [H1%bool_decide_eq_true
                       H9%bool_decide_eq_true].
change (code "1") with 49 in H1. change (code "9") with 57 in H9.
change (code "0") with 48. unfold uint8.
rewrite Z.mod_small by lia. lia. }
assert (int_incr n = Ok (n + 1)) as Hincr
by (unfold int_incr; by rewrite bool_decide_eq_true_2 by lia).
rewrite Hincr, bind_Ok.
eexists _, _. split; [by rewrite put_Ok by done|].
by apply (building_block done n gr (r, c)).
- exists n, gr. split; [done|]. by apply building_skip.
Qed.

Lemma new_level_spec :
∃ lv, new_level input = Ok lv ∧ height lv = h ∧ width lv = w ∧
inv lv ∧ pure (grid lv) ∧ maximal (grid lv).
Proof.
pose proof Hvalid as (Hne & Hlines & Hh & Hw & Hblocks).
rewrite new_level_unfold by (done || lia). fold h w.
destruct (forM_invariant (λ done st, building done st.1 st.2)
(all_cells h w) (new_cell input h w)
(0, replicate (Z.to_nat h) (replicate (Z.to_nat w) Cell0)))
as ([n gr] & Hrun & Hb).
- apply building_start.
- intros done s [n gr] [rest Hall] Hb.
destruct (new_cell_step done s rest n gr Hall Hb) as (n' & gr' & ? & ?).
by exists (n', gr').
- rewrite Hrun, bind_Ok. simpl in Hb. cbn [fst snd].
destruct Hb as [Hrect Hn Hrest Hbd Htidy Hrange Hused Hsingle].
set (lv0 := {| width := w; height := h; groups := n; grid := gr |}).
assert (inv lv0) as Hinv0.
{ split.
- split_and!; try done. intros r c x Hx Hon.
apply (Hbd (r, c) x Hx).
+ unfold on_border. simpl.
rewrite !orb_true_iff, !bool_decide_eq_true. tauto.
+ apply elem_of_all_cells, (cell_in_range h w gr); [done|by exists x].
- split; try done.
+ change (n ≤ 255). rewrite Hn. exact Hblocks.
+ intros p x Hx Hxt. by apply (Hrange p x).
+ intros p q x y Hx Hy Hxt Hyt Hg.
by rewrite (Hsingle p q x y). }
destruct (UpdateConnections_spec lv0 Hinv0)
as (lv & Hupd & (Hw' & Hh' & Hinv & Hs & Hc & Hm) & Hmax).
exists lv. split_and!; try done.
split.
+ apply Hm. intros p q x y Hx Hy Hxt Hyt Hg.
by rewrite (Hsingle p q x y Hx Hy Hxt Hyt Hg) in Hx; simplify_eq.
+ intros p x Hx Hxt.
destruct (same_shape_look _ _ p x (same_shape_sym _ _ Hs) Hx)
as (x0 & Hx0 & Ht0 & Hc0).
rewrite <- Hc0. apply (Hrange p x0 Hx0). congruence.
Qed.
End construction.

(** ** Reachable states *)

(** The states reachable from the level constructed from [input] by calls
    of [MoveGroup]. *)
Inductive reachable (input : list string) : Level → Prop :=
  | reach_new lv : new_level input = Ok lv → reachable input lv
  | reach_move lv g dr dc b lv' :
      reachable input lv → MoveGroup lv g dr dc = Ok (b, lv') →
      reachable input lv'.

(** What holds of every reachable state. *)
Definition canonical (lv : Level) : Prop :=
  inv lv ∧ pure (grid lv) ∧ maximal (grid lv).

Lemma MoveGroup_canonical lv g dr dc b lv' :
  canonical lv → MoveGroup lv g dr dc = Ok (b, lv') →
  canonical lv' ∧ height lv' = height lv ∧ width lv' = width lv.
Proof.
  intros (Hinv & Hpure & Hmax) Hrun.
  pose proof (MoveGroup_Ok_inv lv g dr dc (proj1 (proj1 Hinv)) _ Hrun)
    as (Hd & Hg & _).
  destruct (MoveGroup_spec lv g dr dc Hinv Hd) as
    (s & b' & ps & lv'' & _ & _ & Hrun' & Hres); [lia|].
  rewrite Hrun' in Hrun. simplify_eq. destruct b.
  - destruct Hres as (Hw & Hh & Hinv' & Hmax' & Hpure').
    split_and!; auto. split_and!; auto.
  - subst. split_and!; auto. split_and!; auto.
Qed.

Lemma reachable_canonical input lv :
  valid_input input → reachable input lv →
  canonical lv ∧ height lv = input_height input ∧
  width lv = input_width input.
Proof.
  intros Hvalid Hreach. induction Hreach as [lv Hnew|lv g dr dc b lv' _ IH Hrun].
  - destruct (new_level_spec input Hvalid)
      as (lv0 & Hnew0 & Hh & Hw & Hinv & Hpure & Hmax).
    rewrite Hnew0 in Hnew. simplify_eq. split_and!; try done.
  - destruct IH as (Hcan & Hh & Hw).
    destruct (MoveGroup_canonical lv g dr dc b lv' Hcan Hrun)
      as (Hcan' & Hh' & Hw').
    split_and!; [done | congruence | congruence].
Qed.

(** A small input used to exercise the theorems; [demo_level] is the
    level constructed from it. *)
Definition demo_input : list string := ["1 2 "; "  # "; "    "]%string.

Lemma demo_input_valid : valid_input demo_input.
Proof.
  split_and!.
  - done.
  - repeat constructor.
  - vm_compute. discriminate.
  - vm_compute. discriminate.
  - vm_compute. discriminate.
Qed.

Lemma demo_new : new_level demo_input = Ok demo_level.
Proof. vm_compute. reflexivity. Qed.

Lemma demo_reachable : reachable demo_input demo_level.
Proof. apply reach_new, demo_new. Qed.

Lemma demo_inv : inv demo_level.
Proof.
  by destruct (reachable_canonical demo_input demo_level demo_input_valid
                 demo_reachable) as ((? & _) & _).
Qed.

(** A row of three blocks, and the state after the left one is pushed
    against the middle one, which has its colour: the two merge and the
    third block, of another colour, is renumbered from [3] to [2]. *)
Definition row_input : list string := ["1 12"]%string.

Definition row_init : Level :=
  Eval vm_compute in
    match new_level row_input with Ok lv => lv | Err _ => mkLevel 0 0 0 [] end.

Definition row_merged : Level :=
  Eval vm_compute in
    match MoveGroup row_init 1 0 1 with
    | Ok (_, lv) => lv
    | Err _ => row_init
    end.

Lemma row_input_valid : valid_input row_input.
Proof.
  split_and!; [done | repeat constructor | vm_compute; discriminate..].
Qed.

Lemma row_merged_reachable : reachable row_input row_merged.
Proof.
  apply (reach_move row_input row_init 1 0 1 true).
  - apply reach_new. vm_compute. reflexivity.
  - vm_compute. reflexivity.
Qed.

(** ** Group identifiers are contiguous *)

(** X26. In every state reachable from a level constructed from a valid
    input (a non-empty rectangle of at most 255 rows and 255 columns that
    holds at most 255 blocks), whatever the sequence of [MoveGroup] calls,
    merges included, the group identifiers of the blocks are exactly
    [1..groups]: every block carries an identifier of that range, every
    identifier of the range labels a block, and no other cell carries a
    group. *)
Theorem group_ids_contiguous (input : list string) (lv : Level) :
  valid_input input → reachable input lv →
  (∀ p x, look (grid lv) p = Some x → type x = MOVABLE →
     1 ≤ group x ≤ groups lv) ∧
  (∀ k, 1 ≤ k ≤ groups lv →
     ∃ p x, look (grid lv) p = Some x ∧ type x = MOVABLE ∧ group x = k) ∧
  (∀ p x, look (grid lv) p = Some x → type x ≠ MOVABLE → group x = 0).
Proof.
  intros Hvalid Hreach.
  destruct (reachable_canonical input lv Hvalid Hreach)
    as (((_ & Hgr) & _) & _).
  split_and!.
  - apply (grouped_range _ _ Hgr).
  - apply (grouped_used _ _ Hgr).
  - apply (grouped_tidy _ _ Hgr).
Qed.

Lemma group_ids_contiguous_witness :
  (∀ p x, look (grid row_merged) p = Some x → type x = MOVABLE →
     1 ≤ group x ≤ groups row_merged) ∧
  (∀ k, 1 ≤ k ≤ groups row_merged →
     ∃ p x, look (grid row_merged) p = Some x ∧ type x = MOVABLE ∧
            group x = k) ∧
  (∀ p x, look (grid row_merged) p = Some x → type x ≠ MOVABLE →
     group x = 0).
Proof.
  apply (group_ids_contiguous row_input row_merged).
  - exact row_input_valid.
  - exact row_merged_reachable.
Defined.

(** ** Groups are connected *)

(** X30. In every state reachable from a level constructed from a valid
    input (a non-empty rectangle of at most 255 rows and 255 columns that
    holds at most 255 blocks), the cells of one group form one 4-connected
    region.  So a flood
    fill by [Regroup] from any block of a group leaves no cell with the old
    identifier, [RemoveUnusedGroupNumber] then runs without a failing
    assertion, and so does every further [MoveGroup]. *)
Theorem groups_connected (input : list string) (lv : Level) :
  valid_input input → reachable input lv →
  (∀ p q x y, look (grid lv) p = Some x → look (grid lv) q = Some y →
     type x = MOVABLE → type y = MOVABLE → group x = group y →
     rtc (linked (grid lv)) p q) ∧
  (∀ s1 s2 x1 x2, adj s1 s2 →
     look (grid lv) s1 = Some x1 → type x1 = MOVABLE →
     look (grid lv) s2 = Some x2 → type x2 = MOVABLE →
     group x2 ≠ group x1 →
     ∃ gr lv',
       Regroup (regroup_fuel (group x2) (grid lv)) (group x2) (group x1)
         s2.1 s2.2 (grid lv) = Ok gr ∧
       (∀ p x, look gr p = Some x → group x ≠ group x2) ∧
       RemoveUnusedGroupNumber (group x2) (with_grid lv gr) = Ok lv') ∧
  (∀ g dr dc, valid_dir dr dc = true → 1 ≤ g ≤ groups lv →
     ∃ b lv', MoveGroup lv g dr dc = Ok (b, lv')).
Proof.
  intros Hvalid Hreach.
  destruct (reachable_canonical input lv Hvalid Hreach) as ((Hinv & _) & _).
  pose proof Hinv as [_ Hgr]. split_and!.
  - apply (grouped_connected _ _ Hgr).
  - intros s1 s2 x1 x2 Hadj Hx1 Ht1 Hx2 Ht2 Hne.
    destruct (merge_regroup lv s1 s2 x1 x2 Hinv Hx1 Ht1 Hx2 Ht2 Hne)
      as (gr & Hrun & _ & Hlook).
    destruct (merge_spec lv s1 s2 x1 x2 Hinv Hadj Hx1 Ht1 Hx2 Ht2 Hne)
      as (lv' & Hmerge & _).
    unfold merge in Hmerge. rewrite Hrun, bind_Ok in Hmerge.
    exists gr, lv'. split_and!; [done | | done].
    intros p x Hx Hg. rewrite Hlook in Hx.
    destruct (look (grid lv) p) as [x0|]; [|done]. simplify_eq/=.
    pose proof (grouped_range _ _ Hgr s1 x1 Hx1 Ht1).
    pose proof (grouped_bound _ _ Hgr).
    case_bool_decide; simpl in *; [|done].
    unfold uint8 in Hg. rewrite Z.mod_small in Hg by lia. done.
  - intros g dr dc Hd Hg.
    destruct (MoveGroup_spec lv g dr dc Hinv Hd Hg)
      as (s & b & ps & lv' & _ & _ & Hrun & _).
    by exists b, lv'.
Qed.

Lemma groups_connected_witness :
  (∀ p q x y, look (grid row_merged) p = Some x →
     look (grid row_merged) q = Some y →
     type x = MOVABLE → type y = MOVABLE → group x = group y →
     rtc (linked (grid row_merged)) p q) ∧
  (∀ s1 s2 x1 x2, adj s1 s2 →
     look (grid row_merged) s1 = Some x1 → type x1 = MOVABLE →
     look (grid row_merged) s2 = Some x2 → type x2 = MOVABLE →
     group x2 ≠ group x1 →
     ∃ gr lv',
       Regroup (regroup_fuel (group x2) (grid row_merged)) (group x2)
         (group x1) s2.1 s2.2 (grid row_merged) = Ok gr ∧
       (∀ p x, look gr p = Some x → group x ≠ group x2) ∧
       RemoveUnusedGroupNumber (group x2) (with_grid row_merged gr)
       = Ok lv') ∧
  (∀ g dr dc, valid_dir dr dc = true → 1 ≤ g ≤ groups row_merged →
     ∃ b lv', MoveGroup row_merged g dr dc = Ok (b, lv')).
Proof.
  apply (groups_connected row_input row_merged).
  - exact row_input_valid.
  - exact row_merged_reachable.
Defined.

(** ** Failure of a push *)

(** X27. On a grid state that satisfies the invariant (a walled rectangle
    of at most 257 rows and 257 columns with at most 255 groups, whose
    identifiers [1..groups] are all in use and label connected regions), for
    a group identifier of the range [1..groups] and a horizontal direction,
    [MoveGroup] always returns, and it returns failure exactly when some
    block that a block of the group transitively grabs has a wall in the
    push direction. *)
Theorem MoveGroup_fails_iff_wall (lv : Level) (g dc : Z) :
  inv lv → 1 ≤ g ≤ groups lv → dc = -1 ∨ dc = 1 →
  ∃ b lv', MoveGroup lv g 0 dc = Ok (b, lv') ∧
    (b = false ↔
     ∃ p q, group_at (grid lv) g p ∧ rtc (edge (0, dc) (grid lv)) p q ∧
            blocked (0, dc) (grid lv) q).
Proof.
  intros Hinv Hg Hdc.
  assert (valid_dir 0 dc = true) as Hd by (by destruct Hdc as [-> | ->]).
  destruct (MoveGroup_spec lv g 0 dc Hinv Hd Hg)
    as (s & b & ps & lv' & Hfirst & Hgrab & Hrun & _).
  exists b, lv'. split; [done|].
  pose proof Hfirst as (_ & _ & _ & Hs & _). split.
  - intros ->. destruct Hgrab as [(_ & _ & _ & Hreach) (q & Hq & Hbl)].
    exists s, q. split_and!; auto.
  - intros (p & q & (x & Hx & Hgx) & Hpq & Hbl).
    destruct b; [|done]. exfalso.
    destruct Hinv as [Hsh Hgr]. destruct Hs as (xs & Hxs & Hgs).
    assert (type x = MOVABLE) as Hxt.
    { destruct (decide (type x = MOVABLE)) as [|Hn]; [done|].
      pose proof (grouped_tidy _ _ Hgr p x Hx Hn). lia. }
    assert (type xs = MOVABLE) as Hxst.
    { destruct (decide (type xs = MOVABLE)) as [|Hn]; [done|].
      pose proof (grouped_tidy _ _ Hgr s xs Hxs Hn). lia. }
    apply (grabbed_not_stuck (0, dc) (grid lv) s ps Hgrab s).
    + by destruct Hgrab as [(_ & _ & ? & _) _].
    + exists q. split; [|done]. etrans; [|exact Hpq].
      eapply rtc_subrel; [intros ??; apply linked_edge|].
      apply (grouped_connected _ _ Hgr s p xs x); auto. congruence.
Qed.

Lemma MoveGroup_fails_iff_wall_witness :
  ∃ b lv', MoveGroup demo_level 1 0 (-1) = Ok (b, lv') ∧
    (b = false ↔
     ∃ p q, group_at (grid demo_level) 1 p ∧
            rtc (edge (0, -1) (grid demo_level)) p q ∧
            blocked (0, -1) (grid demo_level) q).
Proof.
  apply (MoveGroup_fails_iff_wall demo_level 1 (-1)).
  - exact demo_inv.
  - vm_compute. split; discriminate.
  - by left.
Defined.

(** ** The ordering of states *)

(** A three-way comparison that is a strict total order. *)
Record good_compare {A : Type} (cmp : A → A → comparison) : Prop := {
  cmp_eq : ∀ a b, cmp a b = Eq ↔ a = b;
  cmp_opp : ∀ a b, cmp b a = CompOpp (cmp a b);
  cmp_trans : ∀ a b c, cmp a b = Lt → cmp b c = Lt → cmp a c = Lt
}.

Lemma Z_compare_good : good_compare Z.compare.
Proof.
  split.
  - apply Z.compare_eq_iff.
  - intros a b. apply Z.compare_antisym.
  - intros a b c. rewrite !Z.compare_lt_iff. lia.
Qed.

Lemma lex_Eq c1 c2 : lex c1 c2 = Eq ↔ c1 = Eq ∧ c2 = Eq.
Proof. destruct c1; simpl; intuition congruence. Qed.

Lemma lex_Lt c1 c2 : lex c1 c2 = Lt ↔ c1 = Lt ∨ (c1 = Eq ∧ c2 = Lt).
Proof. destruct c1; simpl; intuition congruence. Qed.

Lemma lex_opp c1 c2 : CompOpp (lex c1 c2) = lex (CompOpp c1) (CompOpp c2).
Proof. by destruct c1. Qed.

Lemma pair_compare_good {A B : Type} (c1 : A → A → comparison)
    (c2 : B → B → comparison) :
  good_compare c1 → good_compare c2 →
  good_compare (λ p q : A * B, lex (c1 p.1 q.1) (c2 p.2 q.2)).
Proof.
  intros [He1 Ho1 Ht1] [He2 Ho2 Ht2]. split.
  - intros [a b] [a' b']. simpl. rewrite lex_Eq, He1, He2.
    split; [intros [-> ->]; done | intros ?; by simplify_eq].
  - intros [a b] [a' b']. simpl. by rewrite lex_opp, Ho1, Ho2.
  - intros [a b] [a' b'] [a'' b'']. simpl. rewrite !lex_Lt.
    intros [H1|[H1 H2]] [H1'|[H1' H2']].
    + left. by eapply Ht1.
    + left. apply He1 in H1'. by subst.
    + left. apply He1 in H1. by subst.
    + right. apply He1 in H1, H1'. subst. split; [by apply He1|].
      by eapply Ht2.
Qed.

Lemma map_compare_good {A B : Type} (f : A → B) (c : B → B → comparison) :
  Inj (=) (=) f → good_compare c → good_compare (λ a b, c (f a) (f b)).
Proof.
  intros Hf [He Ho Ht]. split.
  - intros a b. rewrite He. split; [apply Hf | by intros ->].
  - intros a b. apply Ho.
  - intros a b c'. apply Ht.
Qed.

Lemma vector_compare_good {A : Type} (c : A → A → comparison) :
  good_compare c → good_compare (vector_compare c).
Proof.
  intros [He Ho Ht]. split.
  - induction a as [|x a IH]; intros [|y b]; simpl; try done.
    rewrite lex_Eq, He, IH.
    split; [intros [-> ->]; done | intros ?; by simplify_eq].
  - induction a as [|x a IH]; intros [|y b]; simpl; try done.
    by rewrite lex_opp, Ho, IH.
  - induction a as [|x a IH]; intros [|y b] [|z c']; simpl; try done.
    rewrite !lex_Lt. intros [H1|[H1 H2]] [H1'|[H1' H2']].
    + left. by eapply Ht.
    + left. apply He in H1'. by subst.
    + left. apply He in H1. by subst.
    + right. apply He in H1, H1'. subst. split; [by apply He|].
      by eapply IH.
Qed.

Lemma Cell_compare_good : good_compare Cell_compare.
Proof.
  apply (map_compare_good
           (λ x, (CellType_rank (type x), (color x, group x)))
           (λ p q, lex (p.1 ?= q.1) (lex (p.2.1 ?= q.2.1) (p.2.2 ?= q.2.2)))).
  - intros [t1 c1 g1] [t2 c2 g2] ?. simplify_eq/=.
    f_equal. by destruct t1, t2.
  - apply (pair_compare_good Z.compare
             (λ p q : Z * Z, lex (p.1 ?= q.1) (p.2 ?= q.2)) Z_compare_good).
    apply (pair_compare_good Z.compare Z.compare Z_compare_good
             Z_compare_good).
Qed.

Lemma Level_compare_good : good_compare Level_compare.
Proof.
  apply (map_compare_good
           (λ lv, (width lv, (height lv, (groups lv, grid lv))))
           (λ p q, lex (p.1 ?= q.1)
                     (lex (p.2.1 ?= q.2.1)
                        (lex (p.2.2.1 ?= q.2.2.1)
                           (vector_compare (vector_compare Cell_compare)
                              p.2.2.2 q.2.2.2))))).
  - intros [w1 h1 n1 g1] [w2 h2 n2 g2] ?. by simplify_eq/=.
  - apply (pair_compare_good Z.compare
             (λ p q : Z * (Z * Grid),
                lex (p.1 ?= q.1)
                  (lex (p.2.1 ?= q.2.1)
                     (vector_compare (vector_compare Cell_compare)
                        p.2.2 q.2.2))) Z_compare_good).
    apply (pair_compare_good Z.compare
             (λ p q : Z * Grid,
                lex (p.1 ?= q.1)
                  (vector_compare (vector_compare Cell_compare) p.2 q.2))
             Z_compare_good).
    apply (pair_compare_good Z.compare
             (vector_compare (vector_compare Cell_compare)) Z_compare_good).
    apply vector_compare_good, vector_compare_good, Cell_compare_good.
Qed.

(** Two states compare equal exactly when they are equal. *)
Lemma Level_compare_eq a b : Level_compare a b = Eq ↔ a = b.
Proof. apply (cmp_eq _ Level_compare_good). Qed.

#[global] Instance Level_le_total : Total Level_le.
Proof.
  intros a b. unfold Level_le.
  rewrite (cmp_opp _ Level_compare_good a b).
  destruct (Level_compare a b); simpl; auto.
Qed.

#[global] Instance Level_le_trans : Transitive Level_le.
Proof.
  intros a b c. unfold Level_le.
  destruct (Level_compare a b) eqn:Hab; [| |done].
  - apply Level_compare_eq in Hab. by subst.
  - destruct (Level_compare b c) eqn:Hbc; [| |done].
    + apply Level_compare_eq in Hbc. subst. by rewrite Hab.
    + by rewrite (cmp_trans _ Level_compare_good a b c Hab Hbc).
Qed.

#[global] Instance Level_le_antisym : AntiSymm (=) Level_le.
Proof.
  intros a b. unfold Level_le.
  rewrite (cmp_opp _ Level_compare_good a b).
  destruct (Level_compare a b) eqn:Hab; simpl; try done.
  intros _ _. by apply Level_compare_eq.
Qed.

(** ** [std::unique] on a sorted vector *)

Lemma unique_cons y z l :
  unique (y :: z :: l)
  = if bool_decide (y = z) then unique (z :: l) else y :: unique (z :: l).
Proof. reflexivity. Qed.

Lemma elem_of_unique l x : x ∈ unique l ↔ x ∈ l.
Proof.
  induction l as [|y l IH]; [done|]. destruct l as [|z l].
  { done. }
  rewrite unique_cons. case_bool_decide as Hyz.
  - subst z. rewrite IH. rewrite !elem_of_cons. tauto.
  - rewrite elem_of_cons, IH. rewrite !elem_of_cons. tauto.
Qed.

Lemma NoDup_unique l : StronglySorted Level_le l → NoDup (unique l).
Proof.
  induction l as [|y l IH]; intros Hs; [constructor|].
  apply StronglySorted_cons in Hs as [Hy Hs]. destruct l as [|z l].
  { apply NoDup_singleton. }
  rewrite unique_cons. case_bool_decide as Hyz; [by apply IH|].
  apply NoDup_cons. split; [|by apply IH].
  rewrite elem_of_unique. intros Hin.
  apply StronglySorted_cons in Hs as [Hz _].
  rewrite Forall_forall in Hy, Hz.
  apply elem_of_cons in Hin as [->|Hin]; [done|].
  apply Hyz. apply (anti_symm Level_le).
  - apply Hy. by left.
  - by apply Hz.
Qed.

(** ** The successor generator *)

(** One legal push: a successful [MoveGroup] of an existing group in a
    horizontal direction (which includes the gravity sweep and the merge
    pass). *)
Definition legal_push (lv lv' : Level) : Prop :=
  ∃ g dc, 1 ≤ g ≤ groups lv ∧ (dc = -1 ∨ dc = 1) ∧
          MoveGroup lv g 0 dc = Ok (true, lv').

Lemma try_moves_spec lv :
  inv lv →
  ∃ res, try_moves lv = Ok (lv, res) ∧ ∀ lv', lv' ∈ res ↔ legal_push lv lv'.
Proof.
  intros Hinv. unfold try_moves.
  match goal with |- ∃ res, forM ?l ?body ?s0 = _ ∧ _ =>
    destruct (forM_invariant
      (λ done (st : Level * list Level), st.1 = lv ∧
         ∀ lv', lv' ∈ st.2 ↔
           ∃ g dc, (g, dc) ∈ done ∧ MoveGroup lv g 0 dc = Ok (true, lv'))
      l body s0) as ([copy res] & Hrun & Hcopy & Hres);
    [| | assert (∀ g dc, (g, dc) ∈ l ↔
                   1 ≤ g ≤ groups lv ∧ (dc = -1 ∨ dc = 1)) as Hl]
  end.
  - split; [done|]. intros lv'. split; [by intros ?%elem_of_nil|].
    by intros (g & dc & ?%elem_of_nil & _).
  - intros done [g dc] [copy res] [rest Hl] [Hcopy Hres]. simpl in Hcopy, Hres.
    subst copy.
    assert (1 ≤ g ≤ groups lv ∧ (dc = -1 ∨ dc = 1)) as [Hg Hdc].
    { assert ((g, dc) ∈ (g ← seqZ 1 (groups lv); dc ← [-1; 1]; [(g, dc)]))
        as Hin by (rewrite Hl; apply elem_of_app; right; by left).
      apply elem_of_cells in Hin as [Hg Hdc]. simpl in Hg, Hdc.
      apply elem_of_seqZ in Hg. rewrite !elem_of_cons, elem_of_nil in Hdc.
      split; [lia | tauto]. }
    pose proof (grouped_bound _ _ (proj2 Hinv)) as Hn.
    assert (uint8 g = g) as -> by (unfold uint8; apply Z.mod_small; lia).
    assert (valid_dir 0 dc = true) as Hd by (by destruct Hdc as [-> | ->]).
    destruct (MoveGroup_spec lv g 0 dc Hinv Hd Hg)
      as (s & b & ps & lv1 & _ & _ & Hmove & Hb).
    rewrite Hmove, bind_Ok.
    assert (∀ lv', (∃ g' dc', (g', dc') ∈ done ++ [(g, dc)] ∧
                      MoveGroup lv g' 0 dc' = Ok (true, lv')) ↔
                   lv' ∈ res ∨ (b = true ∧ lv' = lv1)) as Hsplit.
    { intros lv'. rewrite Hres. split.
      - intros (g' & dc' & [Hin|Hin%list_elem_of_singleton]%elem_of_app & Hm).
        + left. by exists g', dc'.
        + right. simplify_eq. rewrite Hmove in Hm. by simplify_eq.
      - intros [(g' & dc' & Hin & Hm)|[-> ->]].
        + exists g', dc'. split; [apply elem_of_app; by left | done].
        + exists g, dc. split; [apply elem_of_app; right; by left | done]. }
    destruct b.
    + eexists. split; [done|]. split; [done|]. intros lv'. simpl.
      rewrite Hsplit, elem_of_app, list_elem_of_singleton. tauto.
    + subst lv1. eexists. split; [done|]. split; [done|]. intros lv'. simpl.
      rewrite Hsplit. split; [by left|]. by intros [?|[? _]].
  - intros g dc. rewrite elem_of_cells. simpl.
    rewrite elem_of_seqZ, !elem_of_cons, elem_of_nil. split.
    + intros [? ?]. split; [lia | tauto].
    + intros [? ?]. split; [lia | tauto].
  - simpl in Hcopy. subst copy. exists res. split; [done|].
    intros lv'. simpl in Hres. rewrite Hres. unfold legal_push. split.
    + intros (g & dc & Hin%Hl & Hm). exists g, dc. tauto.
    + intros (g & dc & Hg & Hdc & Hm). exists g, dc. split; [|done].
      by apply Hl.
Qed.

(** X28. On a grid state that satisfies the invariant (a walled rectangle
    of at most 257 rows and 257 columns with at most 255 groups, whose
    identifiers [1..groups] are all in use and label connected regions),
    [Successors] returns a list without duplicates whose elements are
    exactly the states obtained by one legal push; the working copy it hands
    to [MoveGroup] is the input state again after every failed attempt, and
    the input state itself is only read. *)
Theorem Successors_spec (lv : Level) :
  inv lv →
  ∃ l res, try_moves lv = Ok (lv, res) ∧ Successors lv = Ok l ∧ NoDup l ∧
    ∀ lv', lv' ∈ l ↔ legal_push lv lv'.
Proof.
  intros Hinv. destruct (try_moves_spec lv Hinv) as (res & Hrun & Hres).
  exists (unique (merge_sort Level_le res)), res. split_and!.
  - done.
  - unfold Successors. by rewrite Hrun.
  - apply NoDup_unique, StronglySorted_merge_sort; apply _.
  - intros lv'. rewrite elem_of_unique, merge_sort_Permutation. apply Hres.
Qed.

Lemma Successors_spec_witness :
  ∃ l res, try_moves demo_level = Ok (demo_level, res) ∧
    Successors demo_level = Ok l ∧ NoDup l ∧
    ∀ lv', lv' ∈ l ↔ legal_push demo_level lv'.
Proof. apply (Successors_spec demo_level). exact demo_inv. Defined.

(** ** [MarkColorVisited] is a flood fill over one colour *)

Definition vis (V : list (list bool)) (p : pos) : Prop :=
  cell V p.1 p.2 = Some true.

(** The [visited] table with the cells at [ps] marked. *)
Definition marks (V : list (list bool)) (ps : list pos) : list (list bool) :=
  foldl (λ v p, set_cell v p.1 p.2 true) V ps.

(** A block of colour [k]. *)
Definition color_at (G : Grid) (k : Z) (p : pos) : Prop :=
  ∃ x, look G p = Some x ∧ type x = MOVABLE ∧ color x = k.

(** Adjacent blocks of one colour. *)
Definition color_step (G : Grid) (p q : pos) : Prop :=
  adj p q ∧ ∃ k, color_at G k p ∧ color_at G k q.

Lemma cell_set_cell_pos {A : Type} (g : list (list A)) (p q : pos) (x : A) :
  is_Some (cell g p.1 p.2) →
  cell (set_cell g p.1 p.2 x) q.1 q.2
  = if decide (q = p) then Some x else cell g q.1 q.2.
Proof.
  intros Hp. rewrite cell_set_cell by done.
  destruct p as [r c], q as [r' c']; simpl.
  destruct (decide (r' = r ∧ c' = c)) as [[-> ->]|Hne].
  - by rewrite decide_True.
  - rewrite decide_False; [done|]. intros ?; simplify_eq. by destruct Hne.
Qed.

Lemma cell_marks V ps q :
  (∀ p, p ∈ ps → is_Some (cell V p.1 p.2)) →
  cell (marks V ps) q.1 q.2
  = if decide (q ∈ ps) then Some true else cell V q.1 q.2.
Proof.
  revert V. induction ps as [|p ps IH]; intros V Hps.
  - rewrite decide_False by apply not_elem_of_nil. done.
  - assert (is_Some (cell V p.1 p.2)) as Hp by (apply Hps; by left).
    change (marks V (p :: ps)) with (marks (set_cell V p.1 p.2 true) ps).
    rewrite IH.
    + rewrite cell_set_cell_pos by done.
      destruct (decide (q ∈ ps)) as [Hin|Hout].
      * rewrite decide_True by (by right). done.
      * destruct (decide (q = p)) as [->|Hne].
        -- rewrite decide_True by (by left). done.
        -- rewrite decide_False; [done|].
           intros [?|?]%elem_of_cons; done.
    + intros p' Hp'. rewrite cell_set_cell_pos by done.
      destruct (decide (p' = p)); [eauto|]. apply Hps. by right.
Qed.

Lemma rect_marks h w V ps : rect h w V → rect h w (marks V ps).
Proof.
  revert V. induction ps as [|p ps IH]; intros V HV; simpl; [done|].
  apply IH. by apply rect_set_cell.
Qed.

Lemma marks_app V ps qs : marks V (ps ++ qs) = marks (marks V ps) qs.
Proof. unfold marks. by rewrite foldl_app. Qed.

Lemma count_unvisited_marks V ps :
  NoDup ps → (∀ p, p ∈ ps → cell V p.1 p.2 = Some false) →
  (count_cells negb (marks V ps) + length ps = count_cells negb V)%nat.
Proof.
  revert V. induction ps as [|p ps IH]; intros V Hnd Hps; simpl; [lia|].
  apply NoDup_cons in Hnd as [Hp Hnd].
  pose proof (count_cells_set_cell negb V p.1 p.2 true false
                (Hps p ltac:(by left))) as Hc. simpl in Hc.
  enough ((count_cells negb (marks (set_cell V p.1 p.2 true) ps) + length ps
           = count_cells negb (set_cell V p.1 p.2 true))%nat) by lia.
  apply IH; [done|]. intros q Hq.
  rewrite cell_set_cell_pos by (rewrite (Hps p); [eauto | by left]).
  rewrite decide_False; [apply Hps; by right|]. by intros ->.
Qed.

Section mark.
Context (h w : Z) (G : Grid) (k : Z) (HG : walled h w G).

(** What a call of [MarkColorVisited] at [s] has marked. *)
Definition marked (V : list (list bool)) (s : pos) (ps : list pos) : Prop :=
NoDup ps ∧ (∀ p, p ∈ ps → color_at G k p ∧ ¬ vis V p) ∧ s ∈ ps ∧
(∀ p, p ∈ ps → rtc (color_step G) s p) ∧
(∀ p q, p ∈ ps → adj p q → color_at G k q → vis V q ∨ q ∈ ps).

Definition mark_inv (V : list (list bool)) (s : pos) (ds : list pos)
(N : list pos) : Prop :=
NoDup N ∧ (∀ p, p ∈ N → color_at G k p ∧ ¬ vis V p) ∧ s ∈ N ∧
(∀ p, p ∈ N → rtc (color_step G) s p) ∧
(∀ p q, p ∈ N → p ≠ s → adj p q → color_at G k q → vis V q ∨ q ∈ N) ∧
(∀ δ, δ ∈ ds → color_at G k (step s δ) →
 vis V (step s δ) ∨ step s δ ∈ N).

Definition mark_ok (fuel : nat) : Prop :=
∀ V s, rect h w V → color_at G k s → ¬ vis V s →
(count_cells negb V < fuel)%nat →
∃ ps, MarkColorVisited fuel G s.1 s.2 V = Ok (marks V ps) ∧
  marked V s ps.

Lemma color_at_inside p :
color_at G k p → 1 ≤ p.1 ≤ h - 2 ∧ 1 ≤ p.2 ≤ w - 2.
Proof.
intros (x & Hx & Hxt & _).
destruct (walled_inside _ _ _ HG) as (_ & _ & _ & Hins).
apply Hins. by exists x.
Qed.

Lemma unvisited_false V p :
rect h w V → color_at G k p → ¬ vis V p → cell V p.1 p.2 = Some false.
Proof.
intros HV Hp%color_at_inside Hv.
destruct (proj2 (cell_in_range h w V p.1 p.2 HV)) as [[] Hb]; [lia| |done].
by destruct Hv.
Qed.

Lemma vis_marks V N p :
rect h w V → (∀ p, p ∈ N → color_at G k p) →
vis (marks V N) p ↔ vis V p ∨ p ∈ N.
Proof.
intros HV HN. unfold vis at 1. rewrite cell_marks.
- destruct (decide (p ∈ N)); [tauto|]. unfold vis. tauto.
- intros q Hq%HN%color_at_inside. apply (cell_in_range h w); [done|lia].
Qed.

Lemma mark_dir_spec fuel V s ds N δ x :
mark_ok fuel → rect h w V → mark_inv V s ds N → δ ∈ dirs →
look G s = Some x → color x = k →
(count_cells negb V < S fuel)%nat →
∃ N', mark_dir (MarkColorVisited fuel G) G s.1 s.2 δ (marks V N)
= Ok (marks V N') ∧ mark_inv V s (ds ++ [δ]) N'.
Proof.
intros IH HV (Hnd & HN & Hs & Hreach & Hcl & Hds) Hδ Hx Hxk Hfuel.
pose proof (color_at_inside s (proj1 (HN s Hs))) as Hsin.
pose proof (dirs_unit δ Hδ) as Hu.
pose proof HG as (Hrect & _).
assert (∀ p, p ∈ N → color_at G k p) as HNc by (intros; by apply HN).
destruct (proj2 (cell_in_range h w G (s.1 + δ.1) (s.2 + δ.2) Hrect))
as [n Hn]; [lia|].
assert (look G (step s δ) = Some n) as Hn' by exact Hn.
unfold mark_dir.
assert (at_ G (s.1 + δ.1) (s.2 + δ.2) = Ok n) as -> by (by apply at_Ok).
rewrite bind_Ok.
(* nothing to mark in this direction *)
assert ((color_at G k (step s δ) → vis (marks V N) (step s δ)) →
  mark_inv V s (ds ++ [δ]) N) as Hskip.
{ intros Hno. split_and!; try done.
intros δ' [Hδ'| ->%list_elem_of_singleton]%elem_of_app; [by apply Hds|].
intros Hc. by apply (vis_marks V N _ HV HNc), Hno. }
unfold is_type. case_bool_decide as Hnt.
2:{ exists N. split; [done|]. apply Hskip. intros (y & Hy & Hyt & _).
congruence. }
assert (at_ G s.1 s.2 = Ok x) as -> by (by apply at_Ok).
rewrite bind_Ok. case_bool_decide as Hnc.
2:{ exists N. split; [done|]. apply Hskip. intros (y & Hy & Hyt & Hyc).
congruence. }
assert (color_at G k (step s δ)) as Hq by (exists n; split_and!; congruence).
pose proof (color_at_inside _ Hq) as Hqin.
destruct (proj2 (cell_in_range h w (marks V N) (s.1 + δ.1) (s.2 + δ.2)
             (rect_marks h w V N HV))) as [v Hv];
[unfold step in Hqin; simpl in Hqin; lia|].
assert (at_ (marks V N) (s.1 + δ.1) (s.2 + δ.2) = Ok v) as ->
by (by apply at_Ok).
rewrite bind_Ok. destruct v; simpl.
{ exists N. split; [done|]. by apply Hskip. }
assert (¬ vis (marks V N) (step s δ)) as Hnv.
{ unfold vis. change (cell (marks V N) (step s δ).1 (step s δ).2)
with (cell (marks V N) (s.1 + δ.1) (s.2 + δ.2)). by rewrite Hv. }
destruct (IH (marks V N) (step s δ)) as (ps & Hrun & Hnd' & Hps & Hqps
                                    & Hreach' & Hcl').
{ by apply rect_marks. }
{ done. }
{ done. }
{ pose proof (count_unvisited_marks V N Hnd) as Hc.
rewrite <- Hc in Hfuel.
- assert (0 < length N)%nat; [|lia].
destruct N; [by apply elem_of_nil in Hs | simpl; lia].
- intros p Hp. apply unvisited_false; [done | apply HN..]; done. }
assert (∀ p, p ∈ ps → color_at G k p ∧ ¬ vis V p ∧ p ∉ N) as Hps'.
{ intros p Hp. destruct (Hps p Hp) as [Hc Hv']. split; [done|].
rewrite (vis_marks V N _ HV HNc) in Hv'. tauto. }
exists (N ++ ps). split.
{ simpl in Hrun. rewrite Hrun. by rewrite marks_app. }
split_and!.
- apply NoDup_app. split_and!; [done | | done].
intros p Hp Hp'. by destruct (Hps' p Hp') as (_ & _ & ?).
- intros p [Hp|Hp]%elem_of_app; [by apply HN|].
destruct (Hps' p Hp) as (? & ? & _). done.
- apply elem_of_app. by left.
- intros p [Hp|Hp]%elem_of_app; [by apply Hreach|].
eapply rtc_l; [|by apply Hreach'].
split; [apply adj_dirs; by exists δ|]. exists k. split; [|done].
by apply HN.
- intros p q [Hp|Hp]%elem_of_app Hne Hadj Hc.
+ destruct (Hcl p q Hp Hne Hadj Hc); [by left|].
right. apply elem_of_app. by left.
+ destruct (Hcl' p q Hp Hadj Hc) as [Hv'|Hin].
* apply (vis_marks V N _ HV HNc) in Hv' as [?|?]; [by left|].
right. apply elem_of_app. by left.
* right. apply elem_of_app. by right.
- intros δ' [Hδ'| ->%list_elem_of_singleton]%elem_of_app Hc.
+ destruct (Hds δ' Hδ' Hc); [by left|]. right. apply elem_of_app.
by left.
+ right. apply elem_of_app. by right.
Qed.

Lemma MarkColorVisited_spec fuel : mark_ok fuel.
Proof.
induction fuel as [|fuel IH]; intros V s HV Hs Hv Hfuel; [lia|].
pose proof (unvisited_false V s HV Hs Hv) as Hfalse.
pose proof Hs as (x & Hx & Hxt & Hxk).
cbn [MarkColorVisited]. rewrite put_Ok, bind_Ok by (rewrite Hfalse; eauto).
change (set_cell V s.1 s.2 true) with (marks V [s]).
destruct (forM_invariant
      (λ ds V', ∃ N, V' = marks V N ∧ mark_inv V s ds N)
      dirs (mark_dir (MarkColorVisited fuel G) G s.1 s.2)
      (marks V [s])) as (V' & Hrun & N & -> & Hinv).
- exists [s]. split; [done|]. split_and!.
+ apply NoDup_singleton.
+ by intros p ->%list_elem_of_singleton.
+ by apply list_elem_of_singleton.
+ by intros p ->%list_elem_of_singleton.
+ by intros p q ->%list_elem_of_singleton.
+ intros δ []%elem_of_nil.
- intros ds δ V' [rest Hdirs] (N & -> & Hinv).
destruct (mark_dir_spec fuel V s ds N δ x IH HV Hinv) as (N' & Hrun & Hinv');
try done.
{ rewrite Hdirs. apply elem_of_app. right. by left. }
exists (marks V N'). split; [done|]. by exists N'.
- exists N. split; [done|].
destruct Hinv as (Hnd & HN & HsN & Hreach & Hcl & Hds).
split_and!; try done.
intros p q Hp Hadj Hc. destruct (decide (p = s)) as [->|Hne].
+ apply adj_dirs in Hadj as (δ & Hδ & ->). by apply Hds.
+ by eapply Hcl.
Qed.
End mark.

(** ** The win detector *)

(** Every chromatic colour forms one region: any two blocks of one colour
    [k > 0] are joined by a path of adjacent blocks of that colour. *)
Definition one_region_per_color (G : Grid) : Prop :=
  ∀ k p q, 0 < k → color_at G k p → color_at G k q →
    rtc (color_step G) p q.

Lemma color_at_unique G k k' p : color_at G k p → color_at G k' p → k = k'.
Proof. intros (x & Hx & _ & <-) (y & Hy & _ & <-). congruence. Qed.

Lemma color_step_sym G p q : color_step G p q → color_step G q p.
Proof.
  intros (Hadj & k & Hp & Hq). split; [by apply adj_sym|]. by exists k.
Qed.

Lemma color_step_color G k p q :
  color_step G p q → color_at G k p → color_at G k q.
Proof.
  intros (_ & k' & Hp & Hq) Hk. by rewrite (color_at_unique G k k' p).
Qed.

Lemma rtc_color_step_sym G p q :
  rtc (color_step G) p q → rtc (color_step G) q p.
Proof.
  induction 1 as [|p p' q Hstep _ IH]; [done|].
  eapply rtc_r; [done|]. by apply color_step_sym.
Qed.

Lemma rect_visited {A : Type} h w (g : list (list A)) :
  rect h w g →
  rect h w (replicate (Z.to_nat h) (replicate (Z.to_nat w) false)).
Proof.
  intros [Hh Hw]. destruct g as [|row rows].
  - simpl in Hh. subst h. split; [done|]. constructor.
  - apply Forall_cons in Hw as [Hrow _]. apply rect_replicate; lia.
Qed.

Section solved.
Context (lv : Level) (Hlv : shaped lv).

Let h := height lv.
Let w := width lv.
Let G := grid lv.

(** A chromatic block. *)
Definition chroma (p : pos) : Prop := ∃ k, 0 < k ∧ color_at G k p.

(** The invariant of the loop of [Solved]. *)
Record scanning (done : list pos) (V : list (list bool)) (C : gset Z)
: Prop := mkScanning {
scan_rect : rect h w V;
scan_chroma : ∀ p, vis V p → chroma p;
scan_closed : ∀ p q, vis V p → color_step G p q → vis V q;
scan_done : ∀ p, p ∈ done → chroma p → vis V p;
scan_colors : ∀ k, k ∈ C ↔ ∃ p, vis V p ∧ color_at G k p;
scan_connected :
∀ k p q, vis V p → vis V q → color_at G k p → color_at G k q →
rtc (color_step G) p q
}.

Lemma scanning_closed_rtc done V C p q :
scanning done V C → vis V p → rtc (color_step G) p q → vis V q.
Proof.
intros Hsc Hp Hpq. induction Hpq as [|p p' q Hstep _ IH]; [done|].
apply IH. by apply (scan_closed _ _ _ Hsc p).
Qed.

Lemma scanning_start :
scanning [] (replicate (Z.to_nat h) (replicate (Z.to_nat w) false)) ∅.
Proof.
assert (∀ p, ¬ vis (replicate (Z.to_nat h) (replicate (Z.to_nat w) false)) p)
as Hnone.
{ intros p Hp. by apply look_replicate in Hp. }
destruct Hlv as (Hrect & _).
split.
- by apply (rect_visited h w G).
- intros p Hp. by apply Hnone in Hp.
- intros p q Hp. by apply Hnone in Hp.
- intros p []%elem_of_nil.
- intros k. split; [by intros ?%not_elem_of_empty|].
intros (p & Hp & _). by apply Hnone in Hp.
- intros k p q Hp. by apply Hnone in Hp.
Qed.

(** A flood fill from an unvisited chromatic block of a new colour. *)
Lemma scanning_fill done V C s k ps :
scanning done V C → color_at G k s → 0 < k → k ∉ C →
marked G k V s ps →
scanning (done ++ [s]) (marks V ps) ({[k]} ∪ C).
Proof.
intros [Hrect Hch Hcl Hdone Hcol Hconn] Hs Hk HkC
(Hnd & Hps & Hsps & Hreach & Hclps).
assert (∀ p, p ∈ ps → color_at G k p) as Hpsc by (intros; by apply Hps).
assert (∀ p, vis (marks V ps) p ↔ vis V p ∨ p ∈ ps) as Hvis.
{ intros p. by apply (vis_marks h w G k Hlv). }
assert (∀ p, vis V p → ¬ color_at G k p) as Hold.
{ intros p Hp Hc. apply HkC, Hcol. by exists p. }
split.
- by apply rect_marks.
- intros p [Hp|Hp]%Hvis; [by apply Hch|]. exists k. split; [done|].
by apply Hps.
- intros p q [Hp|Hp]%Hvis Hstep; apply Hvis.
+ left. by apply (Hcl p).
+ destruct Hstep as (Hadj & k' & Hp' & Hq').
rewrite <- (color_at_unique G k k' p (Hpsc p Hp) Hp') in Hq'.
by apply (Hclps p q).
- intros p [Hp| ->%list_elem_of_singleton]%elem_of_app Hc; apply Hvis.
+ left. by apply Hdone.
+ by right.
- intros k'. rewrite elem_of_union, elem_of_singleton, Hcol. split.
+ intros [->|(p & Hp & Hc)].
* exists s. split; [apply Hvis; by right | done].
* exists p. split; [apply Hvis; by left | done].
+ intros (p & [Hp|Hp]%Hvis & Hc).
* right. by exists p.
* left. by apply (color_at_unique G k' k p Hc), Hps.
- intros k' p q [Hp|Hp]%Hvis [Hq|Hq]%Hvis Hcp Hcq.
+ by apply (Hconn k').
+ rewrite (color_at_unique G k' k q Hcq (Hpsc q Hq)) in Hcp.
by destruct (Hold p Hp).
+ rewrite (color_at_unique G k' k p Hcp (Hpsc p Hp)) in Hcq.
by destruct (Hold q Hq).
+ etrans; [apply rtc_color_step_sym, Hreach | apply Hreach]; done.
Qed.

Lemma scanning_skip done V C s :
scanning done V C → (chroma s → vis V s) →
scanning (done ++ [s]) V C.
Proof.
intros [Hrect Hch Hcl Hdone Hcol Hconn] Hs. split; try done.
intros p [Hp| ->%list_elem_of_singleton]%elem_of_app Hc; auto.
Qed.

Lemma Solved_spec :
∃ b, Solved lv = Ok b ∧ (b = true ↔ one_region_per_color (grid lv)).
Proof using Hlv.
pose proof Hlv as (Hrect & _).
pose proof (walled_inside _ _ _ Hlv) as (_ & _ & _ & Hins).
unfold Solved. fold h w G.
match goal with |- context [for_each ?l ?body ?s0] =>
destruct (for_each_invariant
(λ done (st : list (list bool) * gset Z), scanning done st.1 st.2)
(λ b : bool, b = false ∧ ¬ one_region_per_color G)
l body s0) as (fl & Hrun & Hfl)
end.
- apply scanning_start.
- intros done [r c] [V C] [rest Hint] Hsc. simpl in Hsc.
assert ((r, c) ∈ interior h w) as Hs
by (rewrite Hint; apply elem_of_app; right; by left).
apply elem_of_interior in Hs. simpl in Hs.
destruct (proj2 (cell_in_range h w V r c (scan_rect _ _ _ Hsc)))
as [v Hv]; [lia|].
destruct (proj2 (cell_in_range h w G r c Hrect)) as [x Hx]; [lia|].
assert (at_ V r c = Ok v) as -> by (by apply at_Ok).
assert (at_ G r c = Ok x) as -> by (by apply at_Ok).
rewrite !bind_Ok.
destruct (negb v && is_type MOVABLE x && bool_decide (0 < color x))
eqn:Hcond.
+ apply andb_true_iff in Hcond as [[Hnv Hxt]%andb_true_iff Hxc].
apply bool_decide_eq_true in Hxt, Hxc. destruct v; [done|].
assert (color_at G (color x) (r, c)) as Hcs by (by exists x).
assert (¬ vis V (r, c)) as Hnvis by (unfold vis; simpl; congruence).
case_bool_decide as HC.
* eexists. split; [done|]. split; [done|]. intros Hone.
  apply (scan_colors _ _ _ Hsc) in HC as (p & Hp & Hcp).
  apply Hnvis. apply (scanning_closed_rtc done V C p); [done..|].
  by apply (Hone (color x)).
* destruct (MarkColorVisited_spec h w G (color x) Hlv (mark_fuel V)
              V (r, c)) as (ps & Hmark & Hps);
    [apply (scan_rect _ _ _ Hsc) | done | done | unfold mark_fuel; lia|].
  cbn [fst snd] in Hmark. rewrite Hmark, bind_Ok.
  eexists. split; [done|]. cbn [fst snd]. by apply scanning_fill.
+ eexists. split; [done|]. simpl. apply scanning_skip; [done|].
intros (k & Hk & (y & Hy & Hyt & Hyc)).
assert (y = x) as -> by (unfold look in Hy; simpl in Hy; congruence).
unfold vis. simpl. rewrite Hv. f_equal.
destruct v; [done|]. simpl in Hcond.
apply andb_false_iff in Hcond as [Hf|Hf];
  apply bool_decide_eq_false in Hf; [done|lia].
- rewrite Hrun, bind_Ok. destruct fl as [[V C]|b].
+ exists true. split; [done|]. split; [|done]. intros _ k p q Hk Hp Hq.
simpl in Hfl. apply (scan_connected _ _ _ Hfl k); try done.
* apply (scan_done _ _ _ Hfl); [|by exists k].
  apply elem_of_interior, Hins. destruct Hp as (x & ? & ? & _).
  by exists x.
* apply (scan_done _ _ _ Hfl); [|by exists k].
  apply elem_of_interior, Hins. destruct Hq as (x & ? & ? & _).
  by exists x.
+ destruct Hfl as [-> Hno]. exists false. split; [done|].
split; [done|]. intros Hone. by destruct Hno.
Qed.
End solved.



(** ** The search *)

(** [path_from a b l]: [l] is a valid move sequence from [a] to [b]: it
    starts at [a], ends at [b], and every state but the first is obtained
    from the one before it by one legal push. *)
Inductive path_from (a : Level) : Level → list Level → Prop :=
  | path_start : path_from a a [a]
  | path_push b c l :
      path_from a b l → legal_push b c → path_from a c (l ++ [c]).

Lemma inv_shaped lv : inv lv → shaped lv.
Proof. by intros [? _]. Qed.

Lemma legal_push_inv lv lv' : inv lv → legal_push lv lv' → inv lv'.
Proof.
  intros Hinv (g & dc & Hg & Hdc & Hrun).
  assert (valid_dir 0 dc = true) as Hd by (by destruct Hdc as [-> | ->]).
  destruct (MoveGroup_spec lv g 0 dc Hinv Hd Hg)
    as (s & b & ps & lv1 & _ & _ & Hrun' & Hres).
  rewrite Hrun' in Hrun. simplify_eq. by destruct Hres as (_ & _ & ? & _).
Qed.

Lemma Solved_total lv : inv lv → ∃ b, Solved lv = Ok b.
Proof.
  intros Hinv.
  destruct (Solved_spec lv (inv_shaped lv Hinv)) as (b & Hb & _).
  by exists b.
Qed.

Lemma vec_at_Ok {A : Type} (v : list A) (n : nat) (x : A) :
  vec_at v (Z.of_nat n) = Ok x ↔ v !! n = Some x.
Proof.
  unfold vec_at. rewrite bool_decide_eq_true_2 by lia. rewrite Nat2Z.id.
  destruct (v !! n); split; intros ?; by simplify_eq.
Qed.

(** The paths recorded by the predecessor links. *)
Inductive tpath (st : search) : nat → list Level → Prop :=
  | tpath_root lv :
      levels st !! 0%nat = Some lv →
      previous_level_index st !! 0%nat = Some (-1) →
      tpath st 0 [lv]
  | tpath_step j pj lv l :
      previous_level_index st !! j = Some (Z.of_nat pj) → (pj < j)%nat →
      levels st !! j = Some lv → tpath st pj l →
      tpath st j (l ++ [lv]).

Lemma walk_back_tpath st j l :
  tpath st j l →
  ∀ fuel res, (j < fuel)%nat →
    walk_back fuel st (Z.of_nat j) res = Ok (res ++ reverse l).
Proof.
  induction 1 as [lv Hlv Hp|j pj lv l Hp Hlt Hlv _ IH]; intros fuel res Hfuel.
  - destruct fuel as [|fuel]; [lia|]. cbn [walk_back].
    rewrite bool_decide_eq_true_2 by lia.
    rewrite (proj2 (vec_at_Ok _ 0 lv) Hlv), bind_Ok.
    change (Z.of_nat 0) with 0. unfold vec_at at 1.
    rewrite bool_decide_eq_true_2 by lia. change (Z.to_nat 0) with 0%nat.
    rewrite Hp, bind_Ok. destruct fuel; cbn [walk_back];
      by rewrite bool_decide_eq_false_2 by lia.
  - destruct fuel as [|fuel]; [lia|]. cbn [walk_back].
    rewrite bool_decide_eq_true_2 by lia.
    rewrite (proj2 (vec_at_Ok _ j lv) Hlv), bind_Ok.
    rewrite (proj2 (vec_at_Ok _ j _) Hp), bind_Ok.
    rewrite IH by lia. by rewrite reverse_app, <- app_assoc.
Qed.

(** The invariant of the search: [D] gives the depth of every visited
    state, [n] is the index of the state being expanded. *)
Record bfs_inv (init : Level) (n : nat) (st : search) (D : list nat)
  : Prop := mkBfsInv {
  bfs_len_prev : length (previous_level_index st) = length (levels st);
  bfs_len_map : length (level_index st) = length (levels st);
  bfs_len_depth : length D = length (levels st);
  bfs_keys : ∀ lv, lv ∈ (level_index st).*1 ↔ lv ∈ levels st;
  bfs_root :
    levels st !! 0%nat = Some init ∧
    previous_level_index st !! 0%nat = Some (-1) ∧ D !! 0%nat = Some 0%nat;
  bfs_link :
    ∀ j lv, (0 < j)%nat → levels st !! j = Some lv →
      ∃ pj lvp dp,
        previous_level_index st !! j = Some (Z.of_nat pj) ∧ (pj < j)%nat ∧
        levels st !! pj = Some lvp ∧ legal_push lvp lv ∧
        D !! pj = Some dp ∧ D !! j = Some (S dp);
  bfs_good : ∀ lv, lv ∈ levels st → inv lv ∧ Solved lv = Ok false;
  bfs_mono :
    ∀ j1 j2 d1 d2, (j1 ≤ j2)%nat → D !! j1 = Some d1 → D !! j2 = Some d2 →
      (d1 ≤ d2)%nat;
  bfs_front :
    ∀ j d dn, D !! j = Some d → D !! n = Some dn → (d ≤ S dn)%nat;
  bfs_done :
    ∀ i lvi lv', (i < n)%nat → levels st !! i = Some lvi →
      legal_push lvi lv' →
      Solved lv' = Ok false ∧
      ∃ j d di, levels st !! j = Some lv' ∧ D !! j = Some d ∧
                D !! i = Some di ∧ (d ≤ S di)%nat
}.

Lemma bfs_tpath init n st D j lv d :
  bfs_inv init n st D → levels st !! j = Some lv → D !! j = Some d →
  ∃ l, tpath st j l ∧ path_from init lv l ∧ length l = S d.
Proof.
  intros Hinv. revert lv d.
  induction j as [j IH] using lt_wf_ind. intros lv d Hlv Hd.
  destruct (bfs_root _ _ _ _ Hinv) as (H0 & Hp0 & Hd0).
  destruct j as [|j].
  - simplify_eq. exists [lv]. split_and!; [by constructor | constructor | done].
  - destruct (bfs_link _ _ _ _ Hinv (S j) lv) as
      (pj & lvp & dp & Hp & Hlt & Hlvp & Hpush & Hdp & Hdj); [lia | done |].
    simplify_eq. destruct (IH pj Hlt lvp dp Hlvp Hdp) as (l & Ht & Hpath & Hlen).
    exists (l ++ [lv]). split_and!.
    + by eapply tpath_step.
    + by eapply path_push.
    + rewrite length_app. simpl. lia.
Qed.

(** No valid move sequence shorter than the depth of the state being
    expanded, plus two states, ends in a solved state. *)
Lemma bfs_shortest init n st D dn e l :
  bfs_inv init n st D → D !! n = Some dn →
  path_from init e l → (length l ≤ S dn)%nat →
  Solved e = Ok false ∧
  ∃ j d, levels st !! j = Some e ∧ D !! j = Some d ∧ (S d ≤ length l)%nat.
Proof.
  intros Hinv Hdn Hpath.
  destruct (bfs_root _ _ _ _ Hinv) as (H0 & Hp0 & Hd0).
  induction Hpath as [|b c l Hpath IH Hpush]; intros Hlen.
  - split.
    + apply (bfs_good _ _ _ _ Hinv). by eapply list_elem_of_lookup_2.
    + exists 0%nat, 0%nat. split_and!; [done | done | simpl; lia].
  - rewrite length_app in Hlen. simpl in Hlen.
    destruct IH as (_ & j & d & Hj & Hd & Hle); [lia|].
    assert (j < n)%nat as Hjn.
    { destruct (decide (j < n)%nat) as [|Hge]; [done|].
      pose proof (bfs_mono _ _ _ _ Hinv n j dn d ltac:(lia) Hdn Hd). lia. }
    destruct (bfs_done _ _ _ _ Hinv j b c Hjn Hj Hpush)
      as (Hunsolved & j' & d' & di & Hj' & Hd' & Hdi & Hle').
    split; [done|]. exists j', d'. split_and!; [done | done |].
    rewrite length_app. simpl. simplify_eq. lia.
Qed.


Lemma Successors_members lv :
  inv lv →
  ∃ l, Successors lv = Ok l ∧ ∀ lv', lv' ∈ l ↔ legal_push lv lv'.
Proof.
  intros Hinv. destruct (try_moves_spec lv Hinv) as (res & Hrun & Hres).
  exists (unique (merge_sort Level_le res)). split.
  - unfold Successors. by rewrite Hrun.
  - intros lv'. rewrite elem_of_unique, merge_sort_Permutation. apply Hres.
Qed.

Lemma map_insert_spec m k v :
  map_insert m k v =
    if bool_decide (k ∈ m.*1) then (m, false) else (m ++ [(k, v)], true).
Proof.
  unfold map_insert.
  assert (existsb (λ kv : Level * Z, bool_decide (Level_compare kv.1 k = Eq)) m
          = bool_decide (k ∈ m.*1)) as ->; [|done].
  induction m as [|[k' v'] m IH]; [done|].
  cbn [existsb fmap list_fmap fst]. rewrite IH.
  destruct (decide (k' = k)) as [->|Hne].
  - rewrite (bool_decide_eq_true_2 (Level_compare k k = Eq))
      by by apply Level_compare_eq.
    symmetry. apply bool_decide_eq_true_2. left.
  - rewrite (bool_decide_eq_false_2 (Level_compare k' k = Eq))
      by by rewrite Level_compare_eq.
    simpl. apply bool_decide_ext. rewrite elem_of_cons.
    split; [by right | by intros [?|?]].
Qed.

(** The result of a successful search. *)
Definition found (init : Level) (res : list Level) : Prop :=
  ∃ e, path_from init e res ∧ Solved e = Ok true ∧
       ∀ l' e', path_from init e' l' → Solved e' = Ok true →
                (length res ≤ length l')%nat.

(** A successor that has been visited without ending the search. *)
Definition seen (n : nat) (st : search) (D : list nat) (lv' : Level) : Prop :=
  Solved lv' = Ok false ∧
  ∃ j d dn, levels st !! j = Some lv' ∧ D !! j = Some d ∧
            D !! n = Some dn ∧ (d ≤ S dn)%nat.

Lemma visit_spec init n st D lvn s' done :
  bfs_inv init n st D → levels st !! n = Some lvn → legal_push lvn s' →
  (∀ lv', lv' ∈ done → seen n st D lv') →
  ∃ fl, visit (Z.of_nat n) s' st = Ok fl ∧
    match fl with
    | Continue st' =>
        ∃ D', bfs_inv init n st' D' ∧ levels st' !! n = Some lvn ∧
              ∀ lv', lv' ∈ done ++ [s'] → seen n st' D' lv'
    | Return res => found init res
    end.
Proof.
  intros Hinv Hn Hpush Hdone.
  pose proof (lookup_lt_Some _ _ _ Hn) as Hlt.
  destruct (lookup_lt_is_Some_2 D n) as [dn Hdn];
    [by rewrite (bfs_len_depth _ _ _ _ Hinv)|].
  assert (inv lvn) as Hlvn
    by (apply (bfs_good _ _ _ _ Hinv); by eapply list_elem_of_lookup_2).
  pose proof (legal_push_inv _ _ Hlvn Hpush) as Hs'.
  destruct (Solved_total s' Hs') as [b Hb].
  unfold visit. rewrite Hb, bind_Ok. destruct b.
  - destruct (bfs_tpath _ _ _ _ _ _ _ Hinv Hn Hdn) as (l & Ht & Hpath & Hlen).
    rewrite (walk_back_tpath _ _ _ Ht) by lia. rewrite bind_Ok.
    eexists; split; [done|]. cbn beta iota.
    rewrite reverse_app, reverse_involutive. cbn [reverse rev_append app].
    exists s'. split_and!; [by eapply path_push | done |].
    intros l' e' Hpath' He'. rewrite length_app. simpl.
    destruct (decide (length l' ≤ S dn)%nat) as [Hshort|]; [|lia].
    destruct (bfs_shortest _ _ _ _ _ _ _ Hinv Hdn Hpath' Hshort) as [Hno _].
    congruence.
  - rewrite map_insert_spec. case_bool_decide as Hkey.
    + eexists; split; [done|]. cbn beta iota. exists D.
      destruct st as [M L P]. simpl in *. split_and!; [done | done |].
      intros lv' [Hlv'| ->%list_elem_of_singleton]%elem_of_app; [by apply Hdone|].
      split; [done|].
      apply (bfs_keys _ _ _ _ Hinv) in Hkey. simpl in Hkey.
      apply list_elem_of_lookup_1 in Hkey as [j Hj].
      destruct (lookup_lt_is_Some_2 D j) as [d Hd].
      { rewrite (bfs_len_depth _ _ _ _ Hinv). by eapply lookup_lt_Some. }
      exists j, d, dn. split_and!; [done | done | done |].
      by eapply (bfs_front _ _ _ _ Hinv).
    + eexists; split; [done|]. cbn beta iota. exists (D ++ [S dn]).
      destruct Hinv as [HlenP HlenM HlenD Hkeys (H0 & Hp0 & Hd0) Hlink Hgood
                        Hmono Hfront Hdn'].
      destruct st as [M L P]. simpl in *.
      assert (∀ lv', seen n {| level_index := M; levels := L;
                              previous_level_index := P |} D lv' →
                seen n {| level_index := M ++ [(s', int (Z.of_nat (length L)))];
                          levels := L ++ [s'];
                          previous_level_index := P ++ [Z.of_nat n] |}
                     (D ++ [S dn]) lv') as Hseen.
      { intros lv' (Hno & j & d & dn' & Hj & Hd & Hdn1 & Hle). split; [done|].
        exists j, d, dn'. simpl in *.
        split_and!; [by apply lookup_app_l_Some..|done]. }
      split_and!.
      * constructor; simpl.
        -- rewrite !length_app. simpl. lia.
        -- rewrite !length_app. simpl. lia.
        -- rewrite !length_app. simpl. lia.
        -- intros lv. rewrite fmap_app, !elem_of_app. simpl.
           by rewrite Hkeys.
        -- split_and!; by apply lookup_app_l_Some.
        -- intros j lv Hj [[Hjlt Hlv]|[-> <-]]%lookup_snoc_Some.
           ++ destruct (Hlink j lv Hj Hlv)
                as (pj & lvp & dp & Hp & Hpj & Hlvp & Hpu & Hdp & Hdj).
              exists pj, lvp, dp.
              split_and!; try by apply lookup_app_l_Some. all: done.
           ++ exists n, lvn, dn. split_and!.
              ** rewrite <- HlenP. by apply list_lookup_middle.
              ** done.
              ** by apply lookup_app_l_Some.
              ** done.
              ** by apply lookup_app_l_Some.
              ** rewrite <- HlenD. by apply list_lookup_middle.
        -- intros lv [Hlv| ->%list_elem_of_singleton]%elem_of_app; [by apply Hgood|].
           done.
        -- intros j1 j2 d1 d2 Hle
             [[H1lt H1]|[-> <-]]%lookup_snoc_Some
             [[H2lt H2]|[-> <-]]%lookup_snoc_Some.
           ++ by apply (Hmono j1 j2).
           ++ by apply (Hfront j1).
           ++ lia.
           ++ done.
        -- intros j d dn' Hd Hdn1.
           rewrite lookup_app_l in Hdn1 by lia. simplify_eq.
           apply lookup_snoc_Some in Hd as [[_ Hd]|[_ <-]]; [|done].
           by eapply Hfront.
        -- intros i lvi lv' Hi Hlvi Hpu.
           rewrite lookup_app_l in Hlvi by lia.
           destruct (Hdn' i lvi lv' Hi Hlvi Hpu)
             as (Hno & j & d & di & Hj & Hd & Hdi & Hle).
           split; [done|]. exists j, d, di.
           split_and!; [by apply lookup_app_l_Some..|done].
      * by apply lookup_app_l_Some.
      * intros lv' [Hlv'| ->%list_elem_of_singleton]%elem_of_app.
        -- by apply Hseen, Hdone.
        -- split; [done|]. exists (length L), (S dn), dn. simpl.
           split_and!.
           ++ by apply list_lookup_middle.
           ++ rewrite <- HlenD. by apply list_lookup_middle.
           ++ by apply lookup_app_l_Some.
           ++ done.
Qed.


Lemma bfs_next init n st D lvn :
  bfs_inv init n st D → levels st !! n = Some lvn →
  (∀ lv', legal_push lvn lv' → seen n st D lv') →
  bfs_inv init (S n) st D.
Proof.
  intros [HlenP HlenM HlenD Hkeys Hroot Hlink Hgood Hmono Hfront Hdone]
    Hn Hseen.
  pose proof (lookup_lt_Some _ _ _ Hn) as Hlt.
  destruct (lookup_lt_is_Some_2 D n) as [dn Hdn]; [by rewrite HlenD|].
  constructor; try done.
  - intros j d dn1 Hd Hdn1.
    pose proof (Hfront j d dn Hd Hdn).
    pose proof (Hmono n (S n) dn dn1 ltac:(lia) Hdn Hdn1). lia.
  - intros i lvi lv' Hi Hlvi Hpu.
    destruct (decide (i = n)) as [->|]; [|apply (Hdone i lvi); [lia|done..]].
    simplify_eq.
    destruct (Hseen lv' Hpu) as (Hno & j & d & dn' & Hj & Hd & Hdn' & Hle).
    split; [done|]. by exists j, d, dn'.
Qed.

Lemma bfs_start init :
  inv init → Solved init = Ok false →
  bfs_inv init 0
    {| level_index := [(init, 0)]; levels := [init];
       previous_level_index := [-1] |} [0%nat].
Proof.
  intros Hinv Hno. constructor; simpl; try done.
  - intros j lv Hj Hlv. destruct j; [lia|]. by destruct j.
  - by intros lv ->%list_elem_of_singleton.
  - intros [|j1] [|j2] d1 d2 ?; simpl; intros; simplify_eq; try lia;
      by destruct j1 || by destruct j2.
  - intros j d dn Hd ?. simplify_eq.
    destruct j as [|[|j]]; simpl in Hd; simplify_eq. lia.
  - intros i ? ? ?. lia.
Qed.

Lemma Solve_loop_found init fuel :
  ∀ n st D path,
    bfs_inv init n st D → Solve_loop fuel (Z.of_nat n) st = Ok path →
    path ≠ [] → found init path.
Proof.
  induction fuel as [|fuel IH]; intros n st D path Hinv Hrun Hne; [done|].
  cbn [Solve_loop] in Hrun. case_bool_decide as Hlt; [|by simplify_eq].
  rewrite (bfs_len_map _ _ _ _ Hinv) in Hlt.
  destruct (lookup_lt_is_Some_2 (levels st) n) as [lvn Hn]; [lia|].
  rewrite (proj2 (vec_at_Ok _ _ _) Hn), bind_Ok in Hrun.
  assert (inv lvn) as Hlvn
    by (apply (bfs_good _ _ _ _ Hinv); by eapply list_elem_of_lookup_2).
  destruct (Successors_members lvn Hlvn) as (next & Hnext & Hmem).
  rewrite Hnext, bind_Ok in Hrun.
  destruct (for_each_invariant
    (λ done st', ∃ D', bfs_inv init n st' D' ∧ levels st' !! n = Some lvn ∧
                       ∀ lv', lv' ∈ done → seen n st' D' lv')
    (found init) next (visit (Z.of_nat n)) st) as (fl & Hloop & Hfl).
  - exists D. split_and!; [done..|]. by intros lv' ?%elem_of_nil.
  - intros done x st' [rest Hl] (D' & Hinv' & Hn' & Hseen).
    apply (visit_spec init n st' D' lvn x done); [done..| |done].
    apply Hmem. rewrite Hl. apply elem_of_app. right. left.
  - rewrite Hloop, bind_Ok in Hrun. destruct fl as [st'|res].
    + destruct Hfl as (D' & Hinv' & Hn' & Hseen).
      unfold int_incr in Hrun. case_bool_decide; [|done].
      rewrite bind_Ok in Hrun.
      replace (Z.of_nat n + 1) with (Z.of_nat (S n)) in Hrun by lia.
      apply (IH (S n) st' D' path); [|done..].
      apply (bfs_next init n st' D' lvn); [done..|].
      intros lv' Hpu. by apply Hseen, Hmem.
    + by simplify_eq.
Qed.

(** [chain l]: every state of [l] but the first is obtained from the one
    before it by one legal push. *)
Definition chain (l : list Level) : Prop :=
  ∀ t a b, l !! t = Some a → l !! S t = Some b → legal_push a b.

Lemma path_from_chain a b l :
  path_from a b l ↔ head l = Some a ∧ last l = Some b ∧ chain l.
Proof.
  split.
  - induction 1 as [|b c l Hpath (Hhd & Hlast & Hch) Hpush].
    + split_and!; [done..|]. intros t x y _ Hy. by destruct t.
    + split_and!.
      * destruct l; [done|]. done.
      * apply last_snoc.
      * intros t x y Hx [[Hlt Hy]|[Ht <-]]%lookup_snoc_Some.
        -- rewrite lookup_app_l in Hx by lia. by apply (Hch t).
        -- rewrite lookup_app_l in Hx by lia.
           rewrite last_lookup, <- Ht in Hlast. simpl in Hlast.
           by simplify_eq.
  - revert b. induction l as [|x l IH] using rev_ind;
      intros b (Hhd & Hlast & Hch); [done|].
    rewrite last_snoc in Hlast. simplify_eq.
    destruct (last l) as [y|] eqn:Hy.
    + apply (path_push a y b l).
      * apply IH. split_and!; [|done|].
        -- destruct l; [done|]. done.
        -- intros t u v Hu Hv. apply (Hch t); by apply lookup_app_l_Some.
      * rewrite last_lookup in Hy.
        assert (l ≠ []) as Hl by (by intros ->).
        assert (0 < length l)%nat by (destruct l; [done|simpl; lia]).
        apply (Hch (pred (length l))).
        -- by apply lookup_app_l_Some.
        -- replace (S (pred (length l))) with (length l) by lia.
           by apply list_lookup_middle.
    + apply last_None in Hy as ->. simpl in Hhd. simplify_eq. constructor.
Qed.

(** A level that takes one push to solve. *)
Definition puzzle_input : list string := ["1 1"]%string.

Definition puzzle_level : Level :=
  Eval vm_compute in
    match new_level puzzle_input with Ok lv => lv | Err _ => mkLevel 0 0 0 [] end.

Lemma puzzle_inv : inv puzzle_level.
Proof.
  assert (valid_input puzzle_input) as Hvalid.
  { split_and!; [done | repeat constructor | vm_compute; discriminate..]. }
  assert (reachable puzzle_input puzzle_level) as Hreach.
  { apply reach_new. vm_compute. reflexivity. }
  by destruct (reachable_canonical _ _ Hvalid Hreach) as ((? & _) & _).
Qed.

(** The path found for it: the initial state and the state after the
    push. *)
Definition puzzle_path : list Level :=
  Eval vm_compute in
    match Solve 4 puzzle_level with Ok l => l | Err _ => [] end.

(** ** The search returns a shortest solution *)

(** X23. From an initial grid state that satisfies the invariant (a walled
    rectangle of at most 257 rows and 257 columns with at most 255 groups,
    whose identifiers [1..groups] are all in use and label connected
    regions), a non-empty path returned by [Solve] starts at the initial
    state, ends at a solved state, links every two consecutive states by
    one legal push, and has no more moves than any sequence of legal pushes
    from the initial state to a solved state. *)
Theorem Solve_shortest_path (fuel : nat) (init : Level) (path : list Level) :
  inv init → Solve fuel init = Ok path → path ≠ [] →
  ∃ e, head path = Some init ∧ last path = Some e ∧ Solved e = Ok true ∧
       chain path ∧
       ∀ l' e', head l' = Some init → chain l' → last l' = Some e' →
                Solved e' = Ok true →
                Z.of_nat (length path) - 1 ≤ Z.of_nat (length l') - 1.
Proof.
  intros Hinv Hrun Hne. unfold Solve in Hrun.
  destruct (Solved_total init Hinv) as [b Hb]. rewrite Hb, bind_Ok in Hrun.
  assert (found init path) as (e & Hpath & He & Hmin).
  { destruct b.
    - simplify_eq. exists init. split_and!; [constructor | done |].
      intros l' e' Hl' _. destruct Hl'; [done|]. rewrite length_app. simpl. lia.
    - eapply (Solve_loop_found init fuel 0); [|exact Hrun|done].
      by apply bfs_start. }
  apply path_from_chain in Hpath as (Hhd & Hlast & Hch).
  exists e. split_and!; [done..|].
  intros l' e' Hhd' Hch' Hlast' He'.
  assert (path_from init e' l') as Hpath' by (by apply path_from_chain).
  pose proof (Hmin l' e' Hpath' He'). lia.
Qed.

Lemma Solve_shortest_path_witness :
  ∃ e, head puzzle_path = Some puzzle_level ∧
       last puzzle_path = Some e ∧ Solved e = Ok true ∧
       chain puzzle_path ∧
       ∀ l' e', head l' = Some puzzle_level → chain l' → last l' = Some e' →
                Solved e' = Ok true →
                Z.of_nat (length puzzle_path) - 1 ≤ Z.of_nat (length l') - 1.
Proof.
  apply (Solve_shortest_path 4 puzzle_level puzzle_path).
  - exact puzzle_inv.
  - vm_compute. reflexivity.
  - discriminate.
Defined.

(** ** Group numbering and move order *)

(** The topology of a state: its dimensions and the type and colour of
    every cell, the group identifiers left out. *)
Definition topology (lv : Level) : Z * Z * list (list (CellType * Z)) :=
  (width lv, height lv, map (map (λ x, (type x, color x))) (grid lv)).

Lemma cell_fmap {A B : Type} (f : A → B) (g : list (list A)) r c :
  cell (map (map f) g) r c = f <$> cell g r c.
Proof.
  unfold cell. case_bool_decide; [|done].
  change (map (map f) g) with (fmap (M := list) (fmap (M := list) f) g).
  rewrite list_lookup_fmap. destruct (g !! Z.to_nat r) as [row|]; [|done].
  simpl. apply list_lookup_fmap.
Qed.

Lemma topology_same_shape A B :
  topology A = topology B → same_shape (grid A) (grid B).
Proof.
  unfold topology. intros Ht p. unfold look.
  rewrite <- !(cell_fmap (λ x, (type x, color x))). congruence.
Qed.

(** In the states the moves produce, the groups are the regions of
    adjacent blocks of one colour, whatever their identifiers. *)
Lemma canonical_coarser nA nB GA GB :
  grouped nA GA → mono GA → chromatic GA →
  grouped nB GB → maximal GB →
  same_shape GA GB → coarser GA GB.
Proof.
  intros HA Hmono Hchrom HB Hmax Hs.
  assert (∀ p q, rtc (linked GA) p q →
            ∀ x' y', look GB p = Some x' → look GB q = Some y' →
                     group x' = group y') as Hwalk.
  { induction 1 as [p|p r q Hlink _ IH]; intros x' y' Hx' Hy'.
    - by simplify_eq.
    - destruct Hlink as (Hadj & u & v & Hu & Hv & Hut & Hvt & Huv).
      destruct (same_shape_look GA GB p u Hs Hu) as (u1 & ? & Htu & Hcu).
      destruct (same_shape_look GA GB r v Hs Hv) as (v1 & Hv1 & Htv & Hcv).
      simplify_eq. rewrite <- (IH v1 y' Hv1 Hy'). symmetry.
      apply (Hmax p r Hadj x' v1); try done; try congruence.
      + rewrite Hcu. by eapply Hchrom.
      + rewrite Hcu, Hcv. symmetry. by eapply Hmono. }
  intros p q x y x' y' Hx Hy Hx' Hy' Hg.
  destruct (same_shape_look GA GB p x Hs Hx) as (x1 & ? & Htx & _).
  destruct (same_shape_look GA GB q y Hs Hy) as (y1 & ? & Hty & _).
  simplify_eq.
  destruct (decide (type x = MOVABLE)) as [Hxm|Hxm].
  - assert (type y = MOVABLE) as Hym.
    { destruct (decide (type y = MOVABLE)) as [|Hym]; [done|].
      pose proof (grouped_tidy _ _ HA q y Hy Hym).
      pose proof (grouped_range _ _ HA p x Hx Hxm). lia. }
    apply (Hwalk p q); [|done..].
    by apply (grouped_connected _ _ HA p q x y).
  - assert (type y ≠ MOVABLE) as Hym.
    { intros Hym.
      pose proof (grouped_tidy _ _ HA p x Hx Hxm).
      pose proof (grouped_range _ _ HA q y Hy Hym). lia. }
    rewrite (grouped_tidy _ _ HB p x') by (done || congruence).
    rewrite (grouped_tidy _ _ HB q y') by (done || congruence). done.
Qed.

(** Counting: a relation that maps every element of a list without
    duplicates to some element of [l2], injectively, needs [l2] to be at
    least as long. *)
Lemma related_list {A B : Type} (R : A → B → Prop) (P : B → Prop) (l : list A) :
  (∀ a, a ∈ l → ∃ b, P b ∧ R a b) →
  ∃ l', Forall2 R l l' ∧ Forall P l'.
Proof.
  induction l as [|a l IH]; intros Htot.
  - exists []. by split.
  - destruct (Htot a) as (b & Hb & Hab); [left|].
    destruct IH as (l' & Hl' & HP); [intros a' Ha'; apply Htot; by right|].
    exists (b :: l'). split; by constructor.
Qed.

Lemma related_NoDup {A B : Type} (R : A → B → Prop) (l : list A) (l' : list B) :
  (∀ a1 a2 b, R a1 b → R a2 b → a1 = a2) →
  Forall2 R l l' → NoDup l → NoDup l'.
Proof.
  intros Hinj. induction 1 as [|a b l l' Hab Hl IH]; intros Hnd; [constructor|].
  apply NoDup_cons in Hnd as [Ha Hnd]. apply NoDup_cons. split; [|by apply IH].
  intros Hb. apply list_elem_of_lookup_1 in Hb as [i Hi].
  destruct (Forall2_lookup_r _ _ _ _ _ Hl Hi) as (a' & Ha' & Ha'b).
  rewrite (Hinj a a' b Hab Ha'b) in Ha.
  apply Ha. by eapply list_elem_of_lookup_2.
Qed.

Lemma group_count_le nA nB GA GB :
  grouped nA GA → grouped nB GB → same_shape GA GB → coarser GB GA →
  (Z.to_nat nA ≤ Z.to_nat nB)%nat.
Proof.
  intros HA HB Hs Hc.
  pose (R := λ k k' : Z, ∃ p xa xb,
    look GA p = Some xa ∧ look GB p = Some xb ∧ group xa = k ∧ group xb = k').
  destruct (related_list R (λ k', 1 ≤ k' ≤ nB) (seqZ 1 nA)) as (l' & Hl' & HP).
  { intros k Hk%elem_of_seqZ.
    destruct (grouped_used _ _ HA k) as (p & xa & Hxa & Hxt & Hxg); [lia|].
    destruct (same_shape_look GA GB p xa Hs Hxa) as (xb & Hxb & Htb & _).
    exists (group xb). split.
    - apply (grouped_range _ _ HB p); [done | congruence].
    - by exists p, xa, xb. }
  assert (NoDup l') as Hnd.
  { apply (related_NoDup R (seqZ 1 nA)); [|done|apply NoDup_seqZ].
    intros k1 k2 k' (p1 & xa1 & xb1 & ? & ? & ? & ?)
      (p2 & xa2 & xb2 & ? & ? & ? & ?). subst.
    by apply (Hc p1 p2 xb1 xb2 xa1 xa2). }
  assert (l' ⊆+ seqZ 1 nB) as Hsub.
  { apply NoDup_submseteq; [done|]. intros k' Hk'.
    rewrite Forall_forall in HP. apply elem_of_seqZ. specialize (HP k' Hk'). lia. }
  apply submseteq_length in Hsub.
  rewrite <- (Forall2_length _ _ _ Hl'), !length_seqZ in Hsub. done.
Qed.

Lemma path_canonical init lv l :
  canonical init → path_from init lv l → canonical lv.
Proof.
  intros Hinit. induction 1 as [|b c l _ IH (g & dc & _ & _ & Hrun)]; [done|].
  by destruct (MoveGroup_canonical b g 0 dc true c IH Hrun).
Qed.

(** A successful push leaves at least one group. *)
Lemma legal_push_groups lv lv' : inv lv → legal_push lv lv' → 1 ≤ groups lv'.
Proof.
  intros [Hshaped Hgr] (g & dc & Hg & Hdc & Hrun).
  destruct (MoveGroup_Ok_inv lv g 0 dc (proj1 Hshaped) _ Hrun)
    as (Hd & _ & s & _ & Hmove).
  apply valid_dir_dirs in Hd.
  unfold move_at in Hmove. inv_step Hmove as [b gr] Htry.
  destruct b; [|by simplify_eq].
  inv_step Hmove as gr' Hdrop. inv_step Hmove as lv1 Hupd. simplify_eq.
  destruct (TryMove_kept (height lv) (width lv) (groups lv) (0, dc)
              (grid lv) s true gr Hd) as [Hk _]; [by split | done |].
  destruct (DropDown_kept _ _ _ _ _ Hk Hdrop) as [[Hw' Hgr'] _].
  destruct (UpdateConnections_spec (with_grid lv gr')) as (lv2 & Hupd' & Hm & _);
    [by split|].
  rewrite Hupd' in Hupd. simplify_eq.
  destruct Hm as (_ & _ & [_ Hgr2] & Hs & _).
  destruct (grouped_used _ _ Hgr' 1) as (p & x & Hx & Hxt & Hxg); [lia|].
  destruct (same_shape_look _ _ p x Hs Hx) as (x' & Hx' & Htx' & _).
  pose proof (grouped_range _ _ Hgr2 p x' Hx' ltac:(congruence)). lia.
Qed.

Lemma path_groups init lv l :
  canonical init → path_from init lv l → lv = init ∨ 1 ≤ groups lv.
Proof.
  intros Hinit Hpath. destruct Hpath as [|b c l Hpath Hpush]; [by left|].
  right. apply (legal_push_groups b c); [|done].
  by destruct (path_canonical init b l Hinit Hpath).
Qed.


Lemma partition_by_topology init A B la lb :
  canonical init → path_from init A la → path_from init B lb →
  topology A = topology B →
  groups A = groups B ∧
  ∀ p q xa ya xb yb,
    look (grid A) p = Some xa → look (grid A) q = Some ya →
    look (grid B) p = Some xb → look (grid B) q = Some yb →
    (group xa = group ya ↔ group xb = group yb).
Proof.
  intros Hinit HA HB Htop.
  pose proof (path_canonical _ _ _ Hinit HA) as ([_ HgA] & [HmA HcA] & HxA).
  pose proof (path_canonical _ _ _ Hinit HB) as ([_ HgB] & [HmB HcB] & HxB).
  pose proof (topology_same_shape A B Htop) as Hs.
  pose proof (same_shape_sym _ _ Hs) as Hs'.
  pose proof (canonical_coarser _ _ _ _ HgA HmA HcA HgB HxB Hs) as HAB.
  pose proof (canonical_coarser _ _ _ _ HgB HmB HcB HgA HxA Hs') as HBA.
  split.
  - assert (∀ n n' G G', grouped n G → grouped n' G' → same_shape G G' →
              1 ≤ n → 1 ≤ n') as Hblock.
    { intros n n' G G' HG HG' HGG' Hn.
      destruct (grouped_used _ _ HG 1) as (p & x & Hx & Hxt & _); [lia|].
      destruct (same_shape_look _ _ p x HGG' Hx) as (x' & Hx' & Htx' & _).
      pose proof (grouped_range _ _ HG' p x' Hx' ltac:(congruence)). lia. }
    pose proof (group_count_le _ _ _ _ HgA HgB Hs HBA).
    pose proof (group_count_le _ _ _ _ HgB HgA Hs' HAB).
    pose proof (Hblock _ _ _ _ HgA HgB Hs).
    pose proof (Hblock _ _ _ _ HgB HgA Hs').
    destruct (path_groups _ _ _ Hinit HA) as [->|?];
      destruct (path_groups _ _ _ Hinit HB) as [->|?]; try done; lia.
  - intros p q xa ya xb yb Hxa Hya Hxb Hyb. split.
    + by apply (HAB p q).
    + by apply (HBA p q).
Qed.

(** Two ways to bring the two blocks of colour 1 together in the same
    place: pushing the upper one off its ledge onto the lower one, or first
    moving the lower one aside and back. *)
Definition twin_input : list string := [" 1  2"; " #  #"; " 1   "]%string.

Definition twin_init : Level :=
  Eval vm_compute in
    match new_level twin_input with Ok lv => lv | Err _ => mkLevel 0 0 0 [] end.

(** The state after pushing group [g] by [dc], or the state itself when
    the push fails. *)
Definition pushed_by (g dc : Z) (lv : Level) : Level :=
  match MoveGroup lv g 0 dc with Ok (true, lv') => lv' | _ => lv end.

Definition twin_path_a : list Level :=
  Eval vm_compute in [twin_init; pushed_by 1 (-1) twin_init].

Definition twin_path_b : list Level :=
  Eval vm_compute in
    let s1 := pushed_by 3 (-1) twin_init in
    let s2 := pushed_by 1 1 s1 in
    let s3 := pushed_by 3 1 s2 in
    [twin_init; s1; s2; s3; pushed_by 2 (-1) s3].

Definition twin_a : Level :=
  Eval vm_compute in default twin_init (last twin_path_a).

Definition twin_b : Level :=
  Eval vm_compute in default twin_init (last twin_path_b).

Lemma twin_valid : valid_input twin_input.
Proof.
  split_and!; [done | repeat constructor | vm_compute; discriminate..].
Qed.

Lemma twin_new : new_level twin_input = Ok twin_init.
Proof. vm_compute. reflexivity. Qed.

Lemma twin_canonical : canonical twin_init.
Proof.
  by destruct (reachable_canonical twin_input twin_init twin_valid
                 (reach_new _ _ twin_new)).
Qed.

Ltac push_with g dc :=
  exists g, dc; split_and!;
    [vm_compute; discriminate
    | vm_compute; discriminate
    | first [by left | by right]
    | vm_compute; reflexivity].

Lemma twin_path_a_valid : path_from twin_init twin_a twin_path_a.
Proof.
  apply path_from_chain. split_and!; [done..|].
  intros t a b Ha Hb. destruct t as [|t]; [|by destruct t].
  vm_compute in Ha, Hb. simplify_eq. push_with 1 (-1).
Qed.

Lemma twin_path_b_valid : path_from twin_init twin_b twin_path_b.
Proof.
  apply path_from_chain. split_and!; [done..|].
  intros t a b Ha Hb. destruct t as [|[|[|[|t]]]];
    vm_compute in Ha, Hb; simplify_eq.
  - push_with 3 (-1).
  - push_with 1 1.
  - push_with 3 1.
  - push_with 2 (-1).
Qed.

Lemma twin_topology : topology twin_a = topology twin_b.
Proof. vm_compute. reflexivity. Qed.

(** C6, as stated, fails: the two move sequences lead from the same
    constructed level to states of identical topology in which the pair of
    colour 1 is group 1 in one state and group 2 in the other, so the two
    states do not compare equal. *)
Lemma numbering_depends_on_move_order :
  new_level twin_input = Ok twin_init ∧
  path_from twin_init twin_a twin_path_a ∧
  path_from twin_init twin_b twin_path_b ∧
  topology twin_a = topology twin_b ∧
  group <$> look (grid twin_a) (3, 1) = Some 1 ∧
  group <$> look (grid twin_b) (3, 1) = Some 2 ∧
  Level_compare twin_a twin_b ≠ Eq ∧ twin_a ≠ twin_b.
Proof.
  split_and!.
  - exact twin_new.
  - exact twin_path_a_valid.
  - exact twin_path_b_valid.
  - exact twin_topology.
  - vm_compute. reflexivity.
  - vm_compute. reflexivity.
  - vm_compute. discriminate.
  - intros H%Level_compare_eq. vm_compute in H. discriminate.
Qed.

(** C6, amended. Two states of identical topology reached from one
    constructed level by sequences of legal pushes have the same number of
    groups and the same partition of their cells into groups: two cells
    carry the same group identifier in one state exactly when they do in
    the other.  The identifiers themselves may differ. *)
Theorem same_topology_same_partition
    (input : list string) (init A B : Level) (la lb : list Level) :
  valid_input input → new_level input = Ok init →
  path_from init A la → path_from init B lb →
  topology A = topology B →
  groups A = groups B ∧
  ∀ p q xa ya xb yb,
    look (grid A) p = Some xa → look (grid A) q = Some ya →
    look (grid B) p = Some xb → look (grid B) q = Some yb →
    (group xa = group ya ↔ group xb = group yb).
Proof.
  intros Hvalid Hnew. apply partition_by_topology.
  by destruct (reachable_canonical input init Hvalid (reach_new _ _ Hnew)).
Qed.

Lemma same_topology_same_partition_witness :
  groups twin_a = groups twin_b ∧
  ∀ p q xa ya xb yb,
    look (grid twin_a) p = Some xa → look (grid twin_a) q = Some ya →
    look (grid twin_b) p = Some xb → look (grid twin_b) q = Some yb →
    (group xa = group ya ↔ group xb = group yb).
Proof.
  apply (same_topology_same_partition twin_input twin_init twin_a twin_b
           twin_path_a twin_path_b).
  - exact twin_valid.
  - exact twin_new.
  - exact twin_path_a_valid.
  - exact twin_path_b_valid.
  - exact twin_topology.
Defined.

(** * Further properties of the code *)

(** ** The merge pass only relabels *)

(** [same_frame G G']: the two grids have the same cells up to group
    identifiers, and the same outline. *)
Definition same_frame (G G' : Grid) : Prop :=
  same_shape G G' ∧ ∀ h w, rect h w G → rect h w G'.

Lemma same_frame_refl G : same_frame G G.
Proof. split; [apply same_shape_refl | done]. Qed.

Lemma same_frame_trans G1 G2 G3 :
  same_frame G1 G2 → same_frame G2 G3 → same_frame G1 G3.
Proof.
  intros [? H12] [? H23]. split; [by eapply same_shape_trans|].
  intros h w ?. by apply H23, H12.
Qed.

Lemma same_frame_set_group G r c x g :
  cell G r c = Some x → same_frame G (set_cell G r c (set_group x g)).
Proof.
  intros Hx. split.
  - intros q. rewrite look_set_cell_rc by (by exists x).
    destruct (decide (q = (r, c))) as [->|]; [|done].
    unfold look. simpl. by rewrite Hx.
  - intros h w ?. by apply rect_set_cell.
Qed.

Lemma Regroup_frame fuel from to :
  ∀ r c G G', Regroup fuel from to r c G = Ok G' → same_frame G G'.
Proof.
  induction fuel as [|fuel IH]; intros r c G G' Hrun; [done|].
  cbn [Regroup] in Hrun. inv_step Hrun as x Hx. apply at_Ok in Hx.
  case_bool_decide; [simplify_eq; apply same_frame_refl|].
  inv_step Hrun as G1 H1. apply put_Ok_inv in H1 as [_ ->].
  inv_step Hrun as G2 H2. inv_step Hrun as G3 H3. inv_step Hrun as G4 H4.
  eapply same_frame_trans; [by apply same_frame_set_group|].
  eapply same_frame_trans; [by eapply IH|].
  eapply same_frame_trans; [by eapply IH|].
  eapply same_frame_trans; [by eapply IH|]. by eapply IH.
Qed.

Lemma RemoveUnusedGroupNumber_frame g lv lv' :
  RemoveUnusedGroupNumber g lv = Ok lv' →
  width lv' = width lv ∧ height lv' = height lv ∧
  groups lv' = groups lv - 1 ∧ 0 < g ≤ groups lv ∧
  same_frame (grid lv) (grid lv').
Proof.
  unfold RemoveUnusedGroupNumber. intros Hrun.
  inv_step Hrun as [] Hg.
  apply assert_Ok_inv, andb_true_iff in Hg as
    [?%bool_decide_eq_true ?%bool_decide_eq_true].
  inv_step Hrun as gr Hloop. simplify_eq. simpl. split_and!; [done..|].
  apply (forM_invariant_inv (λ _ G, same_frame (grid lv) G)) in Hloop;
    [done | apply same_frame_refl |].
  intros done [r c] G G' _ HG Hbody.
  inv_step Hbody as x Hx. apply at_Ok in Hx. inv_step Hbody as [] Hne.
  case_bool_decide; [|by simplify_eq].
  apply put_Ok_inv in Hbody as [_ ->].
  eapply same_frame_trans; [done|]. by apply same_frame_set_group.
Qed.

(** What [UpdateConnections] may change. *)
Definition relabels (lv lv' : Level) : Prop :=
  width lv' = width lv ∧ height lv' = height lv ∧
  groups lv' ≤ groups lv ∧ same_frame (grid lv) (grid lv').

Lemma relabels_refl lv : relabels lv lv.
Proof. split_and!; [done.. | lia | apply same_frame_refl]. Qed.

Lemma relabels_trans lv1 lv2 lv3 :
  relabels lv1 lv2 → relabels lv2 lv3 → relabels lv1 lv3.
Proof.
  intros (? & ? & ? & ?) (? & ? & ? & ?).
  split_and!; [congruence.. | lia | by eapply same_frame_trans].
Qed.

Lemma connect_frame r c r2 c2 lv lv' :
  connect r c r2 c2 lv = Ok lv' → relabels lv lv'.
Proof.
  unfold connect. intros Hrun. inv_step Hrun as x Hx. inv_step Hrun as n Hn.
  destruct (_ && _); [|simplify_eq; apply relabels_refl].
  inv_step Hrun as gr Hre. apply Regroup_frame in Hre.
  apply RemoveUnusedGroupNumber_frame in Hrun as (Hw & Hh & Hg & _ & Hs).
  simpl in *. split_and!; [done.. | lia | by eapply same_frame_trans].
Qed.

Lemma UpdateConnections_frame lv lv' :
  UpdateConnections lv = Ok lv' → relabels lv lv'.
Proof.
  unfold UpdateConnections. intros Hrun.
  apply (forM_invariant_inv (λ _ lv1, relabels lv lv1)) in Hrun;
    [done | apply relabels_refl |].
  intros done [r c] lv1 lv2 _ H1 Hbody.
  inv_step Hbody as x Hx. destruct (_ && _); [|by simplify_eq].
  inv_step Hbody as lv3 H3. apply connect_frame in H3, Hbody.
  eauto using relabels_trans.
Qed.

(** X1. Whenever the merge pass [UpdateConnections] returns, it has left the
    dimensions and the type and colour of every cell as they were, and the
    number of groups has not grown: it changes group identifiers only. *)
Theorem UpdateConnections_relabels_only (lv lv' : Level) :
  UpdateConnections lv = Ok lv' →
  width lv' = width lv ∧ height lv' = height lv ∧
  groups lv' ≤ groups lv ∧
  ∀ p, (λ x, (type x, color x)) <$> look (grid lv') p
       = (λ x, (type x, color x)) <$> look (grid lv) p.
Proof.
  intros (Hw & Hh & Hg & Hs & _)%UpdateConnections_frame.
  split_and!; [done..|]. intros p. symmetry. apply Hs.
Qed.


(** A level before the merge pass: the two blocks of [puzzle_level] pushed
    together, still in two groups; and the level after it. *)
Definition loose_level : Level :=
  Eval vm_compute in
    match TryMove (grid puzzle_level) 1 1 0 1 with
    | Ok (_, g) => with_grid puzzle_level g
    | Err _ => puzzle_level
    end.

Definition merged_level : Level :=
  Eval vm_compute in
    match UpdateConnections loose_level with Ok lv => lv | Err _ => loose_level end.

Lemma UpdateConnections_relabels_only_witness :
  width merged_level = width loose_level ∧
  height merged_level = height loose_level ∧
  groups merged_level ≤ groups loose_level ∧
  ∀ p, (λ x, (type x, color x)) <$> look (grid merged_level) p
       = (λ x, (type x, color x)) <$> look (grid loose_level) p.
Proof.
  apply (UpdateConnections_relabels_only loose_level merged_level).
  vm_compute. reflexivity.
Defined.

(** ** What the constructor builds *)

(** The type and colour of the cell built for the character [ch]. *)
Definition glyph (ch : ascii) : CellType * Z :=
  if bool_decide (code ch = code "#") then (WALL, 0)
  else if is_digit ch then (MOVABLE, code ch - code "0")
  else (OPEN, 0).

(** The type and colour of the cell at [p] of the level built from
    [input]. *)
Definition drawing (input : list string) (p : pos) : CellType * Z :=
  if on_border (int (input_height input)) (int (input_width input)) p
  then (WALL, 0)
  else match char_at input (p.1 - 1) (p.2 - 1) with
       | Ok ch => glyph ch
       | Err _ => (OPEN, 0)
       end.

Lemma new_cell_draws input done s rest n gr n' gr' :
  let h := int (input_height input) in
  let w := int (input_width input) in
  all_cells h w = done ++ s :: rest →
  rect h w gr →
  (∀ p x, look gr p = Some x →
     (type x, color x) = if decide (p ∈ done) then drawing input p
                         else (OPEN, 0)) →
  new_cell input h w s (n, gr) = Ok (n', gr') →
  rect h w gr' ∧
  ∀ p x, look gr' p = Some x →
    (type x, color x) = if decide (p ∈ done ++ [s]) then drawing input p
                        else (OPEN, 0).
Proof.
  intros h w Hall Hrect Hdr Hrun.
  assert (s ∉ done) as Hsd.
  { pose proof (NoDup_all_cells h w) as Hnd. rewrite Hall in Hnd.
    apply NoDup_app in Hnd as (_ & Hnd & _). intros Hin.
    apply (Hnd s Hin). by left. }
  assert (∀ y, is_Some (look gr s) → (type y, color y) = drawing input s →
            rect h w (set_cell gr s.1 s.2 y) ∧
            ∀ p x, look (set_cell gr s.1 s.2 y) p = Some x →
              (type x, color x) = if decide (p ∈ done ++ [s])
                                  then drawing input p else (OPEN, 0))
    as Hset.
  { intros y Hs Hy. split; [by apply rect_set_cell|]. intros p x.
    rewrite look_set_cell by done.
    destruct (decide (p = s)) as [->|Hne].
    - intros ?. simplify_eq. rewrite decide_True; [done|].
      apply elem_of_app. right. by left.
    - intros Hx. rewrite (Hdr p x Hx).
      destruct (decide (p ∈ done)) as [Hin|Hout].
      + rewrite decide_True; [done|]. apply elem_of_app. by left.
      + rewrite decide_False; [done|].
        intros [?| ->%list_elem_of_singleton]%elem_of_app; done. }
  destruct s as [r c]. unfold new_cell in Hrun.
  change (bool_decide (r = 0) || bool_decide (r = h - 1)
          || bool_decide (c = 0) || bool_decide (c = w - 1))
    with (on_border h w (r, c)) in Hrun.
  destruct (on_border h w (r, c)) eqn:Hon.
  { inv_step Hrun as g1 Hput. apply put_Ok_inv in Hput as [Hin ->].
    simplify_eq. apply (Hset CellWall); [done|].
    unfold drawing. fold h w. by rewrite Hon. }
  inv_step Hrun as ch Hch.
  assert (drawing input (r, c) = glyph ch) as Hdraw.
  { unfold drawing. fold h w. rewrite Hon. simpl. by rewrite Hch. }
  unfold glyph in Hdraw. case_bool_decide as Hwall.
  { inv_step Hrun as g1 Hput. apply put_Ok_inv in Hput as [Hin ->].
    simplify_eq. by apply (Hset CellWall). }
  fold (is_digit ch) in Hrun. destruct (is_digit ch) eqn:Hdig.
  - inv_step Hrun as n1 Hincr. inv_step Hrun as g1 Hput.
    apply put_Ok_inv in Hput as [Hin ->].
    simplify_eq. apply (Hset _ Hin). simpl. rewrite Hdraw. f_equal.
    unfold is_digit in Hdig.
    apply andb_true_iff in Hdig as [H1%bool_decide_eq_true
                                    H9%bool_decide_eq_true].
    change (code "1") with 49 in H1. change (code "9") with 57 in H9.
    change (code "0") with 48. unfold uint8. apply Z.mod_small. lia.
  - simplify_eq. split; [done|]. intros p x Hx. rewrite (Hdr p x Hx).
    destruct (decide (p = (r, c))) as [->|Hne].
    + rewrite decide_False by done. rewrite decide_True; [done|].
      apply elem_of_app. right. by left.
    + destruct (decide (p ∈ done)) as [Hin|Hout].
      * rewrite decide_True; [done|]. apply elem_of_app. by left.
      * rewrite decide_False; [done|].
        intros [?| ->%list_elem_of_singleton]%elem_of_app; done.
Qed.

Lemma new_level_Ok_nonempty input lv : new_level input = Ok lv → input ≠ [].
Proof. by intros Hrun ->. Qed.

Lemma new_level_draws input lv :
  new_level input = Ok lv →
  width lv = int (input_width input) ∧
  height lv = int (input_height input) ∧
  rect (height lv) (width lv) (grid lv) ∧
  ∀ p x, look (grid lv) p = Some x → (type x, color x) = drawing input p.
Proof.
  intros Hrun. pose proof (new_level_Ok_nonempty _ _ Hrun) as Hne.
  rewrite new_level_unfold_int in Hrun by done.
  set (h := int (input_height input)) in *.
  set (w := int (input_width input)) in *.
  case_bool_decide as Hpos; [|done]. rewrite bind_Ok in Hrun.
  inv_step Hrun as [n gr] Hloop. cbn [fst snd] in Hrun.
  apply UpdateConnections_frame in Hrun as (Hw & Hh & _ & Hs & Hfr).
  simpl in Hw, Hh, Hs, Hfr.
  apply (forM_invariant_inv
    (λ done (st : Z * Grid), rect h w st.2 ∧
       ∀ p x, look st.2 p = Some x →
         (type x, color x) = if decide (p ∈ done) then drawing input p
                             else (OPEN, 0))) in Hloop.
  - destruct Hloop as [Hrect Hdr]. simpl in Hrect, Hdr.
    assert (∀ p x, look (grid lv) p = Some x →
              (type x, color x) = drawing input p) as Hcells.
    { intros p x Hx.
      destruct (same_shape_look _ _ p x (same_shape_sym _ _ Hs) Hx)
        as (x0 & Hx0 & Ht & Hc).
      rewrite <- Ht, <- Hc, (Hdr p x0 Hx0). rewrite decide_True; [done|].
      apply elem_of_all_cells. destruct p as [r c].
      apply (cell_in_range h w gr); [done | by exists x0]. }
    split_and!; [done | done | | done].
    rewrite Hw, Hh. by apply Hfr.
  - simpl. split.
    + apply rect_replicate; lia.
    + intros p x Hx%look_replicate. by simplify_eq.
  - intros done s [n1 g1] [n2 g2] [rest Hall] [Hrect Hdr] Hbody. simpl in *.
    by eapply (new_cell_draws input done s rest n1 g1 n2 g2).
Qed.


(** X2. Whenever the constructor returns, the level is the picture of its
    input: its width and height are those of the input plus the border,
    converted to [int], the grid is a rectangle of those dimensions, every
    border cell is a wall, and the cell at row [r], column [c] inside the
    border is a wall for the character [#], a block of colour [d] for a digit
    [d] of [1..9] and open for any other character at row [r - 1], column
    [c - 1] of the input, the terminating NUL that [operator[]] yields at the
    end of a row included. *)
Theorem new_level_cells (input : list string) (lv : Level) :
  new_level input = Ok lv →
  width lv = int (input_width input) ∧
  height lv = int (input_height input) ∧
  rect (height lv) (width lv) (grid lv) ∧
  ∀ p x, look (grid lv) p = Some x → (type x, color x) = drawing input p.
Proof. apply new_level_draws. Qed.

Lemma new_level_cells_witness :
  width twin_init = int (input_width twin_input) ∧
  height twin_init = int (input_height twin_input) ∧
  rect (height twin_init) (width twin_init) (grid twin_init) ∧
  ∀ p x, look (grid twin_init) p = Some x →
         (type x, color x) = drawing twin_input p.
Proof. apply (new_level_cells twin_input twin_init). exact twin_new. Defined.

(** [Cell::Char]: the character printed for a cell. *)
Definition Char (x : Cell) : ascii :=
  match type x with
  | OPEN => " "%char
  | WALL => "#"%char
  | MOVABLE => ascii_of_nat (Z.to_nat ((code "0" + color x) mod 256))
  end.

Lemma code_inj a b : code a = code b → a = b.
Proof.
  unfold code. intros H%Nat2Z.inj.
  by rewrite <- (ascii_nat_embedding a), H, ascii_nat_embedding.
Qed.

(** A constructor that returns has read a character for every cell inside
    the border. *)
Lemma new_level_reads input lv r c :
  new_level input = Ok lv →
  1 ≤ r ≤ height lv - 2 → 1 ≤ c ≤ width lv - 2 →
  ∃ ch, char_at input (r - 1) (c - 1) = Ok ch.
Proof.
  intros Hrun Hr Hc.
  pose proof (new_level_draws _ _ Hrun) as (Hw & Hh & _).
  pose proof (new_level_Ok_nonempty _ _ Hrun) as Hne.
  rewrite new_level_unfold_int in Hrun by done.
  set (h := int (input_height input)) in *.
  set (w := int (input_width input)) in *.
  case_bool_decide as Hpos; [|done]. rewrite bind_Ok in Hrun.
  inv_step Hrun as [n gr] Hloop. clear Hrun.
  assert (∀ p, p ∈ all_cells h w → on_border h w p = false →
            ∃ ch, char_at input (p.1 - 1) (p.2 - 1) = Ok ch) as Hall.
  2:{ apply (Hall (r, c)).
      - apply elem_of_all_cells. simpl. lia.
      - unfold on_border. simpl.
        rewrite !orb_false_iff, !bool_decide_eq_false. lia. }
  refine (forM_invariant_inv
    (λ done (_ : Z * Grid), ∀ p, p ∈ done → on_border h w p = false →
       ∃ ch, char_at input (p.1 - 1) (p.2 - 1) = Ok ch) _ _ _ _ _ _ Hloop).
  - intros p Hp. by apply elem_of_nil in Hp.
  - intros done s [n1 g1] [n2 g2] _ IH Hbody p
      [Hp| ->%list_elem_of_singleton]%elem_of_app Hon; [by apply IH|].
    destruct s as [r0 c0]. unfold new_cell in Hbody.
    change (bool_decide (r0 = 0) || bool_decide (r0 = h - 1)
            || bool_decide (c0 = 0) || bool_decide (c0 = w - 1))
      with (on_border h w (r0, c0)) in Hbody.
    rewrite Hon in Hbody. inv_step Hbody as ch Hch. by exists ch.
Qed.

(** X3. Printing reads the input back: in a level the constructor has
    returned, a character of the input was read for every cell inside the
    border (the terminating NUL for a row one character short), and the
    character [Cell::Char] gives for the cell is that character when it is
    [#] or a digit of [1..9], and a blank for any other character. *)
Theorem Char_new_level (input : list string) (lv : Level) (r c : Z)
    (x : Cell) :
  new_level input = Ok lv →
  1 ≤ r ≤ height lv - 2 → 1 ≤ c ≤ width lv - 2 →
  look (grid lv) (r, c) = Some x →
  ∃ ch, char_at input (r - 1) (c - 1) = Ok ch ∧
    Char x = if bool_decide (code ch = code "#") || is_digit ch then ch
             else " "%char.
Proof.
  intros Hnew Hr Hc Hx.
  destruct (new_level_reads input lv r c Hnew Hr Hc) as [ch Hch].
  exists ch. split; [done|].
  apply new_level_draws in Hnew as (Hw & Hh & _ & Hdr).
  specialize (Hdr (r, c) x Hx). unfold drawing in Hdr.
  rewrite <- Hw, <- Hh in Hdr.
  assert (on_border (height lv) (width lv) (r, c) = false) as Hon.
  { unfold on_border. simpl.
    rewrite !orb_false_iff, !bool_decide_eq_false. lia. }
  rewrite Hon in Hdr. simpl in Hdr. rewrite Hch in Hdr. unfold glyph in Hdr.
  unfold Char. case_bool_decide as Hwall.
  - injection Hdr as -> _. simpl. symmetry. by apply code_inj.
  - simpl. destruct (is_digit ch) eqn:Hdig; injection Hdr as -> Hcol; [|done].
    rewrite Hcol.
    replace ((code "0" + (code ch - code "0")) mod 256) with (code ch).
    + unfold code. by rewrite Nat2Z.id, ascii_nat_embedding.
    + replace (code "0" + (code ch - code "0")) with (code ch) by lia.
      symmetry. apply Z.mod_small. unfold code.
      pose proof (nat_ascii_bounded ch). lia.
Qed.

(** The picture [12], [1]: its second row is one character short, and the
    cell of row 2, column 2 is built from the NUL that ends the row. *)
Definition short_input : list string := ["12"; "1"]%string.

Definition short_level : Level :=
  Eval vm_compute in
    match new_level short_input with
    | Ok lv => lv
    | Err _ => mkLevel 0 0 0 []
    end.

Lemma Char_new_level_witness :
  ∃ ch, char_at short_input (2 - 1) (2 - 1) = Ok ch ∧
    Char Cell0 = if bool_decide (code ch = code "#") || is_digit ch then ch
                 else " "%char.
Proof.
  apply (Char_new_level short_input short_level 2 2 Cell0).
  - vm_compute. reflexivity.
  - vm_compute. split; discriminate.
  - vm_compute. split; discriminate.
  - vm_compute. reflexivity.
Defined.

(** X4. On a valid input (a non-empty rectangle of at most 255 rows and
    columns with at most 255 digits) the constructor runs without a fault
    and the level it builds has its border of walls, the group identifiers
    [1..groups] all in use, every group connected and of one colour, and
    any two adjacent blocks of one colour in one group. *)
Theorem new_level_well_formed (input : list string) :
  valid_input input →
  ∃ lv, new_level input = Ok lv ∧
        height lv = input_height input ∧ width lv = input_width input ∧
        shaped lv ∧ grouped (groups lv) (grid lv) ∧
        mono (grid lv) ∧ chromatic (grid lv) ∧ maximal (grid lv).
Proof.
  intros Hvalid.
  destruct (new_level_spec input Hvalid)
    as (lv & Hnew & Hh & Hw & [Hsh Hgr] & [Hm Hc] & Hmax).
  exists lv. split_and!; done.
Qed.

Lemma new_level_well_formed_witness :
  ∃ lv, new_level twin_input = Ok lv ∧
        height lv = input_height twin_input ∧
        width lv = input_width twin_input ∧
        shaped lv ∧ grouped (groups lv) (grid lv) ∧
        mono (grid lv) ∧ chromatic (grid lv) ∧ maximal (grid lv).
Proof. apply (new_level_well_formed twin_input). exact twin_valid. Defined.

(** ** Reading a level *)

(** The stream is the string of the characters not yet read.
    [std::getline] takes the characters up to the next newline, which it
    consumes, or up to the end of the stream; it fails when nothing is
    left. *)
Definition is_newline (ch : ascii) : bool := bool_decide (code ch = 10).

Fixpoint getline_from (s : string) : string * string :=
  match s with
  | EmptyString => (EmptyString, EmptyString)
  | String ch s' =>
      if is_newline ch then (EmptyString, s')
      else let '(line, rest) := getline_from s' in (String ch line, rest)
  end.

Definition getline (stream : string) : option (string * string) :=
  match stream with
  | EmptyString => None
  | _ => Some (getline_from stream)
  end.

(** The conversion of an [int] to [size_t] in [line.size() != width]. *)
Definition size_t (z : Z) : Z := z mod 18446744073709551616.

(** The end of [ReadLevel], after its loop. *)
Definition read_end (width height : Z) (grid : list string)
  : result (option Level) :=
  if bool_decide (width = 0) || bool_decide (height = 0) then Ok None
  else lv ← new_level grid; Ok (Some lv).

(** The loop of [ReadLevel]; every turn takes at least one character off
    the stream, which bounds [fuel]. *)
Fixpoint read_rows (fuel : nat) (stream : string) (width height : Z)
    (grid : list string) : result (option Level) :=
  match fuel with
  | O => Err OutOfFuel
  | S fuel =>
      match getline stream with
      | Some (line, rest) =>
          let size := Z.of_nat (String.length line) in
          if bool_decide (size = 0) then read_end width height grid
          else if bool_decide (width = 0) then
            if bool_decide (size = 0) then Ok None
            else
              height ← int_incr height;
              read_rows fuel rest (int size) height (grid ++ [line])
          else if bool_decide (size ≠ size_t width) then Ok None
          else
            height ← int_incr height;
            read_rows fuel rest width height (grid ++ [line])
      | None => read_end width height grid
      end
  end.

Definition ReadLevel (stream : string) : result (option Level) :=
  read_rows (S (String.length stream)) stream 0 0 [].

(** The text of a picture: its rows, separated by newlines. *)
Fixpoint join (rows : list string) : string :=
  match rows with
  | [] => EmptyString
  | [row] => row
  | row :: rows => String.append row (String "010" (join rows))
  end.

(** A row of a picture: no newline in it. *)
Fixpoint plain (s : string) : bool :=
  match s with
  | EmptyString => true
  | String ch s' => negb (is_newline ch) && plain s'
  end.

(** What may follow the last row: the end of the stream, or a newline
    followed by the end of the stream or by an empty line. *)
Definition ends_level (tail : string) : bool :=
  match tail with
  | EmptyString => true
  | String c1 EmptyString => is_newline c1
  | String c1 (String c2 _) => is_newline c1 && is_newline c2
  end.

Lemma string_append_nil (b : string) : String.append EmptyString b = b.
Proof. reflexivity. Qed.

Lemma string_append_cons ch (a b : string) :
  String.append (String ch a) b = String ch (String.append a b).
Proof. reflexivity. Qed.

Lemma string_length_append (a b : string) :
  String.length (String.append a b) = (String.length a + String.length b)%nat.
Proof.
  induction a as [|ch a IH]; [done|].
  rewrite string_append_cons. simpl. by rewrite IH.
Qed.

Lemma string_append_assoc (a b c : string) :
  String.append (String.append a b) c = String.append a (String.append b c).
Proof.
  induction a as [|ch a IH]; [done|].
  rewrite !string_append_cons. by rewrite IH.
Qed.

(** [after rest more]: what is left of the stream [rest] behind a row once
    [getline] has taken the row. *)
Definition after (rest more : string) : Prop :=
  (rest = EmptyString ∧ more = EmptyString) ∨ rest = String "010" more.

Lemma getline_from_row row rest more :
  plain row = true → after rest more →
  getline_from (String.append row rest) = (row, more).
Proof.
  intros Hrow Hafter. induction row as [|ch row IH].
  - rewrite string_append_nil. by destruct Hafter as [[-> ->]| ->].
  - rewrite string_append_cons. simpl in *.
    apply andb_true_iff in Hrow as [Hch Hrow].
    apply negb_true_iff in Hch. by rewrite Hch, IH.
Qed.

Lemma getline_row row rest more :
  plain row = true → row ≠ EmptyString → after rest more →
  getline (String.append row rest) = Some (row, more).
Proof.
  intros Hrow Hne Hafter. unfold getline.
  destruct row as [|ch row]; [done|]. rewrite string_append_cons.
  by rewrite <- string_append_cons, (getline_from_row _ rest more Hrow Hafter).
Qed.

(** The loop stops at the end of the stream and at an empty line. *)
Lemma read_rows_stop fuel stream width height grid :
  match stream with
  | EmptyString => True
  | String ch _ => is_newline ch = true
  end →
  read_rows (S fuel) stream width height grid = read_end width height grid.
Proof.
  intros Hstop. cbn [read_rows]. destruct stream as [|ch rest]; [done|].
  simpl. by rewrite Hstop.
Qed.

Section reading.
Context (len : Z) (Hlen : 0 < len < 2147483648).

(** The rows of a picture [len] characters wide. *)
Definition row_ok (row : string) : Prop :=
plain row = true ∧ Z.of_nat (String.length row) = len.

Lemma read_row fuel row rest more width height grid :
row_ok row → after rest more → width = 0 ∨ width = len →
height < 2147483647 →
read_rows (S fuel) (String.append row rest) width height grid
= read_rows fuel more len (height + 1) (grid ++ [row]).
Proof using Hlen.
intros [Hplain Hrow] Hafter Hwidth Hheight.
assert (row ≠ EmptyString) as Hne by (intros ->; simpl in Hrow; lia).
cbn [read_rows]. rewrite (getline_row row rest more) by done.
rewrite Hrow. rewrite (bool_decide_eq_false_2 (len = 0)) by lia.
assert (int_incr height = Ok (height + 1)) as Hincr
by (unfold int_incr; by rewrite bool_decide_eq_true_2 by lia).
destruct Hwidth as [-> | ->].
- rewrite bool_decide_eq_true_2 by done. rewrite Hincr, bind_Ok.
replace (int len) with len; [done|].
unfold int. rewrite Z.mod_small by lia. lia.
- rewrite (bool_decide_eq_false_2 (len = 0)) by lia.
rewrite bool_decide_eq_false_2.
+ by rewrite Hincr, bind_Ok.
+ unfold size_t. rewrite Z.mod_small by lia. by intros [].
Qed.

Lemma read_rows_join rows :
∀ rest more fuel width height grid,
rows ≠ [] → Forall row_ok rows → after rest more →
width = 0 ∨ width = len →
height + Z.of_nat (length rows) < 2147483648 →
(length rows ≤ fuel)%nat →
read_rows fuel (String.append (join rows) rest) width height grid
= read_rows (fuel - length rows) more len
(height + Z.of_nat (length rows)) (grid ++ rows).
Proof using Hlen.
induction rows as [|row rows IH];
intros rest more fuel width height grid Hne Hrows Hafter Hwidth Hh Hfuel;
[done|].
apply Forall_cons in Hrows as [Hrow Hrows].
destruct fuel as [|fuel]; [simpl in Hfuel; lia|].
destruct rows as [|row2 rows].
- cbn [join]. rewrite (read_row fuel row rest more) by (done || simpl in Hh; lia).
simpl. by rewrite Nat.sub_0_r.
- change (join (row :: row2 :: rows))
with (String.append row (String "010" (join (row2 :: rows)))).
rewrite string_append_assoc.
rewrite string_append_cons.
rewrite (read_row fuel row _ (String.append (join (row2 :: rows)) rest));
[|done|by right|done|simpl in Hh; lia].
rewrite (IH rest more); [|done|done|done|by right| |].
+ change (length (row :: row2 :: rows)) with (S (length (row2 :: rows))).
rewrite <- app_assoc. simpl. f_equal. lia.
+ simpl in *. lia.
+ simpl in *. lia.
Qed.

Lemma join_length rows :
Forall row_ok rows → (length rows ≤ String.length (join rows))%nat.
Proof using Hlen.
induction rows as [|row rows IH]; intros Hrows; [simpl; lia|].
apply Forall_cons in Hrows as [[_ Hrow] Hrows].
destruct rows as [|row2 rows]; [simpl; lia|].
change (join (row :: row2 :: rows))
with (String.append row (String "010" (join (row2 :: rows)))).
rewrite string_length_append. specialize (IH Hrows). simpl in *. lia.
Qed.
End reading.

Lemma ends_level_after tail :
  ends_level tail = true →
  ∃ more, after tail more ∧
    match more with
    | EmptyString => True
    | String ch _ => is_newline ch = true
    end.
Proof.
  destruct tail as [|c1 [|c2 tail]]; simpl.
  - exists EmptyString. split; [by left|done].
  - intros H1. exists EmptyString. split; [|done]. right.
    apply bool_decide_eq_true in H1. f_equal. apply code_inj. by rewrite H1.
  - intros [H1 H2]%andb_true_iff. exists (String c2 tail). split; [|done].
    right. apply bool_decide_eq_true in H1. f_equal. apply code_inj.
    by rewrite H1.
Qed.

(** X5. [ReadLevel] reads a picture: when the stream holds rows of one
    positive length without a newline in them, separated by newlines and
    followed by the end of the stream or by an empty line, the result is the
    level the constructor builds from exactly those rows, whatever follows
    the empty line; and it is no level when there is no row at all. *)
Theorem ReadLevel_picture (len : Z) (rows : list string) (tail : string) :
  0 < len < 2147483648 → Forall (row_ok len) rows →
  Z.of_nat (length rows) < 2147483648 → ends_level tail = true →
  ReadLevel (String.append (join rows) tail) =
    match rows with
    | [] => Ok None
    | _ => lv ← new_level rows; Ok (Some lv)
    end.
Proof.
  intros Hlen Hrows Hcount Htail. unfold ReadLevel.
  destruct (ends_level_after tail Htail) as (more & Hafter & Hmore).
  destruct (decide (rows = [])) as [->|Hne].
  - cbn [join]. rewrite string_append_nil.
    rewrite read_rows_stop; [done|].
    destruct tail as [|c1 [|c2 tail]]; simpl in *; [done..|].
    by apply andb_true_iff in Htail as [? _].
  - pose proof (join_length len Hlen rows Hrows) as Hjoin.
    rewrite (read_rows_join len Hlen rows tail more);
      [|done|done|done|by left|lia|rewrite string_length_append; lia].
    rewrite string_length_append.
    replace (S (String.length (join rows) + String.length tail)
             - length rows)%nat
      with (S (String.length (join rows) + String.length tail
               - length rows)) by lia.
    rewrite read_rows_stop by done. unfold read_end.
    rewrite (bool_decide_eq_false_2 (len = 0)) by lia.
    rewrite bool_decide_eq_false_2; [by destruct rows|].
    destruct rows; [done|]. simpl. lia.
Qed.

Lemma ReadLevel_picture_witness :
  ReadLevel (String.append (join twin_input) (String "010" EmptyString)) =
    lv ← new_level twin_input; Ok (Some lv).
Proof.
  apply (ReadLevel_picture 5 twin_input (String "010" EmptyString)).
  - lia.
  - repeat constructor.
  - vm_compute. reflexivity.
  - reflexivity.
Defined.

(** X6. [ReadLevel] rejects a ragged picture: when the rows read so far
    have one length and the next line of the stream is not empty and has
    another length, the result is no level, whatever follows that line. *)
Theorem ReadLevel_ragged (len : Z) (rows : list string) (bad rest : string) :
  0 < len < 2147483648 → rows ≠ [] → Forall (row_ok len) rows →
  Z.of_nat (length rows) < 2147483648 →
  plain bad = true → bad ≠ EmptyString →
  Z.of_nat (String.length bad) ≠ len →
  rest = EmptyString ∨ (∃ more, rest = String "010" more) →
  ReadLevel (String.append (join rows)
               (String "010" (String.append bad rest))) = Ok None.
Proof.
  intros Hlen Hne Hrows Hcount Hplain Hbad Hsize Hrest. unfold ReadLevel.
  pose proof (join_length len Hlen rows Hrows) as Hjoin.
  rewrite (read_rows_join len Hlen rows _ (String.append bad rest));
    [|done|done|by right|by left|lia|rewrite string_length_append; lia].
  rewrite string_length_append.
  replace (S (String.length (join rows)
              + String.length (String "010" (String.append bad rest)))
           - length rows)%nat
    with (S (String.length (join rows)
             + String.length (String "010" (String.append bad rest))
             - length rows)) by lia.
  cbn [read_rows].
  assert (∃ more, after rest more) as [more Hafter].
  { destruct Hrest as [->|[more ->]];
      [exists EmptyString; by left | exists more; by right]. }
  rewrite (getline_row bad rest more) by done.
  assert (String.length bad ≠ 0%nat) by (by destruct bad).
  rewrite bool_decide_eq_false_2 by lia.
  rewrite (bool_decide_eq_false_2 (len = 0)) by lia.
  rewrite bool_decide_eq_true_2; [done|].
  unfold size_t. rewrite Z.mod_small by lia. done.
Qed.

Lemma ReadLevel_ragged_witness :
  ReadLevel (String.append (join twin_input)
               (String "010" (String.append "##" EmptyString))) = Ok None.
Proof.
  apply (ReadLevel_ragged 5 twin_input "##" EmptyString).
  - lia.
  - done.
  - repeat constructor.
  - vm_compute. reflexivity.
  - reflexivity.
  - done.
  - vm_compute. discriminate.
  - by left.
Defined.

(** ** The order on levels *)

(** X7. The defaulted [operator<=>] of [Level] is a total order that agrees
    with equality: two levels compare equal exactly when they are the same
    level, swapping the arguments reverses the result, and "less than" is
    transitive.  This is what [std::sort], [std::unique] and [std::map] need
    of it. *)
Theorem Level_compare_total_order :
  (∀ a b, Level_compare a b = Eq ↔ a = b) ∧
  (∀ a b, Level_compare b a = CompOpp (Level_compare a b)) ∧
  (∀ a b c, Level_compare a b = Lt → Level_compare b c = Lt →
            Level_compare a c = Lt).
Proof.
  destruct Level_compare_good as [Heq Hopp Htrans]. by split_and!.
Qed.

(** "Less than" on levels. *)
Definition Level_lt (a b : Level) : Prop := Level_compare a b = Lt.

Lemma Level_le_lt a b : Level_le a b → a ≠ b → Level_lt a b.
Proof.
  unfold Level_le, Level_lt. intros Hle Hne.
  destruct (Level_compare a b) eqn:Hc; [|done..].
  by apply Level_compare_eq in Hc.
Qed.

Lemma unique_sorted l :
  StronglySorted Level_le l → StronglySorted Level_lt (unique l).
Proof.
  induction l as [|y l IH]; intros Hs; [constructor|].
  apply StronglySorted_cons in Hs as [Hy Hs]. destruct l as [|z l].
  { repeat constructor. }
  rewrite unique_cons. case_bool_decide as Hyz; [by apply IH|].
  apply StronglySorted_cons. split; [|by apply IH].
  apply Forall_forall. intros x Hx. rewrite elem_of_unique in Hx.
  rewrite Forall_forall in Hy. pose proof (Hy x Hx) as Hle.
  apply Level_le_lt; [done|]. intros <-.
  apply StronglySorted_cons in Hs as [Hz _]. rewrite Forall_forall in Hz.
  apply elem_of_cons in Hx as [->|Hx]; [done|].
  apply Hyz. apply (anti_symm Level_le); [apply Hy; by left | by apply Hz].
Qed.

(** X8. Whenever [Successors] returns, its result is in strictly increasing
    order of the comparison of levels, whatever the order in which the
    pushes produced the states. *)
Theorem Successors_sorted (lv : Level) (l : list Level) :
  Successors lv = Ok l → StronglySorted Level_lt l.
Proof.
  unfold Successors. intros Hrun. inv_step Hrun as [copy res] Hmoves.
  simplify_eq. apply unique_sorted, StronglySorted_merge_sort; apply _.
Qed.

(** The successors of [twin_init]. *)
Definition twin_successors : list Level :=
  Eval vm_compute in
    match Successors twin_init with Ok l => l | Err _ => [] end.

Lemma Successors_sorted_witness : StronglySorted Level_lt twin_successors.
Proof.
  apply (Successors_sorted twin_init twin_successors).
  vm_compute. reflexivity.
Defined.


(** ** What a successful grab moves *)

(** X9. When [TryMove] succeeds on a well-shaped grid, the cells it has
    moved are exactly the blocks reached from the start by following, from
    block to block, the neighbour in the push direction or a neighbour of
    the same group; none of them faces a wall; each has moved one cell in
    the push direction with its content, the cells they left and did not
    refill are empty, and every other cell is as before. *)
Theorem TryMove_moves_grabbed (h w : Z) (G G' : Grid) (r c dr dc : Z) :
  walled h w G → movable G (r, c) → valid_dir dr dc = true →
  TryMove G r c dr dc = Ok (true, G') →
  ∃ ps : list pos,
    (∀ p, p ∈ ps ↔ rtc (edge (dr, dc) G) (r, c) p) ∧
    (∀ p, p ∈ ps → ¬ blocked (dr, dc) G p) ∧
    ∀ q, look G' q =
      if decide (unstep q (dr, dc) ∈ ps) then look G (unstep q (dr, dc))
      else if decide (q ∈ ps) then Some Cell0 else look G q.
Proof.
  intros HG Hs Hd%valid_dir_dirs Hrun.
  destruct (TryMove_spec h w (dr, dc) Hd G (r, c) (walled_inside _ _ _ HG) Hs)
    as (b & ps & Hgrab & Hrun').
  simpl in Hrun'. rewrite Hrun' in Hrun. destruct b; [|by simplify_eq].
  simplify_eq. exists ps. split_and!.
  - intros p. split.
    + destruct Hgrab as [(_ & _ & _ & Hreach) _]. apply Hreach.
    + apply (grabbed_closed _ _ _ _ Hgrab).
      by destruct Hgrab as [(_ & _ & ? & _) _].
  - intros p Hp. destruct Hgrab as [_ Hcl]. by destruct (Hcl p Hp).
  - apply (look_shifted h w (dr, dc) Hd G (r, c) ps HG Hgrab).
Qed.

Lemma TryMove_moves_grabbed_witness :
  ∃ ps : list pos,
    (∀ p, p ∈ ps ↔ rtc (edge (0, 1) (grid puzzle_level)) (1, 1) p) ∧
    (∀ p, p ∈ ps → ¬ blocked (0, 1) (grid puzzle_level) p) ∧
    ∀ q, look (grid loose_level) q =
      if decide (unstep q (0, 1) ∈ ps)
      then look (grid puzzle_level) (unstep q (0, 1))
      else if decide (q ∈ ps) then Some Cell0
           else look (grid puzzle_level) q.
Proof.
  apply (TryMove_moves_grabbed 3 5 (grid puzzle_level) (grid loose_level)
           1 1 0 1).
  - apply (proj1 puzzle_inv).
  - eexists. split; vm_compute; reflexivity.
  - reflexivity.
  - vm_compute. reflexivity.
Defined.

(** ** Moves conserve the walls and the blocks *)

Definition wall_at (G : Grid) (p : pos) : Prop :=
  ∃ x, look G p = Some x ∧ type x = WALL.

(** The number of cells of an [h] by [w] grid that satisfy [P]. *)
Definition holds (P : Cell → bool) (G : Grid) (p : pos) : bool :=
  match look G p with Some x => P x | None => false end.

Definition census (P : Cell → bool) (h w : Z) (G : Grid) : nat :=
  length (filter (λ p, holds P G p = true) (all_cells h w)).

(** A block of colour [k]. *)
Definition is_block_of (k : Z) (x : Cell) : bool :=
  is_type MOVABLE x && bool_decide (color x = k).

(** What a move conserves: the walls stay where they are, and the number
    of blocks of every colour stays what it is. *)
Definition conserved (h w : Z) (G G' : Grid) : Prop :=
  (∀ p, wall_at G' p ↔ wall_at G p) ∧
  ∀ k, census (is_block_of k) h w G' = census (is_block_of k) h w G.

Lemma conserved_refl h w G : conserved h w G G.
Proof. by split. Qed.

Lemma conserved_trans h w G1 G2 G3 :
  conserved h w G1 G2 → conserved h w G2 G3 → conserved h w G1 G3.
Proof.
  intros [Hw1 Hc1] [Hw2 Hc2]. split.
  - intros p. by rewrite Hw2.
  - intros k. by rewrite Hc2, Hc1.
Qed.

Lemma holds_all_cells P h w G p :
  rect h w G → holds P G p = true → p ∈ all_cells h w.
Proof.
  intros Hrect Hp. unfold holds in Hp.
  destruct (look G p) as [x|] eqn:Hx; [|done].
  apply elem_of_all_cells. destruct p as [r c].
  apply (cell_in_range h w G); [done | by exists x].
Qed.

Section shift_conserves.
Context (h w : Z) (d : pos) (Hd : d ∈ dirs).
Context (G : Grid) (s : pos) (ps : list pos).
Context (HG : walled h w G) (Hgrab : grabbed d G s ps true).

Lemma pushed_inj p q :
movable G p → movable G q → pushed d ps p = pushed d ps q → p = q.
Proof using Hd Hgrab.
unfold pushed. intros Hp Hq.
destruct (decide (p ∈ ps)) as [Hpin|Hpout];
destruct (decide (q ∈ ps)) as [Hqin|Hqout]; intros Heq.
- by apply (step_inj p q d).
- exfalso. apply (not_pushed_into d Hd G s ps Hgrab q Hq Hqout).
by rewrite <- Heq, unstep_step.
- exfalso. apply (not_pushed_into d Hd G s ps Hgrab p Hp Hpout).
by rewrite Heq, unstep_step.
- done.
Qed.

Lemma shift_walls p : wall_at (shift d G ps) p ↔ wall_at G p.
Proof using Hd HG Hgrab.
split.
- intros (x & Hx & Hxt).
rewrite (look_shifted h w d Hd G s ps HG Hgrab) in Hx.
destruct (decide (unstep p d ∈ ps)) as [Hin|_].
+ destruct (grabbed_movable d G s ps Hgrab _ Hin) as (y & Hy & Hyt).
congruence.
+ destruct (decide (p ∈ ps)); [by simplify_eq|]. by exists x.
- intros (x & Hx & Hxt). exists x. split; [|done].
by apply (wall_stays h w d Hd G s ps HG Hgrab).
Qed.

Lemma shift_census P :
(∀ x, P x = true → type x = MOVABLE) →
census P h w (shift d G ps) = census P h w G.
Proof using Hd HG Hgrab.
intros HP. unfold census.
set (B := filter (λ p, holds P G p = true) (all_cells h w)).
set (B' := filter (λ p, holds P (shift d G ps) p = true) (all_cells h w)).
pose proof (walled_shift h w d Hd G s ps HG Hgrab) as (Hrect' & _).
pose proof HG as (Hrect & _).
assert (∀ p, p ∈ B → movable G p ∧ holds P G p = true) as HB.
{ intros p [Hp _]%list_elem_of_filter. split; [|done]. unfold holds in Hp.
destruct (look G p) as [x|] eqn:Hx; [|done]. exists x. auto. }
assert (NoDup B) as HndB by apply NoDup_filter, NoDup_all_cells.
assert (NoDup B') as HndB' by apply NoDup_filter, NoDup_all_cells.
assert (NoDup (pushed d ps <$> B)) as Hnd.
{ apply NoDup_fmap_2_strong; [|done]. intros p q Hp Hq.
apply pushed_inj; [by apply HB | by apply HB]. }
assert (∀ u, u ∈ B' → u ∈ pushed d ps <$> B) as H1.
{ intros u [Hu _]%list_elem_of_filter. unfold holds in Hu.
destruct (look (shift d G ps) u) as [x|] eqn:Hx; [|done].
destruct (look_shift_movable h w d Hd G s ps HG Hgrab u x Hx (HP x Hu))
as (p & <- & Hp).
apply list_elem_of_fmap. exists p. split; [done|].
assert (holds P G p = true) as Hh by (unfold holds; by rewrite Hp).
apply list_elem_of_filter. split; [done|].
by apply (holds_all_cells P h w G). }
assert (∀ u, u ∈ pushed d ps <$> B → u ∈ B') as H2.
{ intros u (p & -> & Hp)%list_elem_of_fmap. destruct (HB p Hp) as [Hm Hh].
assert (holds P (shift d G ps) (pushed d ps p) = true) as Hh'.
{ unfold holds. rewrite (look_pushed h w d Hd G s ps HG Hgrab p Hm).
apply Hh. }
apply list_elem_of_filter. split; [done|].
by apply (holds_all_cells P h w (shift d G ps)). }
pose proof (submseteq_length _ _ (NoDup_submseteq _ _ HndB' H1)) as Hle1.
pose proof (submseteq_length _ _ (NoDup_submseteq _ _ Hnd H2)) as Hle2.
rewrite length_fmap in Hle1, Hle2. lia.
Qed.

Lemma shift_conserved : conserved h w G (shift d G ps).
Proof using Hd HG Hgrab.
split; [apply shift_walls|]. intros k. apply shift_census.
intros x [Hx _]%andb_true_iff. by apply bool_decide_eq_true in Hx.
Qed.
End shift_conserves.

Lemma TryMove_conserved h w d G s b G' :
  d ∈ dirs → walled h w G → TryMove G s.1 s.2 d.1 d.2 = Ok (b, G') →
  walled h w G' ∧ conserved h w G G'.
Proof.
  intros Hd HG Hrun.
  assert (movable G s) as Hs.
  { destruct s. by apply TryMove_Ok_movable in Hrun. }
  destruct (TryMove_spec h w d Hd G s (walled_inside _ _ _ HG) Hs)
    as (b' & ps & Hgrab & Hrun').
  rewrite Hrun' in Hrun. destruct b'; simplify_eq.
  - split; [by eapply walled_shift | by eapply shift_conserved].
  - split; [done | apply conserved_refl].
Qed.

Lemma DropDown_conserved h w G G' :
  walled h w G → DropDown h w G = Ok G' →
  walled h w G' ∧ conserved h w G G'.
Proof.
  intros HG Hrun. unfold DropDown in Hrun.
  apply (forM_invariant_inv
           (λ _ g, walled h w g ∧ conserved h w G g)) in Hrun;
    [done | split; [done | apply conserved_refl] |].
  intros done [r c] g g' _ [Hg Hc] Hbody.
  inv_step Hbody as x Hx. destruct (is_type MOVABLE x); [|by simplify_eq].
  inv_step Hbody as [b g''] Htry. simplify_eq.
  destruct (TryMove_conserved h w down g (r, c) b g' down_dirs Hg Htry).
  split; [done|]. by eapply conserved_trans.
Qed.

Lemma same_shape_conserved h w G G' :
  same_shape G G' → conserved h w G G'.
Proof.
  intros Hs. split.
  - intros p. split; intros (x & Hx & Hxt).
    + destruct (same_shape_look G' G p x (same_shape_sym _ _ Hs) Hx)
        as (y & Hy & Ht & _).
      exists y. split; [done | congruence].
    + destruct (same_shape_look G G' p x Hs Hx) as (y & Hy & Ht & _).
      exists y. split; [done | congruence].
  - intros k. unfold census. f_equal. apply list_filter_iff. intros p.
    unfold holds. specialize (Hs p).
    destruct (look G p) as [x|], (look G' p) as [y|]; simplify_eq/=; [|done].
    unfold is_block_of, is_type. by rewrite H, H0.
Qed.

Lemma same_frame_walled h w G G' :
  walled h w G → same_frame G G' → walled h w G'.
Proof.
  intros (Hrect & Hh & Hw & Hbd) [Hs Hfr]. split_and!; [by apply Hfr|done..|].
  intros r c x Hx Hon.
  destruct (same_shape_look G' G (r, c) x (same_shape_sym _ _ Hs) Hx)
    as (y & Hy & Ht & _).
  rewrite <- Ht. by apply (Hbd r c y).
Qed.

(** X10. Whenever [MoveGroup] returns on a well-shaped state, whether the
    push succeeded or not, the resulting state has the same dimensions and
    is well-shaped, its walls are where they were, and it has as many
    blocks of every colour as before: a move never creates, destroys or
    recolours a block and never moves a wall. *)
Theorem MoveGroup_conserves (lv lv' : Level) (g dr dc : Z) (b : bool) :
  shaped lv → MoveGroup lv g dr dc = Ok (b, lv') →
  width lv' = width lv ∧ height lv' = height lv ∧ shaped lv' ∧
  (∀ p, wall_at (grid lv') p ↔ wall_at (grid lv) p) ∧
  ∀ k, census (is_block_of k) (height lv) (width lv) (grid lv')
       = census (is_block_of k) (height lv) (width lv) (grid lv).
Proof.
  intros Hsh Hrun.
  destruct (MoveGroup_Ok_inv lv g dr dc (proj1 Hsh) _ Hrun)
    as (Hd%valid_dir_dirs & _ & s & _ & Hmove).
  unfold move_at in Hmove. inv_step Hmove as [b1 gr] Htry.
  destruct (TryMove_conserved _ _ (dr, dc) _ s _ _ Hd Hsh Htry) as [Hw1 Hc1].
  destruct b1; [|simplify_eq; by destruct Hc1].
  inv_step Hmove as gr' Hdrop. inv_step Hmove as lv1 Hupd. simplify_eq.
  destruct (DropDown_conserved _ _ _ _ Hw1 Hdrop) as [Hw2 Hc2].
  apply UpdateConnections_frame in Hupd as (Hw & Hh & _ & Hfr).
  simpl in Hw, Hh, Hfr.
  assert (conserved (height lv) (width lv) (grid lv) (grid lv')) as [? ?].
  { eapply conserved_trans; [done|]. eapply conserved_trans; [done|].
    apply same_shape_conserved, Hfr. }
  split_and!; [done..| |done|done].
  unfold shaped. rewrite Hw, Hh. by eapply same_frame_walled.
Qed.

Lemma MoveGroup_conserves_witness :
  width twin_a = width twin_init ∧ height twin_a = height twin_init ∧
  shaped twin_a ∧
  (∀ p, wall_at (grid twin_a) p ↔ wall_at (grid twin_init) p) ∧
  ∀ k, census (is_block_of k) (height twin_init) (width twin_init)
         (grid twin_a)
       = census (is_block_of k) (height twin_init) (width twin_init)
           (grid twin_init).
Proof.
  apply (MoveGroup_conserves twin_init twin_a 1 0 (-1) true).
  - apply twin_canonical.
  - vm_compute. reflexivity.
Defined.


(** ** Gravity *)

(** X11. On a well-shaped grid [DropDown] runs without a fault and leaves
    every block supported: from each block, going from block to block to
    the one below or to a neighbour of the same group, one reaches a block
    that stands on a wall.  No block, alone or with what it rests on and
    is tied to, can fall any further. *)
Theorem DropDown_supports (h w : Z) (G : Grid) :
  walled h w G →
  ∃ G', DropDown h w G = Ok G' ∧ walled h w G' ∧
    ∀ p, movable G' p →
      ∃ q, rtc (edge (1, 0) G') p q ∧ blocked (1, 0) G' q.
Proof.
  intros HG. destruct (DropDown_settles h w G HG) as (G' & Hrun & HG' & Hst).
  exists G'. split_and!; [done..|]. intros p Hp. apply (Hst p Hp).
Qed.

Lemma DropDown_supports_witness :
  ∃ G', DropDown 5 7 (grid twin_init) = Ok G' ∧ walled 5 7 G' ∧
    ∀ p, movable G' p →
      ∃ q, rtc (edge (1, 0) G') p q ∧ blocked (1, 0) G' q.
Proof.
  apply (DropDown_supports 5 7 (grid twin_init)).
  apply (proj1 (proj1 twin_canonical)).
Defined.

(** Merging groups keeps blocks supported. *)
Lemma edge_coarser d G G' p q :
  same_shape G G' → coarser G G' → edge d G p q → edge d G' p q.
Proof.
  intros Hs Hc (δ & x & y & Hδ & -> & Hx & Hxt & Hy & Hyt & Hg).
  destruct (same_shape_look G G' p x Hs Hx) as (x' & Hx' & Htx & _).
  destruct (same_shape_look G G' _ y Hs Hy) as (y' & Hy' & Hty & _).
  exists δ, x', y'. split_and!; [done..|congruence|done|congruence|].
  destruct Hg as [->|Hg]; [by left|]. right.
  by apply (Hc (step p δ) p y x y' x').
Qed.

Lemma settled_coarser G G' :
  same_shape G G' → coarser G G' → settled G → settled G'.
Proof.
  intros Hs Hc Hst p (x' & Hx' & Hxt').
  destruct (same_shape_look G' G p x' (same_shape_sym _ _ Hs) Hx')
    as (x & Hx & Htx & _).
  destruct (Hst p) as (q & Hpq & Hq); [exists x; split; congruence|].
  exists q. split.
  - clear Hx Hx' Htx Hxt'. induction Hpq as [|p p' q Hedge _ IH]; [done|].
    eapply rtc_l; [by eapply edge_coarser|]. by apply IH.
  - destruct Hq as (u & v & Hu & Hut & Hv & Hvt).
    destruct (same_shape_look G G' q u Hs Hu) as (u' & Hu' & Htu & _).
    destruct (same_shape_look G G' _ v Hs Hv) as (v' & Hv' & Htv & _).
    exists u', v'. split_and!; congruence.
Qed.

(** X12. A successful [MoveGroup] on a state that satisfies the invariant
    leaves a state of the same dimensions that satisfies it again, in
    which adjacent blocks of one colour share a group, every block is
    supported, and the number of groups is at least one and has not
    grown. *)
Theorem MoveGroup_success_state (lv lv' : Level) (g dr dc : Z) :
  inv lv → MoveGroup lv g dr dc = Ok (true, lv') →
  width lv' = width lv ∧ height lv' = height lv ∧
  inv lv' ∧ maximal (grid lv') ∧ settled (grid lv') ∧
  1 ≤ groups lv' ≤ groups lv.
Proof.
  intros [Hsh Hgr] Hrun.
  destruct (MoveGroup_Ok_inv lv g dr dc (proj1 Hsh) _ Hrun)
    as (Hd%valid_dir_dirs & Hg & s & _ & Hmove).
  unfold move_at in Hmove. inv_step Hmove as [b gr] Htry.
  destruct b; [|by simplify_eq].
  inv_step Hmove as gr' Hdrop. inv_step Hmove as lv1 Hupd. simplify_eq.
  destruct (TryMove_kept (height lv) (width lv) (groups lv) (dr, dc)
              (grid lv) s true gr Hd) as [Hk _]; [by split | done |].
  destruct (DropDown_kept _ _ _ _ _ Hk Hdrop) as [[Hw' Hgr'] _].
  destruct (DropDown_settles _ _ _ (proj1 Hk)) as (gr2 & Hdrop2 & _ & Hst).
  rewrite Hdrop2 in Hdrop. simplify_eq.
  destruct (UpdateConnections_spec (with_grid lv gr'))
    as (lv2 & Hupd' & Hm & Hmax); [by split|].
  rewrite Hupd' in Hupd. simplify_eq.
  pose proof (UpdateConnections_frame _ _ Hupd') as (_ & _ & Hle & _).
  destruct Hm as (Hw & Hh & Hinv' & Hs & Hc & _). simpl in *.
  split_and!; [done..| by eapply settled_coarser | | done].
  destruct (grouped_used _ _ Hgr' 1) as (p & x & Hx & Hxt & Hxg); [lia|].
  destruct (same_shape_look _ _ p x Hs Hx) as (x' & Hx' & Htx' & _).
  destruct Hinv' as [_ Hgr2].
  pose proof (grouped_range _ _ Hgr2 p x' Hx' ltac:(congruence)). lia.
Qed.

Lemma MoveGroup_success_state_witness :
  width twin_a = width twin_init ∧ height twin_a = height twin_init ∧
  inv twin_a ∧ maximal (grid twin_a) ∧ settled (grid twin_a) ∧
  1 ≤ groups twin_a ≤ groups twin_init.
Proof.
  apply (MoveGroup_success_state twin_init twin_a 1 0 (-1)).
  - apply twin_canonical.
  - vm_compute. reflexivity.
Defined.

(** ** The colour fill of the win detector *)

(** X13. Started on a block of colour [k] while no block of that colour is
    marked, [MarkColorVisited] runs without a fault and marks exactly the
    blocks joined to the start by a path of adjacent blocks of colour [k];
    the marks that were set stay set and no other cell is marked. *)
Theorem MarkColorVisited_component (h w : Z) (G : Grid) (k r c : Z)
    (V : list (list bool)) :
  walled h w G → rect h w V → color_at G k (r, c) →
  (∀ p, color_at G k p → ¬ vis V p) →
  ∃ V', MarkColorVisited (mark_fuel V) G r c V = Ok V' ∧ rect h w V' ∧
        ∀ p, vis V' p ↔ vis V p ∨ rtc (color_step G) (r, c) p.
Proof.
  intros HG HV Hs Hfresh.
  destruct (MarkColorVisited_spec h w G k HG (mark_fuel V) V (r, c))
    as (ps & Hrun & Hnd & Hps & Hsin & Hreach & Hcl);
    [done | done | by apply Hfresh | unfold mark_fuel; lia |].
  exists (marks V ps). split_and!; [done | by apply rect_marks |].
  intros p. rewrite (vis_marks h w G k HG); [|done|intros q Hq; apply (Hps q Hq)].
  split; intros [Hv|Hp]; [by left | right; by apply Hreach | by left |].
  right. clear Hrun.
  assert (∀ u v, rtc (color_step G) u v → u ∈ ps → v ∈ ps) as Hclosed.
  { induction 1 as [|u u' v Hstep _ IH]; [done|]. intros Hu. apply IH.
    destruct (Hps u Hu) as [Hku _].
    pose proof (color_step_color G k u u' Hstep Hku) as Hku'.
    destruct Hstep as [Hadj _].
    destruct (Hcl u u' Hu Hadj Hku') as [Hv|?]; [|done].
    by destruct (Hfresh u' Hku'). }
  by apply (Hclosed (r, c) p).
Qed.

Lemma MarkColorVisited_component_witness :
  ∃ V', MarkColorVisited
          (mark_fuel (replicate 5 (replicate 7 false)))
          (grid twin_a) 3 1 (replicate 5 (replicate 7 false)) = Ok V' ∧
        rect 5 7 V' ∧
        ∀ p, vis V' p ↔
             vis (replicate 5 (replicate 7 false)) p
             ∨ rtc (color_step (grid twin_a)) (3, 1) p.
Proof.
  apply (MarkColorVisited_component 5 7 (grid twin_a) 1 3 1).
  - apply shapedb_sound. vm_compute. reflexivity.
  - apply (rect_replicate 5 7 false); lia.
  - eexists. split_and!; vm_compute; reflexivity.
  - intros p _ Hv. unfold vis in Hv.
    by apply (look_replicate 5 7 false true) in Hv.
Defined.


(** ** One merge *)

(** X14. Merging the group of a block into the group of another block of a
    state that satisfies the invariant ([Regroup] from the first block, then
    [RemoveUnusedGroupNumber]) runs without a fault, lowers the number of
    groups by one and keeps every cell's type and colour; a cell of the
    merged group gets the identifier of the other group, and every
    identifier above the removed one is lowered by one, so that the
    identifiers stay without a gap. *)
Theorem merge_renumbers (lv : Level) (s1 s2 : pos) (x1 x2 : Cell) :
  inv lv →
  look (grid lv) s1 = Some x1 → type x1 = MOVABLE →
  look (grid lv) s2 = Some x2 → type x2 = MOVABLE →
  group x2 ≠ group x1 →
  ∃ gr lv',
    Regroup (regroup_fuel (group x2) (grid lv)) (group x2) (group x1)
      s2.1 s2.2 (grid lv) = Ok gr ∧
    RemoveUnusedGroupNumber (group x2) (with_grid lv gr) = Ok lv' ∧
    groups lv' = groups lv - 1 ∧
    ∀ p x, look (grid lv) p = Some x →
      ∃ x', look (grid lv') p = Some x' ∧
            type x' = type x ∧ color x' = color x ∧
            group x' = (let k := if decide (group x = group x2)
                                 then group x1 else group x in
                        if decide (group x2 < k) then k - 1 else k).
Proof.
  intros Hinv Hx1 Ht1 Hx2 Ht2 Hne.
  destruct (merge_run lv s1 s2 x1 x2 Hinv Hx1 Ht1 Hx2 Ht2 Hne)
    as (lv' & Hrun & _ & _ & Hn & _ & Hlook).
  destruct (merge_ids lv s1 s2 x1 x2 Hinv Hx1 Ht1 Hx2 Ht2) as (Hf & Ht & Hb).
  unfold merge in Hrun. inv_step Hrun as gr Hre.
  exists gr, lv'. split_and!; [done..|].
  intros p x Hx. exists (merge_cell (group x2) (group x1) x).
  split_and!.
  - by rewrite Hlook, Hx.
  - apply merge_cell_type.
  - apply merge_cell_color.
  - apply (merge_cell_group (groups lv)); [done..|].
    destruct Hinv as [_ Hgr].
    destruct (decide (type x = MOVABLE)) as [Hxt|Hxt].
    + right. by apply (grouped_range _ _ Hgr p).
    + left. by apply (grouped_tidy _ _ Hgr p).
Qed.

Lemma merge_renumbers_witness :
  ∃ gr lv',
    Regroup (regroup_fuel 2 (grid loose_level)) 2 1 1 3 (grid loose_level)
      = Ok gr ∧
    RemoveUnusedGroupNumber 2 (with_grid loose_level gr) = Ok lv' ∧
    groups lv' = groups loose_level - 1 ∧
    ∀ p x, look (grid loose_level) p = Some x →
      ∃ x', look (grid lv') p = Some x' ∧
            type x' = type x ∧ color x' = color x ∧
            group x' = (let k := if decide (group x = 2) then 1 else group x in
                        if decide (2 < k) then k - 1 else k).
Proof.
  apply (merge_renumbers loose_level (1, 2) (1, 3)
           {| type := MOVABLE; color := 1; group := 1 |}
           {| type := MOVABLE; color := 1; group := 2 |}).
  - destruct (TryMove_kept 3 5 2 (0, 1) (grid puzzle_level) (1, 1) true
                (grid loose_level)) as [[? ?] _].
    + apply valid_dir_dirs. reflexivity.
    + exact puzzle_inv.
    + vm_compute. reflexivity.
    + by split.
  - vm_compute. reflexivity.
  - reflexivity.
  - vm_compute. reflexivity.
  - reflexivity.
  - discriminate.
Defined.

(** ** The merge pass reaches a fixed point *)






(** ** A search that finds nothing *)

Lemma path_from_nonempty a b l : path_from a b l → l ≠ [].
Proof. intros [|c e l' _ _]; [done|]. by destruct l'. Qed.

(** When every visited state has been expanded, the visited states are all
    the states that legal pushes reach, and none is solved. *)
Lemma bfs_exhausted init n st D e l :
  bfs_inv init n st D → (length (levels st) ≤ n)%nat →
  path_from init e l →
  Solved e = Ok false ∧ ∃ j, levels st !! j = Some e.
Proof.
  intros Hinv Hn Hpath.
  destruct (bfs_root _ _ _ _ Hinv) as (H0 & _ & _).
  induction Hpath as [|b c l Hpath IH Hpush].
  - split; [|by exists 0%nat].
    apply (bfs_good _ _ _ _ Hinv). by eapply list_elem_of_lookup_2.
  - destruct IH as (_ & j & Hj).
    pose proof (lookup_lt_Some _ _ _ Hj) as Hlt.
    destruct (bfs_done _ _ _ _ Hinv j b c ltac:(lia) Hj Hpush)
      as (Hno & j' & d & di & Hj' & _).
    split; [done|]. by exists j'.
Qed.

Lemma Solve_loop_empty init fuel :
  ∀ n st D,
    bfs_inv init n st D → Solve_loop fuel (Z.of_nat n) st = Ok [] →
    ∀ e l, path_from init e l → Solved e = Ok false.
Proof.
  induction fuel as [|fuel IH]; intros n st D Hinv Hrun e l Hpath; [done|].
  cbn [Solve_loop] in Hrun. case_bool_decide as Hlt.
  - rewrite (bfs_len_map _ _ _ _ Hinv) in Hlt.
    destruct (lookup_lt_is_Some_2 (levels st) n) as [lvn Hn]; [lia|].
    rewrite (proj2 (vec_at_Ok _ _ _) Hn), bind_Ok in Hrun.
    assert (inv lvn) as Hlvn
      by (apply (bfs_good _ _ _ _ Hinv); by eapply list_elem_of_lookup_2).
    destruct (Successors_members lvn Hlvn) as (next & Hnext & Hmem).
    rewrite Hnext, bind_Ok in Hrun.
    destruct (for_each_invariant
      (λ done st', ∃ D', bfs_inv init n st' D' ∧ levels st' !! n = Some lvn ∧
                         ∀ lv', lv' ∈ done → seen n st' D' lv')
      (found init) next (visit (Z.of_nat n)) st) as (fl & Hloop & Hfl).
    + exists D. split_and!; [done..|]. by intros lv' ?%elem_of_nil.
    + intros done x st' [rest Hl] (D' & Hinv' & Hn' & Hseen).
      apply (visit_spec init n st' D' lvn x done); [done..| |done].
      apply Hmem. rewrite Hl. apply elem_of_app. right. left.
    + rewrite Hloop, bind_Ok in Hrun. destruct fl as [st'|res].
      * destruct Hfl as (D' & Hinv' & Hn' & Hseen).
        unfold int_incr in Hrun. case_bool_decide; [|done].
        rewrite bind_Ok in Hrun.
        replace (Z.of_nat n + 1) with (Z.of_nat (S n)) in Hrun by lia.
        assert (bfs_inv init (S n) st' D') as Hinv1.
        { apply (bfs_next init n st' D' lvn); [done..|].
          intros lv' Hpu. by apply Hseen, Hmem. }
        by apply (IH (S n) st' D' Hinv1 Hrun e l).
      * simplify_eq. destruct Hfl as (e' & Hpath' & _).
        by apply path_from_nonempty in Hpath'.
  - rewrite (bfs_len_map _ _ _ _ Hinv) in Hlt.
    apply (bfs_exhausted init n st D e l); [done | lia | done].
Qed.

(** X16. When [Solve] returns the empty path from an initial state that
    satisfies the invariant, no sequence of legal pushes leads from that
    state to a solved state: the search has seen every state that can be
    reached. *)
Theorem Solve_empty_unsolvable (fuel : nat) (init : Level) :
  inv init → Solve fuel init = Ok [] →
  ∀ l e, head l = Some init → chain l → last l = Some e →
         Solved e = Ok false.
Proof.
  intros Hinv Hrun l e Hhd Hch Hlast. unfold Solve in Hrun.
  destruct (Solved_total init Hinv) as [b Hb]. rewrite Hb, bind_Ok in Hrun.
  destruct b; [done|].
  apply (Solve_loop_empty init fuel 0 _ [0%nat] (bfs_start init Hinv Hb)
           Hrun e l).
  by apply path_from_chain.
Qed.


(** Two blocks of one colour kept apart by a wall. *)
Definition stuck_input : list string := ["1#1"]%string.

Definition stuck_level : Level :=
  Eval vm_compute in
    match new_level stuck_input with Ok lv => lv | Err _ => mkLevel 0 0 0 [] end.

Lemma stuck_inv : inv stuck_level.
Proof.
  assert (valid_input stuck_input) as Hvalid.
  { split_and!; [done | repeat constructor | vm_compute; discriminate..]. }
  assert (reachable stuck_input stuck_level) as Hreach.
  { apply reach_new. vm_compute. reflexivity. }
  by destruct (reachable_canonical _ _ Hvalid Hreach) as ((? & _) & _).
Qed.

Lemma Solve_empty_unsolvable_witness : Solved stuck_level = Ok false.
Proof.
  apply (Solve_empty_unsolvable 3 stuck_level stuck_inv) with [stuck_level].
  - vm_compute. reflexivity.
  - reflexivity.
  - intros t a b Ha Hb. by destruct t.
  - reflexivity.
Defined.

(** ** Solved states and group numbers *)

Lemma color_at_same_shape G G' k p :
  same_shape G G' → color_at G k p → color_at G' k p.
Proof.
  intros Hs (x & Hx & Hxt & Hxc).
  destruct (same_shape_look G G' p x Hs Hx) as (y & Hy & Ht & Hc).
  exists y. split_and!; congruence.
Qed.

Lemma one_region_same_shape G G' :
  same_shape G G' → one_region_per_color G → one_region_per_color G'.
Proof.
  intros Hs Hone k p q Hk Hp Hq.
  pose proof (same_shape_sym _ _ Hs) as Hs'.
  pose proof (Hone k p q Hk (color_at_same_shape _ _ _ _ Hs' Hp)
                (color_at_same_shape _ _ _ _ Hs' Hq)) as Hpath.
  clear Hp Hq. induction Hpath as [|u u' v [Hadj (k' & Hu & Hu')] _ IH];
    [done|].
  eapply rtc_l; [|exact IH]. split; [done|].
  exists k'. split; by eapply color_at_same_shape.
Qed.

(** X17. Whether a state is solved does not depend on its group
    identifiers: two well-shaped states with the same dimensions and the
    same type and colour in every cell get the same answer from
    [Solved]. *)
Theorem Solved_topology (A B : Level) :
  shaped A → shaped B → topology A = topology B → Solved A = Solved B.
Proof.
  intros HA HB Htop. pose proof (topology_same_shape A B Htop) as Hs.
  destruct (Solved_spec A HA) as (a & -> & Ha).
  destruct (Solved_spec B HB) as (b & -> & Hb). f_equal.
  destruct a, b; try done.
  - symmetry. apply Hb. apply (one_region_same_shape _ _ Hs). by apply Ha.
  - apply Ha. apply (one_region_same_shape _ _ (same_shape_sym _ _ Hs)).
    by apply Hb.
Qed.

Lemma Solved_topology_witness : Solved twin_a = Solved twin_b.
Proof.
  apply (Solved_topology twin_a twin_b).
  - apply shapedb_sound. vm_compute. reflexivity.
  - apply shapedb_sound. vm_compute. reflexivity.
  - exact twin_topology.
Defined.

(** ** The assertions of [MoveGroup] *)

(** X18. On a rectangular grid [MoveGroup] stops with a failed assertion
    when the direction is not one of the four unit steps, when the group
    identifier is not in [1..groups], and when no cell inside the border
    carries the group identifier; it never returns a result in these
    cases. *)
Theorem MoveGroup_asserts (lv : Level) (g dr dc : Z) :
  rect (height lv) (width lv) (grid lv) →
  valid_dir dr dc = false ∨ ¬ (0 < g ≤ groups lv) ∨
  (∀ p, p ∈ interior (height lv) (width lv) → ¬ group_at (grid lv) g p) →
  MoveGroup lv g dr dc = Err AssertFail.
Proof.
  intros Hrect Hcase. unfold MoveGroup.
  destruct (valid_dir dr dc) eqn:Hd; [|done]. simpl.
  destruct (bool_decide (0 < g) && bool_decide (g ≤ groups lv)) eqn:Hg;
    [|done]. simpl.
  destruct Hcase as [?|[Hng|Hnone]]; [done| |].
  - apply andb_true_iff in Hg as
      [?%bool_decide_eq_true ?%bool_decide_eq_true]. by destruct Hng.
  - rewrite for_each_skip_all; [done|].
    intros p Hp. by apply (move_body_skip lv g dr dc Hrect p Hp), Hnone.
Qed.

Lemma MoveGroup_asserts_witness :
  MoveGroup twin_init 1 1 1 = Err AssertFail.
Proof.
  apply (MoveGroup_asserts twin_init 1 1 1).
  - apply (proj1 (proj1 twin_canonical)).
  - left. reflexivity.
Defined.


(** ** Printing a level *)

(** [a] and [b] are drawn without a line between them. *)
Definition same_cell (a b : Cell) : bool :=
  bool_decide (type a = type b) && bool_decide (group a = group b).

(** The middle dot of the source text, in UTF-8. *)
Definition dot : string := String "194" (String "183" EmptyString).

(** The first and the last line of the output. *)
Definition rule (w : Z) : string :=
  String.append "+-"
    (String.append
       (String.concat "" (replicate (Z.to_nat (w - 1)) "--"%string)) "+").

Definition one (ch : ascii) : string := String ch EmptyString.

(** The line that shows the cells of row [r]. *)
Definition print_cells (g : Grid) (w r : Z) : result string :=
  line ← forM (seqZ 0 w)
            (λ c line,
               x ← at_ g r c;
               let line := String.append line (one (Char x)) in
               if bool_decide (c + 1 < w) then
                 y ← at_ g r (c + 1);
                 Ok (String.append line
                       (if same_cell x y then " " else "|")%string)
               else Ok line)
            "|"%string;
  Ok (String.append line "|").

(** The line between row [r] and row [r + 1]; [&&] evaluates its right
    operand only when the left one holds. *)
Definition print_joints (g : Grid) (w r : Z) : result string :=
  line ← forM (seqZ 0 w)
            (λ c line,
               x ← at_ g r c;
               below ← at_ g (r + 1) c;
               let line := String.append line
                             (if same_cell x below then " " else "-")%string in
               if bool_decide (c + 1 < w) then
                 open ←
                   (if same_cell x below then
                      right ← at_ g r (c + 1);
                      if same_cell x right then
                        across ← at_ g (r + 1) (c + 1);
                        Ok (same_cell x across)
                      else Ok false
                    else Ok false);
                 Ok (String.append line (if open : bool then dot else "+"%string))
               else Ok line)
            "|"%string;
  Ok (String.append line "|").

(** [Print]: the output, line by line. *)
Definition Print (lv : Level) : result (list string) :=
  lines ← forM (seqZ 0 (height lv))
             (λ r lines,
                cells ← print_cells (grid lv) (width lv) r;
                if bool_decide (r + 1 < height lv) then
                  joints ← print_joints (grid lv) (width lv) r;
                  Ok (lines ++ [cells; joints])
                else Ok (lines ++ [cells]))
             [rule (width lv)];
  Ok (lines ++ [rule (width lv)]).

Lemma seqZ_split (w : Z) (done rest : list Z) (c : Z) :
  seqZ 0 w = done ++ c :: rest → c = Z.of_nat (length done) ∧ 0 ≤ c < w.
Proof.
  intros Hall.
  assert (seqZ 0 w !! length done = Some c) as Hc
    by (rewrite Hall; apply list_lookup_middle; done).
  apply lookup_seqZ in Hc. lia.
Qed.

Lemma string_get_append_l (a b : string) (n : nat) :
  (n < String.length a)%nat →
  String.get n (String.append a b) = String.get n a.
Proof. intros Hn. symmetry. by apply append_correct1. Qed.

Lemma string_get_append_r (a b : string) (n : nat) :
  String.get (String.length a + n) (String.append a b) = String.get n b.
Proof. rewrite Nat.add_comm. symmetry. apply append_correct2. Qed.

Lemma string_get_one_r (a : string) (ch : ascii) :
  String.get (String.length a) (String.append a (one ch)) = Some ch.
Proof.
  rewrite <- (Nat.add_0_r (String.length a)) at 1.
  by rewrite string_get_append_r.
Qed.

(** The character drawn between two cells of a row. *)
Definition bar (x y : Cell) : ascii :=
  if same_cell x y then " "%char else "|"%char.

Section print_cells.
Context (h w : Z) (g : Grid) (r : Z).
Context (Hrect : rect h w g) (Hr : 0 ≤ r < h) (Hw : 1 ≤ w).

(** The line after the columns [done]. *)
Definition cells_drawn (done : list Z) (line : string) : Prop :=
String.length line
= (1 + 2 * length done
 - (if bool_decide (0 < Z.of_nat (length done)
                  ∧ Z.of_nat (length done) = w)%Z
  then 1 else 0))%nat ∧
∀ (c : nat) x, (c < length done)%nat → cell g r (Z.of_nat c) = Some x →
String.get (1 + 2 * c) line = Some (Char x) ∧
∀ y, cell g r (Z.of_nat c + 1) = Some y →
String.get (2 + 2 * c) line = Some (bar x y).

Lemma cells_drawn_step done c rest line :
seqZ 0 w = done ++ c :: rest → cells_drawn done line →
∃ line',
(x ← at_ g r c;
 let line := String.append line (one (Char x)) in
 if bool_decide (c + 1 < w) then
 y ← at_ g r (c + 1);
 Ok (String.append line (if same_cell x y then " " else "|")%string)
 else Ok line) = Ok line' ∧
cells_drawn (done ++ [c]) line'.
Proof using Hrect Hr Hw.
intros Hall [Hlen Hdrawn]. apply seqZ_split in Hall as [-> Hc].
set (k := length done) in *.
rewrite bool_decide_eq_false_2 in Hlen by lia.
destruct (proj2 (cell_in_range h w g r (Z.of_nat k) Hrect)) as [x Hx]; [lia|].
rewrite (proj2 (at_Ok _ _ _ _) Hx), bind_Ok. cbn zeta.
set (line1 := String.append line (one (Char x))).
assert (String.length line1 = (2 + 2 * k)%nat) as Hlen1
by (unfold line1; rewrite string_length_append; simpl; lia).
assert (∀ (c : nat) x0, (c < k)%nat → cell g r (Z.of_nat c) = Some x0 →
    String.get (1 + 2 * c) line1 = Some (Char x0) ∧
    ∀ y, cell g r (Z.of_nat c + 1) = Some y →
      String.get (2 + 2 * c) line1 = Some (bar x0 y)) as Hold.
{ intros c x0 Hck Hx0. destruct (Hdrawn c x0 Hck Hx0) as [Hch Hbar].
unfold line1. split.
- rewrite string_get_append_l by lia. done.
- intros y Hy. rewrite string_get_append_l by lia. by apply Hbar. }
assert (String.get (1 + 2 * k) line1 = Some (Char x)) as Hnew.
{ unfold line1. replace (1 + 2 * k)%nat with (String.length line) by lia.
apply string_get_one_r. }
case_bool_decide as Hnext.
- destruct (proj2 (cell_in_range h w g r (Z.of_nat k + 1) Hrect))
as [y Hy]; [lia|].
rewrite (proj2 (at_Ok _ _ _ _) Hy), bind_Ok.
exists (String.append line1 (one (bar x y))). split.
{ unfold bar, one. by destruct (same_cell x y). }
split.
+ rewrite string_length_append, Hlen1, length_app. simpl.
rewrite bool_decide_eq_false_2 by lia. lia.
+ intros c x0 Hck Hx0. rewrite length_app in Hck. simpl in Hck.
destruct (decide (c = k)) as [->|Hne].
* simplify_eq. split.
-- rewrite string_get_append_l by lia. done.
-- intros y0 Hy0. simplify_eq.
replace (2 + 2 * k)%nat with (String.length line1) by lia.
apply string_get_one_r.
* destruct (Hold c x0 ltac:(lia) Hx0) as [Hch Hbar]. split.
-- rewrite string_get_append_l by lia. done.
-- intros y0 Hy0. rewrite string_get_append_l by lia. by apply Hbar.
- exists line1. split; [done|]. split.
+ rewrite Hlen1, length_app. simpl.
rewrite bool_decide_eq_true_2 by lia. lia.
+ intros c x0 Hck Hx0. rewrite length_app in Hck. simpl in Hck.
destruct (decide (c = k)) as [->|Hne]; [|apply Hold; [lia|done]].
simplify_eq. split; [done|]. intros y0 Hy0.
assert (is_Some (cell g r (Z.of_nat k + 1))) as Hin by (by exists y0).
apply (cell_in_range h w g _ _ Hrect) in Hin. lia.
Qed.

Lemma print_cells_spec :
∃ line, print_cells g w r = Ok line ∧
String.length line = Z.to_nat (2 * w + 1) ∧
∀ c x, 0 ≤ c < w → cell g r c = Some x →
String.get (1 + 2 * Z.to_nat c) line = Some (Char x) ∧
∀ y, cell g r (c + 1) = Some y →
  String.get (2 + 2 * Z.to_nat c) line = Some (bar x y).
Proof using Hrect Hr Hw.
unfold print_cells.
match goal with |- context [forM ?l ?body ?s0] =>
destruct (forM_invariant cells_drawn l body s0)
as (line & Hrun & Hlen & Hdrawn)
end.
- split; [done|]. intros c x Hc. simpl in Hc. lia.
- intros done c line [rest Hall] Hd.
by apply (cells_drawn_step done c rest line).
- rewrite Hrun, bind_Ok. eexists. split; [done|].
rewrite length_seqZ in Hlen, Hdrawn.
rewrite bool_decide_eq_true_2 in Hlen by lia. split.
+ rewrite string_length_append, Hlen. simpl. lia.
+ intros c x Hc Hx.
destruct (Hdrawn (Z.to_nat c) x) as [Hch Hbar]; [lia|by rewrite Z2Nat.id by lia|].
split.
* rewrite string_get_append_l by lia. done.
* intros y Hy.
assert (is_Some (cell g r (c + 1))) as Hin by (by exists y).
apply (cell_in_range h w g _ _ Hrect) in Hin.
rewrite string_get_append_l by lia. apply Hbar.
by rewrite Z2Nat.id by lia.
Qed.
End print_cells.

Lemma print_joints_Ok h w g r :
  rect h w g → 0 ≤ r → r + 1 < h → ∃ line, print_joints g w r = Ok line.
Proof.
  intros Hrect Hr Hr1. unfold print_joints.
  match goal with |- context [forM ?l ?body ?s0] =>
    destruct (forM_invariant (λ _ _, True) l body s0) as (line & Hrun & _)
  end.
  - done.
  - intros done c line [rest Hall] _. apply seqZ_split in Hall as [_ Hc].
    assert (∀ r' c', 0 ≤ r' < h → 0 ≤ c' < w → ∃ x, at_ g r' c' = Ok x)
      as Hat.
    { intros r' c' ? ?.
      destruct (proj2 (cell_in_range h w g r' c' Hrect)) as [x Hx]; [lia|].
      exists x. by apply at_Ok. }
    destruct (Hat r c) as [x ->]; [lia..|]. rewrite bind_Ok.
    destruct (Hat (r + 1) c) as [below ->]; [lia..|]. rewrite bind_Ok.
    cbn zeta. case_bool_decide; [|by eexists].
    destruct (same_cell x below); [|by eexists].
    destruct (Hat r (c + 1)) as [right ->]; [lia..|]. rewrite bind_Ok.
    destruct (same_cell x right); [|by eexists].
    destruct (Hat (r + 1) (c + 1)) as [across ->]; [lia..|]. by eexists.
  - rewrite Hrun. by eexists.
Qed.

Section print.
Context (lv : Level).
Context (Hrect : rect (height lv) (width lv) (grid lv)).
Context (Hh : 1 ≤ height lv) (Hw : 1 ≤ width lv).

(** The output after the rows [done]. *)
Definition rows_drawn (done : list Z) (lines : list string) : Prop :=
length lines
= (1 + 2 * length done
 - (if bool_decide (0 < Z.of_nat (length done)
                  ∧ Z.of_nat (length done) = height lv)%Z
  then 1 else 0))%nat ∧
lines !! 0%nat = Some (rule (width lv)) ∧
∀ r : nat, (r < length done)%nat →
∃ line, lines !! (1 + 2 * r)%nat = Some line ∧
      print_cells (grid lv) (width lv) (Z.of_nat r) = Ok line.

Lemma rows_drawn_step done r rest lines :
seqZ 0 (height lv) = done ++ r :: rest → rows_drawn done lines →
∃ lines',
(cells ← print_cells (grid lv) (width lv) r;
 if bool_decide (r + 1 < height lv) then
 joints ← print_joints (grid lv) (width lv) r;
 Ok (lines ++ [cells; joints])
 else Ok (lines ++ [cells])) = Ok lines' ∧
rows_drawn (done ++ [r]) lines'.
Proof using Hrect Hh Hw.
intros Hall (Hlen & Hhead & Hrows). apply seqZ_split in Hall as [-> Hr].
set (k := length done) in *.
rewrite bool_decide_eq_false_2 in Hlen by lia.
destruct (print_cells_spec _ _ _ (Z.of_nat k) Hrect Hr Hw)
as (cells & Hcells & _).
rewrite Hcells, bind_Ok.
case_bool_decide as Hnext.
- destruct (print_joints_Ok _ _ _ (Z.of_nat k) Hrect) as [joints Hj]; [lia..|].
rewrite Hj, bind_Ok. eexists. split; [done|]. split_and!.
+ rewrite !length_app, Hlen. simpl.
rewrite bool_decide_eq_false_2 by lia. lia.
+ by apply lookup_app_l_Some.
+ intros r Hrk. rewrite length_app in Hrk. simpl in Hrk.
destruct (decide (r = k)) as [->|Hne].
* exists cells. split; [|done].
replace (1 + 2 * k)%nat with (length lines + 0)%nat by lia.
by rewrite lookup_app_r, Nat.add_comm, Nat.add_sub by lia.
* destruct (Hrows r) as (line & Hline & Hrun); [lia|].
exists line. split; [by apply lookup_app_l_Some | done].
- eexists. split; [done|]. split_and!.
+ rewrite !length_app, Hlen. simpl.
rewrite bool_decide_eq_true_2 by lia. lia.
+ by apply lookup_app_l_Some.
+ intros r Hrk. rewrite length_app in Hrk. simpl in Hrk.
destruct (decide (r = k)) as [->|Hne].
* exists cells. split; [|done].
replace (1 + 2 * k)%nat with (length lines) by lia.
by apply list_lookup_middle.
* destruct (Hrows r) as (line & Hline & Hrun); [lia|].
exists line. split; [by apply lookup_app_l_Some | done].
Qed.

Lemma Print_spec :
∃ lines, Print lv = Ok lines ∧
length lines = Z.to_nat (2 * height lv + 1) ∧
head lines = Some (rule (width lv)) ∧
last lines = Some (rule (width lv)) ∧
∀ r, 0 ≤ r < height lv →
∃ line, lines !! (1 + 2 * Z.to_nat r)%nat = Some line ∧
        print_cells (grid lv) (width lv) r = Ok line.
Proof using Hrect Hh Hw.
unfold Print.
match goal with |- context [forM ?l ?body ?s0] =>
destruct (forM_invariant rows_drawn l body s0)
as (lines & Hrun & Hlen & Hhead & Hrows)
end.
- split_and!; [done..|]. intros r Hr. simpl in Hr. lia.
- intros done r lines [rest Hall] Hd.
by apply (rows_drawn_step done r rest lines).
- rewrite Hrun, bind_Ok. eexists. split; [done|].
rewrite length_seqZ in Hlen, Hrows.
rewrite bool_decide_eq_true_2 in Hlen by lia. split_and!.
+ rewrite length_app, Hlen. simpl. lia.
+ destruct lines; [done|]. simpl in *. by simplify_eq.
+ apply last_snoc.
+ intros r Hr. destruct (Hrows (Z.to_nat r)) as (line & Hline & Hcells); [lia|].
exists line. split; [by apply lookup_app_l_Some|].
by rewrite Z2Nat.id in Hcells by lia.
Qed.
End print.

(** X19. On a rectangular grid with at least one row and one column
    [Print] runs without a fault and writes [2 * height + 1] lines, the
    first and the last being the frame.  Line [1 + 2 * r] is [2 * width + 1]
    characters long and shows row [r]: the character of the cell in column
    [c] stands at place [1 + 2 * c], and between two neighbours of a row
    stands a blank when they have the same type and group and a bar when
    they do not. *)
Theorem Print_draws_cells (lv : Level) :
  rect (height lv) (width lv) (grid lv) → 1 ≤ height lv → 1 ≤ width lv →
  ∃ lines, Print lv = Ok lines ∧
    length lines = Z.to_nat (2 * height lv + 1) ∧
    head lines = Some (rule (width lv)) ∧
    last lines = Some (rule (width lv)) ∧
    ∀ r c x, 0 ≤ r < height lv → 0 ≤ c < width lv →
      cell (grid lv) r c = Some x →
      ∃ line, lines !! (1 + 2 * Z.to_nat r)%nat = Some line ∧
        String.length line = Z.to_nat (2 * width lv + 1) ∧
        String.get (1 + 2 * Z.to_nat c) line = Some (Char x) ∧
        ∀ y, cell (grid lv) r (c + 1) = Some y →
          String.get (2 + 2 * Z.to_nat c) line = Some (bar x y).
Proof.
  intros Hrect Hh Hw.
  destruct (Print_spec lv Hrect Hh Hw)
    as (lines & Hrun & Hlen & Hhead & Hlast & Hrows).
  exists lines. split_and!; [done..|]. intros r c x Hr Hc Hx.
  destruct (Hrows r Hr) as (line & Hline & Hcells).
  destruct (print_cells_spec _ _ _ r Hrect Hr Hw)
    as (line' & Hcells' & Hlen' & Hdrawn).
  rewrite Hcells in Hcells'. simplify_eq.
  exists line'. split_and!; [done..| |]; by destruct (Hdrawn c x Hc Hx).
Qed.

Lemma Print_draws_cells_witness :
  ∃ lines, Print twin_a = Ok lines ∧
    length lines = Z.to_nat (2 * height twin_a + 1) ∧
    head lines = Some (rule (width twin_a)) ∧
    last lines = Some (rule (width twin_a)) ∧
    ∀ r c x, 0 ≤ r < height twin_a → 0 ≤ c < width twin_a →
      cell (grid twin_a) r c = Some x →
      ∃ line, lines !! (1 + 2 * Z.to_nat r)%nat = Some line ∧
        String.length line = Z.to_nat (2 * width twin_a + 1) ∧
        String.get (1 + 2 * Z.to_nat c) line = Some (Char x) ∧
        ∀ y, cell (grid twin_a) r (c + 1) = Some y →
          String.get (2 + 2 * Z.to_nat c) line = Some (bar x y).
Proof.
  apply (Print_draws_cells twin_a).
  - apply rectb_sound. vm_compute. reflexivity.
  - vm_compute. discriminate.
  - vm_compute. discriminate.
Defined.

(** ** The picture does not show the group numbers *)

Lemma forM_ext {S A : Type} (l : list A) (f g : A → S → result S) (s : S) :
  (∀ x s, x ∈ l → f x s = g x s) → forM l f s = forM l g s.
Proof.
  revert s. induction l as [|x l IH]; intros s Hfg; [done|].
  simpl. rewrite (Hfg x s) by (by left).
  destruct (g x s) as [s'|e]; [|done]. simpl. apply IH.
  intros y s0 Hy. apply Hfg. by right.
Qed.

Section same_picture.
Context (GA GB : Grid).
Context (Hs : same_shape GA GB).
Context (Hpart : ∀ p q xa ya xb yb,
look GA p = Some xa → look GA q = Some ya →
look GB p = Some xb → look GB q = Some yb →
(group xa = group ya ↔ group xb = group yb)).

(** Reading a cell of the one grid and of the other. *)
Lemma at_alike r c :
(at_ GA r c = Err OutOfRange ∧ at_ GB r c = Err OutOfRange) ∨
∃ x x', at_ GA r c = Ok x ∧ at_ GB r c = Ok x' ∧
    look GA (r, c) = Some x ∧ look GB (r, c) = Some x' ∧
    type x' = type x ∧ color x' = color x.
Proof using Hs.
specialize (Hs (r, c)). unfold at_, look in *. simpl in *.
destruct (cell GA r c) as [x|], (cell GB r c) as [x'|]; simplify_eq/=.
- right. exists x, x'. split_and!; done.
- by left.
Qed.

Lemma same_cell_alike p q x y x' y' :
look GA p = Some x → look GA q = Some y →
look GB p = Some x' → look GB q = Some y' →
type x' = type x → type y' = type y →
same_cell x' y' = same_cell x y.
Proof using Hpart.
intros Hx Hy Hx' Hy' Htx Hty. unfold same_cell. rewrite Htx, Hty.
f_equal. apply bool_decide_ext. symmetry. by apply (Hpart p q).
Qed.

Lemma Char_alike x x' : type x' = type x → color x' = color x → Char x' = Char x.
Proof. unfold Char. by intros -> ->. Qed.

Lemma print_cells_alike w r : print_cells GB w r = print_cells GA w r.
Proof using Hs Hpart.
unfold print_cells. f_equal. apply forM_ext. intros c line _.
destruct (at_alike r c)
as [[-> ->]|(x & x' & -> & -> & Hx & Hx' & Htx & Hcx)]; [done|].
rewrite !bind_Ok. cbn zeta. rewrite (Char_alike x x' Htx Hcx).
case_bool_decide; [|done].
destruct (at_alike r (c + 1))
as [[-> ->]|(y & y' & -> & -> & Hy & Hy' & Hty & _)]; [done|].
rewrite !bind_Ok.
by rewrite (same_cell_alike (r, c) (r, c + 1) x y x' y').
Qed.

Lemma print_joints_alike w r : print_joints GB w r = print_joints GA w r.
Proof using Hs Hpart.
unfold print_joints. f_equal. apply forM_ext. intros c line _.
destruct (at_alike r c)
as [[-> ->]|(x & x' & -> & -> & Hx & Hx' & Htx & _)]; [done|].
rewrite !bind_Ok.
destruct (at_alike (r + 1) c)
as [[-> ->]|(b & b' & -> & -> & Hb & Hb' & Htb & _)]; [done|].
rewrite !bind_Ok. cbn zeta.
rewrite (same_cell_alike (r, c) (r + 1, c) x b x' b') by done.
case_bool_decide; [|done].
destruct (same_cell x b); [|done].
destruct (at_alike r (c + 1))
as [[-> ->]|(y & y' & -> & -> & Hy & Hy' & Hty & _)]; [done|].
rewrite !bind_Ok.
rewrite (same_cell_alike (r, c) (r, c + 1) x y x' y') by done.
destruct (same_cell x y); [|done].
destruct (at_alike (r + 1) (c + 1))
as [[-> ->]|(z & z' & -> & -> & Hz & Hz' & Htz & _)]; [done|].
rewrite !bind_Ok.
by rewrite (same_cell_alike (r, c) (r + 1, c + 1) x z x' z').
Qed.
End same_picture.

(** X20. [Print] does not show the group numbers: two states with the
    same dimensions, the same type and colour in every cell and the same
    partition of the cells into groups print the same lines (or fail the
    same way), even when their group identifiers differ. *)
Theorem Print_same_partition (A B : Level) :
  topology A = topology B →
  (∀ p q xa ya xb yb,
     look (grid A) p = Some xa → look (grid A) q = Some ya →
     look (grid B) p = Some xb → look (grid B) q = Some yb →
     (group xa = group ya ↔ group xb = group yb)) →
  Print B = Print A.
Proof.
  intros Htop Hpart. pose proof (topology_same_shape A B Htop) as Hs.
  unfold topology in Htop. injection Htop as Hw Hh _.
  unfold Print. rewrite <- Hw, <- Hh. f_equal.
  apply forM_ext. intros r lines _.
  rewrite (print_cells_alike (grid A) (grid B) Hs Hpart).
  by rewrite (print_joints_alike (grid A) (grid B) Hs Hpart).
Qed.

Lemma Print_same_partition_witness : Print twin_b = Print twin_a.
Proof.
  apply (Print_same_partition twin_a twin_b).
  - exact twin_topology.
  - apply (partition_by_topology twin_init twin_a twin_b twin_path_a
             twin_path_b twin_canonical twin_path_a_valid twin_path_b_valid
             twin_topology).
Defined.

(** ** The groups are the regions of one colour *)

Lemma linked_color_step G p q : mono G → linked G p q → color_step G p q.
Proof.
  intros Hmono (Hadj & x & y & Hx & Hy & Hxt & Hyt & Hg).
  split; [done|]. exists (color x). split.
  - by exists x.
  - exists y. split_and!; [done..|]. symmetry. by apply (Hmono p q x y).
Qed.

Lemma color_path_group G p q :
  chromatic G → maximal G → rtc (color_step G) p q →
  ∀ x y, look G p = Some x → look G q = Some y → group x = group y.
Proof.
  intros Hchrom Hmax. induction 1 as [p|p u q Hstep _ IH]; intros x y Hx Hy.
  - by simplify_eq.
  - destruct Hstep as (Hadj & k & (x' & Hx' & Hxt & Hxk) & (z & Hz & Hzt & Hzk)).
    assert (x' = x) as -> by congruence.
    rewrite <- (IH z y Hz Hy). symmetry.
    apply (Hmax p u Hadj x z); [done..| by apply (Hchrom p) | congruence].
Qed.

(** X21. In every state reachable from a level constructed from a valid
    input, the groups are exactly the regions of one colour: two blocks
    carry the same group identifier if and only if a path of adjacent
    blocks of one colour joins them. *)
Theorem groups_are_color_regions (input : list string) (lv : Level)
    (p q : pos) (x y : Cell) :
  valid_input input → reachable input lv →
  look (grid lv) p = Some x → type x = MOVABLE →
  look (grid lv) q = Some y → type y = MOVABLE →
  (group x = group y ↔ rtc (color_step (grid lv)) p q).
Proof.
  intros Hvalid Hreach Hx Hxt Hy Hyt.
  destruct (reachable_canonical input lv Hvalid Hreach)
    as (([_ Hgr] & [Hmono Hchrom] & Hmax) & _).
  split.
  - intros Hg.
    pose proof (grouped_connected _ _ Hgr p q x y Hx Hy Hxt Hyt Hg) as Hpath.
    clear Hx Hy Hg. induction Hpath as [|u v w Hlink _ IH]; [done|].
    eapply rtc_l; [by apply linked_color_step | done].
  - intros Hpath. by apply (color_path_group (grid lv) p q).
Qed.

Lemma groups_are_color_regions_witness :
  1 = 1 ↔ rtc (color_step (grid twin_a)) (3, 1) (3, 2).
Proof.
  apply (groups_are_color_regions twin_input twin_a (3, 1) (3, 2)
           {| type := MOVABLE; color := 1; group := 1 |}
           {| type := MOVABLE; color := 1; group := 1 |}).
  - exact twin_valid.
  - apply (reach_move twin_input twin_init 1 0 (-1) true).
    + apply reach_new, twin_new.
    + vm_compute. reflexivity.
  - vm_compute. reflexivity.
  - reflexivity.
  - vm_compute. reflexivity.
  - reflexivity.
Defined.


(** ** What [ReadLevel] hands to the constructor *)

Lemma getline_from_spec stream :
  plain (getline_from stream).1 = true ∧
  (String.length (getline_from stream).1
   + String.length (getline_from stream).2 ≤ String.length stream)%nat ∧
  (stream ≠ EmptyString →
   String.length (getline_from stream).2 < String.length stream)%nat.
Proof.
  induction stream as [|ch stream (IH1 & IH2 & IH3)]; [done|].
  cbn [getline_from]. destruct (is_newline ch) eqn:Hch.
  - simpl. split_and!; [done | lia | lia].
  - destruct (getline_from stream) as [line rest]. simpl in *.
    rewrite Hch. split_and!; [done | lia | intros _; lia].
Qed.

(** [getline] cuts the stream behind the line it returns. *)
Lemma getline_from_cut stream :
  ∃ R, stream = String.append (getline_from stream).1 R ∧
       after R (getline_from stream).2.
Proof.
  induction stream as [|ch stream (R & HR & Hafter)].
  - exists EmptyString. split; [done|by left].
  - cbn [getline_from]. destruct (is_newline ch) eqn:Hch.
    + exists (String ch stream). split; [done|]. right. simpl. f_equal.
      apply bool_decide_eq_true in Hch. apply code_inj. by rewrite Hch.
    + destruct (getline_from stream) as [line rest]. simpl in *.
      exists R. split; [|done]. rewrite string_append_cons. by f_equal.
Qed.

Lemma join_snoc (grid : list string) (line : string) :
  grid ≠ [] →
  join (grid ++ [line]) = String.append (join grid) (String "010" line).
Proof.
  induction grid as [|row grid IH]; intros Hne; [done|].
  destruct grid as [|row2 grid]; [done|].
  change (join ((row :: row2 :: grid) ++ [line]))
    with (String.append row (String "010" (join ((row2 :: grid) ++ [line])))).
  rewrite IH by done.
  change (join (row :: row2 :: grid))
    with (String.append row (String "010" (join (row2 :: grid)))).
  by rewrite string_append_assoc, string_append_cons.
Qed.

(** The invariant of the loop of [ReadLevel]: the rows read so far all have
    the length [width], and the stream [orig] the reader started from is
    those rows, separated by newlines, followed by what is left to read. *)
Lemma read_rows_sound fuel :
  ∀ stream width height grid len orig,
    (String.length stream < fuel)%nat →
    Z.of_nat (length grid) + Z.of_nat (String.length stream) < 2147483648 →
    height = Z.of_nat (length grid) →
    (grid = [] ∧ width = 0 ∧ orig = stream) ∨
    (grid ≠ [] ∧ width = len ∧ 0 < len < 2147483648 ∧
     Forall (row_ok len) grid ∧
     ∃ R, orig = String.append (join grid) R ∧ after R stream) →
    read_rows fuel stream width height grid = Ok None ∨
    ∃ len' rows tail,
      orig = String.append (join rows) tail ∧ ends_level tail = true ∧
      rows ≠ [] ∧ 0 < len' ∧ Forall (row_ok len') rows ∧
      read_rows fuel stream width height grid
      = (lv ← new_level rows; Ok (Some lv)).
Proof.
  induction fuel as [|fuel IH];
    intros stream width height grid len orig Hfuel Hsize Hheight Hgrid; [lia|].
  assert (match stream with
          | EmptyString => True
          | String ch _ => is_newline ch = true
          end →
          read_end width height grid = Ok None ∨
          ∃ len' rows tail,
            orig = String.append (join rows) tail ∧ ends_level tail = true ∧
            rows ≠ [] ∧ 0 < len' ∧ Forall (row_ok len') rows ∧
            read_end width height grid = (lv ← new_level rows; Ok (Some lv)))
    as Hend.
  { intros Hstop. unfold read_end.
    destruct Hgrid as [(-> & -> & _)|(Hne & -> & Hlen & Hrows & R & HR & HA)].
    - by left.
    - right. exists len, grid, R. split_and!; [done | | done | lia | done |].
      + destruct HA as [[-> ->]| ->]; [done|].
        destruct stream as [|ch stream]; [done|]. simpl. by rewrite Hstop.
      + rewrite (bool_decide_eq_false_2 (len = 0)) by lia.
        rewrite bool_decide_eq_false_2; [done|].
        subst height. destruct grid; [done|]. simpl. lia. }
  cbn [read_rows]. unfold getline.
  destruct stream as [|ch stream]; [by apply Hend|].
  pose proof (getline_from_spec (String ch stream)) as (Hplain & Hle & Hlt).
  pose proof (getline_from_cut (String ch stream)) as (R' & Hcut & Hafter').
  specialize (Hlt ltac:(done)).
  destruct (getline_from (String ch stream)) as [line rest].
  cbn [fst snd] in *. cbn zeta.
  set (size := Z.of_nat (String.length line)).
  case_bool_decide as Hempty.
  { apply Hend. destruct line; [|unfold size in Hempty; simpl in Hempty; lia].
    rewrite string_append_nil in Hcut. subst R'.
    by destruct Hafter' as [[? _]|[= -> _]]. }
  assert (int_incr height = Ok (height + 1)) as Hincr.
  { unfold int_incr. rewrite bool_decide_eq_true_2; [done|].
    subst height. lia. }
  assert (0 < size < 2147483648) as Hsz by (unfold size in *; lia).
  assert (row_ok size line) as Hline by done.
  destruct Hgrid as [(-> & -> & ->)|(Hne & -> & Hlen & Hrows & R & HR & HA)].
  - rewrite bool_decide_eq_true_2 by done. rewrite Hincr, bind_Ok.
    replace (int size) with size
      by (unfold int; rewrite Z.mod_small by lia; lia).
    apply (IH rest size (height + 1) ([] ++ [line]) size).
    + lia.
    + simpl length in *. lia.
    + subst height. simpl. lia.
    + right. split_and!; try done; try lia; [by constructor|].
      by exists R'.
  - rewrite (bool_decide_eq_false_2 (len = 0)) by lia.
    case_bool_decide as Hragged; [by left|].
    assert (size = len) as Heq.
    { unfold size_t in Hragged. rewrite Z.mod_small in Hragged by lia.
      by destruct (decide (size = len)). }
    rewrite Hincr, bind_Ok.
    apply (IH rest len (height + 1) (grid ++ [line]) len).
    + lia.
    + rewrite length_app. simpl length. lia.
    + subst height. rewrite length_app. simpl. lia.
    + right. split_and!; try done; try lia.
      * by destruct grid.
      * apply Forall_app. split; [done|]. constructor; [|done].
        by rewrite <- Heq.
      * exists R'. split; [|done]. rewrite join_snoc by done.
        destruct HA as [[_ [=]]| ->].
        by rewrite HR, Hcut, string_append_assoc, string_append_cons.
Qed.

(** X22. For every stream shorter than [2^31] characters the loop of
    [ReadLevel] ends, and [ReadLevel] returns either no level or the level
    the constructor builds from the rows of the stream: the stream is then
    a non-empty list of rows that all have the same positive length and hold
    no newline, separated by newlines and followed by the end of the stream
    or by an empty line, and the constructor is called on exactly those
    rows.  So the constructor is never called on an empty or a ragged
    input, nor on rows the stream does not hold. *)
Theorem ReadLevel_sound (stream : string) :
  Z.of_nat (String.length stream) < 2147483648 →
  ReadLevel stream = Ok None ∨
  ∃ len rows tail,
    stream = String.append (join rows) tail ∧ ends_level tail = true ∧
    rows ≠ [] ∧ 0 < len ∧ Forall (row_ok len) rows ∧
    ReadLevel stream = (lv ← new_level rows; Ok (Some lv)).
Proof.
  intros Hsize. unfold ReadLevel.
  apply (read_rows_sound _ stream 0 0 [] 0 stream); [lia | simpl; lia | done|].
  by left.
Qed.

Lemma ReadLevel_sound_witness :
  ReadLevel "1 1" = Ok None ∨
  ∃ len rows tail,
    "1 1"%string = String.append (join rows) tail ∧ ends_level tail = true ∧
    rows ≠ [] ∧ 0 < len ∧ Forall (row_ok len) rows ∧
    ReadLevel "1 1" = (lv ← new_level rows; Ok (Some lv)).
Proof. apply (ReadLevel_sound "1 1"). vm_compute. reflexivity. Defined.

(** * Levels beyond the range of [uint8_t]

    [ReadLevel] accepts a picture of any size, but [Point] keeps the
    coordinates of a grabbed cell, and [Cell] the group of a block, in a
    [uint8_t].  On a level with more than 257 rows or columns, border
    included, or with more than 255 blocks, the narrowing conversions wrap
    around, and what holds of the well-shaped levels above fails.  The
    levels of this part are the ones [ReadLevel] returns for the pictures
    given with them. *)

Fixpoint blanks (n : nat) : string :=
  match n with
  | O => EmptyString
  | S n => String " " (blanks n)
  end.

Fixpoint repeat_string (n : nat) (s : string) : string :=
  match n with
  | O => EmptyString
  | S n => String.append s (repeat_string n s)
  end.

(** The level read from a picture; the empty level when there is none. *)
Definition level_of (input : list string) : Level :=
  match ReadLevel (join input) with
  | Ok (Some lv) => lv
  | _ => mkLevel 0 0 0 []
  end.

Definition block (color group : Z) : Cell := mkCell MOVABLE color group.

(** The part of a result that tells two states apart: whether the push
    succeeded, the number of groups, and the cell at [p]. *)
Definition glimpse (p : pos) (res : result (bool * Level))
  : option (bool * Z * option Cell) :=
  match res with
  | Ok (b, lv) => Some (b, groups lv, look (grid lv) p)
  | Err _ => None
  end.

Lemma MoveGroup_Ok_args lv g dr dc res :
  MoveGroup lv g dr dc = Ok res →
  valid_dir dr dc = true ∧ 0 < g ≤ groups lv.
Proof.
  unfold MoveGroup. intros H. inv_step H as [] Hd.
  apply assert_Ok_inv in Hd. inv_step H as [] Hg.
  by apply assert_Ok_inv, andb_true_iff in Hg as
    [?%bool_decide_eq_true ?%bool_decide_eq_true].
Qed.

Lemma look_elem_of (G : Grid) (p : pos) (x : Cell) :
  look G p = Some x → ∃ row, row ∈ G ∧ x ∈ row.
Proof.
  unfold look, cell. case_bool_decide; [|done]. intros Hx.
  rewrite bind_Some in Hx. destruct Hx as (row & Hrow & Hx).
  exists row. split; by eapply list_elem_of_lookup_2.
Qed.

(** ** A level of 256 rows *)

(** Two blocks of one colour in the last of 256 rows, which is row 256 of
    the grid. *)
Definition tall_input : list string :=
  replicate 255 "   "%string ++ ["1 1"%string].

Definition tall_level : Level := Eval vm_compute in level_of tall_input.

(** C9. The assertion of the place step fails on a level of 256 rows.
    [TryMove] is called for the block in row 256, column 1, and a push to
    the left.  The wall to its left makes the grab fail, the record of the
    block holds the narrowed row [0], and the roll-back writes the block to
    row 0, column 1, which is a wall and not [OPEN]: the assertion of the
    place step fails. *)
Theorem TryMove_rollback_hits_wall :
  ReadLevel (join tall_input) = Ok (Some tall_level) ∧
  movable (grid tall_level) (256, 1) ∧
  look (grid tall_level) (256, 0) = Some CellWall ∧
  GrabMovable (grab_fuel (grid tall_level)) 0 (-1) 256 1 (grid tall_level, [])
    = Ok (false, (set_cell (grid tall_level) 256 1 Cell0,
                  [(mkPoint 0 1, block 1 1)])) ∧
  look (set_cell (grid tall_level) 256 1 Cell0) (0, 1) = Some CellWall ∧
  TryMove (grid tall_level) 256 1 0 (-1) = Err AssertFail.
Proof.
  split_and!; try (vm_compute; reflexivity).
  eexists. split; vm_compute; reflexivity.
Qed.

(** ** A level of 256 blocks *)

(** 256 blocks in a row, of alternating colours, so that no two merge. *)
Definition crowd_input : list string := [repeat_string 128 "12"].

Definition crowd_level : Level := Eval vm_compute in level_of crowd_input.

(** C7. [MoveGroup] has failure modes other than returning [false].  On
    the level of 256 rows the block of group [1] has a wall to its left;
    [MoveGroup] does not return failure for the push to the left but stops
    at the failing assertion of the place step.  On the level of 256 blocks
    the group identifier [256] is in the range [1..groups], but the
    [uint8_t] parameter receives [0], and the assertion [group > 0]
    fails. *)
Theorem MoveGroup_wall_aborts :
  ReadLevel (join tall_input) = Ok (Some tall_level) ∧
  look (grid tall_level) (256, 1) = Some (block 1 1) ∧
  look (grid tall_level) (256, 0) = Some CellWall ∧
  1 ≤ 1 ≤ groups tall_level ∧
  MoveGroup tall_level 1 0 (-1) = Err AssertFail ∧
  ReadLevel (join crowd_input) = Ok (Some crowd_level) ∧
  1 ≤ 256 ≤ groups crowd_level ∧
  MoveGroup crowd_level (uint8 256) 0 (-1) = Err AssertFail.
Proof. split_and!; by vm_compute. Qed.

(** C5. The group identifiers of a constructed level are not always
    [1..groups].  The level constructed from 256 blocks in a row has
    [groups = 256]; its last block carries the group [0], the group of the
    cells that are no block, and no cell carries the identifier [256]. *)
Theorem new_level_256_blocks :
  ReadLevel (join crowd_input) = Ok (Some crowd_level) ∧
  reachable crowd_input crowd_level ∧
  groups crowd_level = 256 ∧
  look (grid crowd_level) (1, 256) = Some (block 2 0) ∧
  ∀ p x, look (grid crowd_level) p = Some x → group x ≠ 256.
Proof.
  split_and!; try (vm_compute; reflexivity).
  - apply reach_new. vm_compute. reflexivity.
  - assert (Forall (Forall (λ x, group x ≠ 256)) (grid crowd_level)) as Hall.
    { apply (bool_decide_unpack _). vm_compute. exact I. }
    intros p x (row & Hrow & Hx)%look_elem_of.
    rewrite Forall_forall in Hall. specialize (Hall row Hrow).
    rewrite Forall_forall in Hall. by apply Hall.
Qed.

(** ** Levels of 257 and of 258 blocks *)

Definition split_input : list string :=
  [String.append (repeat_string 128 "12") "1"].

Definition split_level : Level := Eval vm_compute in level_of split_input.

(** 258 blocks: two of colour [1], then blocks of alternating colours. *)
Definition clash_input : list string :=
  [String.append "11" (repeat_string 128 "21")].

(** C10. The cells of one group are not always connected.  In the level
    constructed from 257 blocks in a row the first and the last block both
    carry the group [1], with 255 blocks of other groups between them.  In
    the level of 258 blocks the first two blocks merge, [Regroup] rewrites
    the second and does not reach the last block, which carries the group
    [2] as well, and the assertion of [RemoveUnusedGroupNumber] fails in the
    constructor. *)
Theorem groups_split_beyond_255 :
  ReadLevel (join split_input) = Ok (Some split_level) ∧
  reachable split_input split_level ∧
  look (grid split_level) (1, 1) = Some (block 1 1) ∧
  look (grid split_level) (1, 257) = Some (block 1 1) ∧
  ¬ rtc (linked (grid split_level)) (1, 1) (1, 257) ∧
  new_level clash_input = Err AssertFail ∧
  ReadLevel (join clash_input) = Err AssertFail.
Proof.
  split_and!; try (vm_compute; reflexivity).
  - apply reach_new. vm_compute. reflexivity.
  - intros Hpath. inversion Hpath as [|? q ? Hlink _]; subst.
    destruct Hlink as (Hadj & x & y & Hx & Hy & _ & Hty & Hg).
    unfold adj, neighbours in Hadj. simpl in Hadj.
    assert (x = block 1 1) as -> by (vm_compute in Hx; by simplify_eq).
    set_unfold in Hadj.
    destruct Hadj as [->|[->|[->|[->|[]]]]];
      vm_compute in Hy; by simplify_eq.
Qed.

(** ** A level of 260 columns *)

(** One block in the last of 260 columns, which is column 260 of the
    grid. *)
Definition wide_input : list string := [String.append (blanks 259) "1"].

Definition wide_level : Level := Eval vm_compute in level_of wide_input.

(** C2. A failed [MoveGroup] does not always leave the state as it was.
    On the level of 260 columns the push of the block to the right fails at
    the wall, and the roll-back writes the block to the narrowed column
    [260 - 256 = 4]: [MoveGroup] returns failure with the block in column 4
    and column 260 empty. *)
Theorem MoveGroup_rollback_displaces :
  ReadLevel (join wide_input) = Ok (Some wide_level) ∧
  look (grid wide_level) (1, 260) = Some (block 1 1) ∧
  look (grid wide_level) (1, 4) = Some Cell0 ∧
  ∃ lv', MoveGroup wide_level 1 0 1 = Ok (false, lv') ∧
         look (grid lv') (1, 260) = Some Cell0 ∧
         look (grid lv') (1, 4) = Some (block 1 1) ∧
         lv' ≠ wide_level.
Proof.
  split_and!; try (vm_compute; reflexivity).
  exists (with_grid wide_level
            (set_cell (set_cell (grid wide_level) 1 260 Cell0) 1 4
               (block 1 1))).
  split_and!; try (vm_compute; reflexivity).
  intros H. apply (f_equal (λ lv, look (grid lv) (1, 4))) in H.
  vm_compute in H. discriminate.
Qed.

(** ** A level of 260 rows *)

(** A block on a ledge in row 1, and a block of another colour in row 257
    of an empty column of 260 rows. *)
Definition shaft_input : list string :=
  ["1  "; "## "]%string ++ replicate 254 "   "%string
  ++ ["  2"]%string ++ replicate 3 "   "%string.

Definition shaft_level : Level := Eval vm_compute in level_of shaft_input.

(** C3. One sweep of [DropDown] does not always settle the blocks.  In the
    level of 260 rows the block of row 257 has three empty cells below it.
    The first sweep, run by itself or by [MoveGroup] after a push of the
    other block, grabs it in row 257, narrowed to row 1, and writes it to
    row 2, where it has nothing below it; a second sweep takes it from row
    2 down to row 256 and from there, narrowed to row 0, to row 1.  The
    second sweep changes the state the first one left. *)
Theorem DropDown_second_sweep_moves :
  ReadLevel (join shaft_input) = Ok (Some shaft_level) ∧
  look (grid shaft_level) (257, 3) = Some (block 2 2) ∧
  (∃ G1 G2,
     DropDown (height shaft_level) (width shaft_level) (grid shaft_level)
       = Ok G1 ∧
     DropDown (height shaft_level) (width shaft_level) G1 = Ok G2 ∧
     look G1 (2, 3) = Some (block 2 2) ∧ look G1 (3, 3) = Some Cell0 ∧
     look G2 (2, 3) = Some Cell0 ∧ look G2 (1, 3) = Some (block 2 2) ∧
     G2 ≠ G1) ∧
  (∃ lv1 G2,
     MoveGroup shaft_level 1 0 1 = Ok (true, lv1) ∧
     DropDown (height lv1) (width lv1) (grid lv1) = Ok G2 ∧
     look (grid lv1) (2, 3) = Some (block 2 2) ∧
     look G2 (2, 3) = Some Cell0 ∧
     G2 ≠ grid lv1).
Proof.
  pose (sweep := λ G : Grid,
          match DropDown 262 5 G with Ok G' => G' | Err _ => G end).
  split; [vm_compute; reflexivity|]. split; [vm_compute; reflexivity|].
  split.
  - exists (sweep (grid shaft_level)), (sweep (sweep (grid shaft_level))).
    split_and!; try (vm_compute; reflexivity).
    intros H. apply (f_equal (λ G, look G (2, 3))) in H.
    vm_compute in H. discriminate.
  - exists (pushed_by 1 1 shaft_level),
           (sweep (grid (pushed_by 1 1 shaft_level))).
    split_and!; try (vm_compute; reflexivity).
    intros H. apply (f_equal (λ G, look G (2, 3))) in H.
    vm_compute in H. discriminate.
Qed.

(** ** Levels of two rows and 260 columns *)

(** A block of colour 1 in row 1, column 260, on a wall, and a block of
    colour 2 in row 2, column 1. *)
Definition pair_input : list string :=
  [String.append (blanks 259) "1";
   String.append "2" (String.append (blanks 258) "#")].

Definition pair_level : Level := Eval vm_compute in level_of pair_input.

(** What [Successors] makes of the push of group 2 to the right: the
    failed push of group 1 to the right before it has left the block of
    group 1 in column 4 of the working copy. *)
Definition pair_ghost : Level :=
  Eval vm_compute in
    match MoveGroup pair_level 1 0 1 with
    | Ok (false, copy) => pushed_by 2 1 copy
    | _ => pair_level
    end.

(** C8. [Successors] does not always return the states obtained by one
    push.  On the level of 256 rows it stops at the failing assertion of
    the place step.  On the level of two rows and 260 columns the failed
    push of group 1 to the right rolls the block back to column 4 of the
    working copy, which is not restored; the push of group 2 to the right
    is then made in that copy.  The list returned holds its result, with
    the block of group 1 in row 2, column 4, which no [MoveGroup] of the
    input state yields, and it lacks the state that [MoveGroup] yields for
    group 2 and the push to the right on the input state. *)
Theorem Successors_foreign_state :
  ReadLevel (join tall_input) = Ok (Some tall_level) ∧
  Successors tall_level = Err AssertFail ∧
  ReadLevel (join pair_input) = Ok (Some pair_level) ∧
  ∃ res lv2,
    Successors pair_level = Ok res ∧
    pair_ghost ∈ res ∧
    (∀ g dr dc b, MoveGroup pair_level g dr dc ≠ Ok (b, pair_ghost)) ∧
    MoveGroup pair_level 2 0 1 = Ok (true, lv2) ∧
    lv2 ∉ res.
Proof.
  do 3 (split; [vm_compute; reflexivity|]).
  exists [pair_ghost; pushed_by 1 (-1) pair_level], (pushed_by 2 1 pair_level).
  split_and!.
  - vm_compute. reflexivity.
  - apply list_elem_of_here.
  - intros g dr dc b H.
    destruct (MoveGroup_Ok_args _ _ _ _ _ H) as [Hd Hg].
    change (groups pair_level) with 2 in Hg.
    assert ((dr = 0 ∧ (dc = -1 ∨ dc = 1)) ∨ (dc = 0 ∧ (dr = -1 ∨ dr = 1)))
      as Hdir.
    { unfold valid_dir in Hd.
      by rewrite orb_true_iff, !andb_true_iff, !orb_true_iff,
        !bool_decide_eq_true in Hd. }
    clear Hd. apply (f_equal (glimpse (2, 4))) in H.
    assert (g = 1 ∨ g = 2) as [-> | ->] by lia;
      destruct Hdir as [[-> [-> | ->]] | [-> [-> | ->]]];
      vm_compute in H; discriminate.
  - vm_compute. reflexivity.
  - intros Hin. apply elem_of_cons in Hin as [H|Hin];
      [|apply elem_of_cons in Hin as [H|Hin]];
      [| |by apply not_elem_of_nil in Hin];
      apply (f_equal (λ lv, look (grid lv) (1, 4))) in H;
      vm_compute in H; discriminate.
Qed.

(** The same level with a second block of colour 1 in row 2, column 5. *)
Definition trio_input : list string :=
  [String.append (blanks 259) "1";
   String.append "2   1" (String.append (blanks 254) "#")].

Definition trio_level : Level := Eval vm_compute in level_of trio_input.

Definition trio_ghost : Level :=
  Eval vm_compute in
    match MoveGroup trio_level 1 0 1 with
    | Ok (false, copy) => pushed_by 2 1 copy
    | _ => trio_level
    end.

(** C1. The steps of the path [Solve] returns are not always legal pushes.
    On the level of two rows and 260 columns with three blocks [Solve]
    returns a path of one move whose second state is solved but is no
    result of a push of the initial state: the block of row 1, column 260
    stands in row 2, column 4, beside the block of its colour, while the
    block of colour 2 has moved one column to the right.  It is the state
    [Successors] builds in a working copy that a failed push has changed. *)
Theorem Solve_step_not_a_push :
  ReadLevel (join trio_input) = Ok (Some trio_level) ∧
  (∀ fuel, Solve (S fuel) trio_level = Ok [trio_level; trio_ghost]) ∧
  Solved trio_ghost = Ok true ∧
  look (grid trio_level) (1, 260) = Some (block 1 1) ∧
  look (grid trio_level) (2, 4) = Some Cell0 ∧
  look (grid trio_ghost) (1, 260) = Some Cell0 ∧
  look (grid trio_ghost) (2, 4) = Some (block 1 1) ∧
  ¬ legal_push trio_level trio_ghost ∧
  ¬ chain [trio_level; trio_ghost].
Proof.
  assert (¬ legal_push trio_level trio_ghost) as Hno.
  { intros (g & dc & Hg & Hdc & H).
    change (groups trio_level) with 3 in Hg.
    apply (f_equal (glimpse (2, 2))) in H.
    assert (g = 1 ∨ g = 2 ∨ g = 3) as [-> | [-> | ->]] by lia;
      destruct Hdc as [-> | ->]; vm_compute in H; discriminate. }
  split; [vm_compute; reflexivity|].
  split; [intros fuel; vm_compute; reflexivity|].
  do 5 (split; [vm_compute; reflexivity|]).
  split; [done|]. intros Hch. apply Hno. by apply (Hch 0%nat).
Qed.
